(** * Delmar Nazarene Church website scripts: a shallow embedding

  The two scripts of the site (the main script with the navigation,
  scroll and form helpers, and [assets/js/language-switcher.js]) are
  event handlers over the DOM. Each module below embeds one script
  object: the DOM nodes a handler touches become record fields, a handler
  becomes a function from state to state, an exception becomes an
  explicit result constructor. The properties follow the definitions, a
  module of lemmas for each module of definitions.

  - [Regex]            the fragment of regular expressions the scripts use
  - [JsString]         strings of UTF-16 code units, [trim], the class \s
  - [FormHelpers]      validateField / setFieldState
  - [Scroll]           StickyHeader.handleScroll, BackToTop.toggleVisibility
  - [Nav]              MobileNav and DesktopNav
  - [LanguageSwitcher] language detection, storage and switching        *)

From Stdlib Require Import QArith Ascii.
From stdpp Require Import gmap strings list.

Set Default Proof Using "Type".

(* ===================================================================== *)
(** ** Regular expressions (the test-only fragment) *)
(* ===================================================================== *)

Module Regex.
Section WithChar.
Context {A : Type}.

(** [RegExp.prototype.test] on a pattern anchored with ^ and $ decides
    membership of the whole string in the language of the pattern, so
    the matcher is the classical derivative one. *)
Inductive regex : Type :=
| Void
| Eps
| Class (p : A → bool)
| Cat (r1 r2 : regex)
| Alt (r1 r2 : regex)
| Star (r : regex).

Fixpoint nullable (r : regex) : bool :=
  match r with
  | Void => false
  | Eps => true
  | Class _ => false
  | Cat r1 r2 => nullable r1 && nullable r2
  | Alt r1 r2 => nullable r1 || nullable r2
  | Star _ => true
  end.

Fixpoint deriv (c : A) (r : regex) : regex :=
  match r with
  | Void => Void
  | Eps => Void
  | Class p => if p c then Eps else Void
  | Cat r1 r2 =>
      if nullable r1 then Alt (Cat (deriv c r1) r2) (deriv c r2)
      else Cat (deriv c r1) r2
  | Alt r1 r2 => Alt (deriv c r1) (deriv c r2)
  | Star r1 => Cat (deriv c r1) (Star r1)
  end.

(** [test r s]: /^r$/.test(s) *)
Fixpoint test (r : regex) (s : list A) : bool :=
  match s with
  | [] => nullable r
  | c :: s' => test (deriv c r) s'
  end.

(** r+ *)
Definition Plus (r : regex) : regex := Cat r (Star r).

(** r{n,} *)
Fixpoint AtLeast (n : nat) (r : regex) : regex :=
  match n with
  | O => Star r
  | S n' => Cat r (AtLeast n' r)
  end.

(** The language of a pattern. *)
Inductive lang : regex → list A → Prop :=
| lang_eps : lang Eps []
| lang_class p c : p c = true → lang (Class p) [c]
| lang_cat r1 r2 s1 s2 : lang r1 s1 → lang r2 s2 → lang (Cat r1 r2) (s1 ++ s2)
| lang_alt_l r1 r2 s : lang r1 s → lang (Alt r1 r2) s
| lang_alt_r r1 r2 s : lang r2 s → lang (Alt r1 r2) s
| lang_star_nil r : lang (Star r) []
| lang_star_app r s1 s2 : lang r s1 → lang (Star r) s2 → lang (Star r) (s1 ++ s2).

End WithChar.
Arguments regex : clear implicits.
End Regex.

(* ===================================================================== *)
(** ** JavaScript strings *)
(* ===================================================================== *)

Module JsString.
(** A JavaScript string is a sequence of UTF-16 code units. *)
Definition code_unit : Type := N.
Definition jsstring : Type := list code_unit.

(** A literal of the source, written in ASCII. *)
Fixpoint lit (s : string) : jsstring :=
  match s with
  | EmptyString => []
  | String a s' => Ascii.N_of_ascii a :: lit s'
  end.

Definition in_range (lo hi c : N) : bool := ((lo <=? c) && (c <=? hi))%N.

(** The class \s, which is also what [String.prototype.trim] strips:
    WhiteSpace (TAB, VT, FF, SP, NBSP, ZWNBSP and the category Zs) and
    LineTerminator (LF, CR, LS, PS). *)
Definition is_whitespace (c : code_unit) : bool :=
  in_range 9 13 c || (c =? 32)%N || (c =? 160)%N || (c =? 5760)%N
  || in_range 8192 8202 c || (c =? 8232)%N || (c =? 8233)%N
  || (c =? 8239)%N || (c =? 8287)%N || (c =? 12288)%N || (c =? 65279)%N.

(** The class \d (without the u/v flags: ASCII digits only). *)
Definition is_digit (c : code_unit) : bool := in_range 48 57 c.

Fixpoint trimStart (s : jsstring) : jsstring :=
  match s with
  | [] => []
  | c :: s' => if is_whitespace c then trimStart s' else s
  end.

Definition trimEnd (s : jsstring) : jsstring :=
  reverse (trimStart (reverse s)).

Definition trim (s : jsstring) : jsstring := trimEnd (trimStart s).
End JsString.

(* ===================================================================== *)
(** ** FormHelpers *)
(* ===================================================================== *)

Module FormHelpers.
Import Regex JsString.

(** The part of a form control [validateField] reads and writes.
    [errorElement] is the text of
    [field.closest('.form-group')?.querySelector('.form-error')], when
    there is such an element. *)
Record field : Type := Field {
  value : jsstring;
  type : string;
  required : bool;
  classList : gset string;
  errorElement : option string
}.

(** /^[^\s@]+@[^\s@]+\.[^\s@]+$/ *)
Definition not_space_at (c : code_unit) : bool :=
  negb (is_whitespace c || (c =? 64)%N).

Definition emailRegex : regex code_unit :=
  Cat (Plus (Class not_space_at))
    (Cat (Class (λ c, (c =? 64)%N))
       (Cat (Plus (Class not_space_at))
          (Cat (Class (λ c, (c =? 46)%N))
             (Plus (Class not_space_at))))).

(** /^[\d\s\-\+\(\)]{10,}$/ *)
Definition phone_char (c : code_unit) : bool :=
  is_digit c || is_whitespace c || (c =? 45)%N || (c =? 43)%N
  || (c =? 40)%N || (c =? 41)%N.

Definition phoneRegex : regex code_unit := AtLeast 10 (Class phone_char).

Definition setFieldState (f : field) (isValid : bool) (errorMessage : string)
  : field :=
  if isValid then
    {| value := value f; type := type f; required := required f;
       classList := (classList f ∖ {["is-invalid"]}) ∪ {["is-valid"]};
       errorElement := (λ _, "") <$> errorElement f |}
  else
    {| value := value f; type := type f; required := required f;
       classList := (classList f ∖ {["is-valid"]}) ∪ {["is-invalid"]};
       errorElement := (λ _, errorMessage) <$> errorElement f |}.

(** A string is truthy when it is not empty. *)
Definition truthy (s : jsstring) : bool :=
  match s with [] => false | _ => true end.

Definition validateField (f : field) : bool * field :=
  let value := trim (value f) in
  let type := type f in
  let st := (true, "") in
  (* Required check *)
  let st := if required f && negb (truthy value)
            then (false, "This field is required") else st in
  (* Email validation *)
  let st := if bool_decide (type = "email") && truthy value
            then if negb (test emailRegex value)
                 then (false, "Please enter a valid email address") else st
            else st in
  (* Phone validation *)
  let st := if bool_decide (type = "tel") && truthy value
            then if negb (test phoneRegex value)
                 then (false, "Please enter a valid phone number") else st
            else st in
  (* Update field state *)
  (st.1, setFieldState f st.1 st.2).

(** validateForm: every [required] control is validated, in document
    order; the submission is prevented when one of them fails. *)
Definition validateForm (requiredFields : list field) : bool * list field :=
  foldl (λ acc fld,
           let r := validateField fld in
           (acc.1 && r.1, acc.2 ++ [r.2]))
        (true, []) requiredFields.

(** *** Acceptance sets in words *)

Definition plain (c : code_unit) : Prop := is_whitespace c = false ∧ c ≠ 64%N.

(** local@domain.tld with none of the three parts empty and no white
    space or further '@' anywhere. *)
Definition email_shape (v : jsstring) : Prop :=
  ∃ l d t, v = l ++ [64%N] ++ d ++ [46%N] ++ t
           ∧ l ≠ [] ∧ d ≠ [] ∧ t ≠ []
           ∧ Forall plain l ∧ Forall plain d ∧ Forall plain t.

Definition phone_symbol (c : code_unit) : Prop :=
  c = 45%N ∨ c = 43%N ∨ c = 40%N ∨ c = 41%N.

(** At least ten characters, each a digit, a white-space character (\s)
    or one of - + ( ). *)
Definition tel_shape (v : jsstring) : Prop :=
  10 ≤ length v ∧
  Forall (λ c, is_digit c = true ∨ is_whitespace c = true ∨ phone_symbol c) v.

(** The narrower reading: the only blank allowed is the space U+0020. *)
Definition tel_shape_spaces_only (v : jsstring) : Prop :=
  10 ≤ length v ∧
  Forall (λ c, is_digit c = true ∨ c = 32%N ∨ phone_symbol c) v.

Definition marked_valid (f : field) : Prop :=
  "is-valid" ∈ classList f ∧ "is-invalid" ∉ classList f.

Definition marked_invalid (f : field) : Prop :=
  "is-invalid" ∈ classList f ∧ "is-valid" ∉ classList f.

Definition accepted (ty : string) (v : jsstring) : Prop :=
  (ty = "email" ∧ email_shape v) ∨ (ty = "tel" ∧ tel_shape v).

Definition format_message (ty : string) : string :=
  if bool_decide (ty = "email") then "Please enter a valid email address"
  else "Please enter a valid phone number".

(** A phone number typed with a TAB between its two halves. *)
Definition phone_with_tab : field :=
  {| value := lit "12345" ++ [9%N] ++ lit "67890"; type := "tel";
     required := false; classList := ∅; errorElement := None |}.

(** An address with surrounding blanks, in a form group that has an error
    element. *)
Definition email_field : field :=
  {| value := lit "  pastor@delmarnaz.org "; type := "email";
     required := true; classList := {["is-invalid"]};
     errorElement := Some "This field is required" |}.

(** *** The submit listener *)

(** A field is blank when its trimmed value is empty. *)
Definition blank (f : field) : Prop := trim (value f) = [].

(** form.querySelector('.is-invalid'), the form being given by its
    controls in document order (the class is only ever set on controls,
    by [setFieldState]): the position of the first one that carries it. *)
Definition firstInvalid (form : list field) : option nat :=
  fst <$> list_find (λ f, "is-invalid" ∈ classList f) form.

(** The submit listener installed by [init] on a form[data-validate]:
    [validateForm] on the [required] controls, which are changed in
    place; when one of them fails, the default action is prevented and
    the first control marked invalid gets the focus. The result is
    whether the submission was prevented, the controls afterwards, and
    the control that was focused. *)
Definition submit (form : list field) : bool * list field * option nat :=
  let isValid := (validateForm (filter (λ f, required f = true) form)).1 in
  let form' := (λ f, if required f then (validateField f).2 else f) <$> form in
  if isValid then (false, form', None)
  else (true, form', firstInvalid form').

(** A required field that was left blank, and an optional one. *)
Definition blank_required_field : field :=
  {| value := lit "   "; type := "tel"; required := true;
     classList := {["form-control"]}; errorElement := Some "" |}.

Definition blank_optional_field : field :=
  {| value := []; type := "email"; required := false;
     classList := {["form-control"; "is-invalid"]};
     errorElement := Some "Please enter a valid email address" |}.

Definition name_field : field :=
  {| value := lit "Ann"; type := "text"; required := true;
     classList := ∅; errorElement := None |}.

End FormHelpers.

(* ===================================================================== *)
(** ** StickyHeader and BackToTop *)
(* ===================================================================== *)

Module Scroll.

(** [window.scrollY] is a double; every finite double is a rational, and
    the handlers only compare it with integer constants. *)
Definition gt (a b : Q) : bool := negb (Qle_bool a b).

(** classList.add / classList.remove *)
Definition classList_add (c : string) (cl : gset string) : gset string :=
  cl ∪ {[c]}.
Definition classList_remove (c : string) (cl : gset string) : gset string :=
  cl ∖ {[c]}.

(** The StickyHeader object after a successful [init] (the listener is
    only installed when [.site-header] exists): the class list and the
    inline transform of the header element, and the two bookkeeping
    fields of the object. *)
Record StickyHeader : Type := {
  header : gset string;
  headerTransform : string;
  lastScrollY : Q;
  isHidden : bool
}.

(** [handleScroll], with [scrollY] the value of window.scrollY. The
    source continues with a block that would hide the header on the way
    down past 200px and show it on the way up; that block is inside a
    comment ("Uncomment if you want this behavior") and is not code. *)
Definition handleScroll (scrollY : Q) (h : StickyHeader) : StickyHeader :=
  let currentScrollY := scrollY in
  {| header := if gt currentScrollY 10
               then classList_add "scrolled" (header h)
               else classList_remove "scrolled" (header h);
     headerTransform := headerTransform h;
     lastScrollY := lastScrollY h;
     isHidden := isHidden h |}.

(** The BackToTop object after a successful [init]: the class list of the
    button. *)
Record BackToTop : Type := { button : gset string }.

Definition toggleVisibility (scrollY : Q) (b : BackToTop) : BackToTop :=
  {| button := if gt scrollY 500
               then classList_add "visible" (button b)
               else classList_remove "visible" (button b) |}.

(** The header when the page has just loaded, at the top. *)
Definition header_at_load : StickyHeader :=
  {| header := ∅; headerTransform := ""; lastScrollY := 0; isHidden := false |}.

End Scroll.

(* ===================================================================== *)
(** ** MobileNav and DesktopNav *)
(* ===================================================================== *)

Module Nav.

(** The DOM nodes the two navigation objects read or focus. *)
Inductive element : Type :=
| Body
| ToggleButton                 (* .mobile-menu-toggle *)
| NavElement (k : nat)         (* a focusable node inside .mobile-nav *)
| TriggerLink (i : nat)        (* .nav-link.has-dropdown of nav item i *)
| MenuLink (i j : nat)         (* the j-th <a> of the dropdown of item i *)
| Elsewhere (n : nat).           (* an element outside the navs that can
                                  hold the focus *)

#[global] Instance element_eq_dec : EqDecision element.
Proof. solve_decision. Defined.

Inductive key : Type :=
| Enter | Space | ArrowDown | ArrowUp | Escape | Tab | OtherKey.

#[global] Instance key_eq_dec : EqDecision key.
Proof. solve_decision. Defined.

(** One .nav-item that has both a trigger link and a dropdown: the
    attributes of the two elements and the number of <a> in the dropdown. *)
Record navItem : Type := {
  linkAttrs : gmap string string;
  dropdownAttrs : gmap string string;
  dropdownLinks : nat
}.

(** The MobileNav object together with the part of the document it and
    DesktopNav act on. The page is one where [MobileNav.init] found both
    .mobile-menu-toggle and .mobile-nav, so that its listeners exist. *)
Record state : Type := {
  (* MobileNav fields *)
  isOpen : bool;
  focusableElements : option (list element);
  lastFocusedElement : option element;
  (* document *)
  navClassList : gset string;
  toggleAttrs : gmap string string;
  bodyOverflow : string;
  activeElement : option element;
  navFocusable : list element;   (* what nav.querySelectorAll(...) finds *)
  closeButton : bool;            (* is there a .mobile-nav-close *)
  tabTraps : list (option element * option element);
  navItems : list navItem
}.

Definition set_isOpen (b : bool) (s : state) : state :=
  {| isOpen := b; focusableElements := focusableElements s;
     lastFocusedElement := lastFocusedElement s;
     navClassList := navClassList s; toggleAttrs := toggleAttrs s;
     bodyOverflow := bodyOverflow s; activeElement := activeElement s;
     navFocusable := navFocusable s; closeButton := closeButton s;
     tabTraps := tabTraps s; navItems := navItems s |}.

Definition set_focusableElements (l : option (list element)) (s : state)
  : state :=
  {| isOpen := isOpen s; focusableElements := l;
     lastFocusedElement := lastFocusedElement s;
     navClassList := navClassList s; toggleAttrs := toggleAttrs s;
     bodyOverflow := bodyOverflow s; activeElement := activeElement s;
     navFocusable := navFocusable s; closeButton := closeButton s;
     tabTraps := tabTraps s; navItems := navItems s |}.

Definition set_lastFocusedElement (e : option element) (s : state) : state :=
  {| isOpen := isOpen s; focusableElements := focusableElements s;
     lastFocusedElement := e;
     navClassList := navClassList s; toggleAttrs := toggleAttrs s;
     bodyOverflow := bodyOverflow s; activeElement := activeElement s;
     navFocusable := navFocusable s; closeButton := closeButton s;
     tabTraps := tabTraps s; navItems := navItems s |}.

Definition set_navClassList (cl : gset string) (s : state) : state :=
  {| isOpen := isOpen s; focusableElements := focusableElements s;
     lastFocusedElement := lastFocusedElement s;
     navClassList := cl; toggleAttrs := toggleAttrs s;
     bodyOverflow := bodyOverflow s; activeElement := activeElement s;
     navFocusable := navFocusable s; closeButton := closeButton s;
     tabTraps := tabTraps s; navItems := navItems s |}.

Definition set_toggleAttrs (a : gmap string string) (s : state) : state :=
  {| isOpen := isOpen s; focusableElements := focusableElements s;
     lastFocusedElement := lastFocusedElement s;
     navClassList := navClassList s; toggleAttrs := a;
     bodyOverflow := bodyOverflow s; activeElement := activeElement s;
     navFocusable := navFocusable s; closeButton := closeButton s;
     tabTraps := tabTraps s; navItems := navItems s |}.

Definition set_bodyOverflow (v : string) (s : state) : state :=
  {| isOpen := isOpen s; focusableElements := focusableElements s;
     lastFocusedElement := lastFocusedElement s;
     navClassList := navClassList s; toggleAttrs := toggleAttrs s;
     bodyOverflow := v; activeElement := activeElement s;
     navFocusable := navFocusable s; closeButton := closeButton s;
     tabTraps := tabTraps s; navItems := navItems s |}.

(** Can the element take the focus? document.body cannot: it is what
    document.activeElement returns while no element has the focus. The
    other elements are the toggle button, the nodes that the focusable
    selector of [open] finds in the nav, the trigger links and the links
    of the dropdowns, and elements elsewhere that have held the focus. *)
Definition focusable (e : element) : bool :=
  match e with
  | Body => false
  | _ => true
  end.

Definition set_activeElement (e : option element) (s : state) : state :=
  {| isOpen := isOpen s; focusableElements := focusableElements s;
     lastFocusedElement := lastFocusedElement s;
     navClassList := navClassList s; toggleAttrs := toggleAttrs s;
     bodyOverflow := bodyOverflow s; activeElement := e;
     navFocusable := navFocusable s; closeButton := closeButton s;
     tabTraps := tabTraps s; navItems := navItems s |}.

(** [e.focus()] makes [e] the active element when [e] can take the focus
    and does nothing otherwise. *)
Definition focus (e : element) (s : state) : state :=
  if focusable e then set_activeElement (Some e) s else s.

Definition set_tabTraps (t : list (option element * option element))
  (s : state) : state :=
  {| isOpen := isOpen s; focusableElements := focusableElements s;
     lastFocusedElement := lastFocusedElement s;
     navClassList := navClassList s; toggleAttrs := toggleAttrs s;
     bodyOverflow := bodyOverflow s; activeElement := activeElement s;
     navFocusable := navFocusable s; closeButton := closeButton s;
     tabTraps := t; navItems := navItems s |}.

Definition set_navItems (l : list navItem) (s : state) : state :=
  {| isOpen := isOpen s; focusableElements := focusableElements s;
     lastFocusedElement := lastFocusedElement s;
     navClassList := navClassList s; toggleAttrs := toggleAttrs s;
     bodyOverflow := bodyOverflow s; activeElement := activeElement s;
     navFocusable := navFocusable s; closeButton := closeButton s;
     tabTraps := tabTraps s; navItems := l |}.

(** String(b), as [setAttribute] stores a boolean argument. *)
Definition bool_to_string (b : bool) : string :=
  if b then "true" else "false".

(** *** MobileNav *)

(** [trapFocus]: a further keydown listener on the document, closed over
    the first and last focusable element of the moment (undefined when
    the list is empty). *)
Definition trapFocus (s : state) : state :=
  let els := default [] (focusableElements s) in
  let firstFocusable := head els in
  let lastFocusable := last els in
  set_tabTraps (tabTraps s ++ [(firstFocusable, lastFocusable)]) s.

Definition open (s : state) : state :=
  let s := set_isOpen true s in
  let s := set_lastFocusedElement (activeElement s) s in
  let s := set_navClassList (navClassList s ∪ {["open"]}) s in
  let s := set_toggleAttrs (<["aria-expanded" := "true"]> (toggleAttrs s)) s in
  let s := set_bodyOverflow "hidden" s in
  (* Focus management *)
  let s := set_focusableElements (Some (navFocusable s)) s in
  let s := match navFocusable s with
           | e :: _ => focus e s
           | [] => s
           end in
  (* Trap focus within mobile nav *)
  trapFocus s.

Definition close (s : state) : state :=
  let s := set_isOpen false s in
  let s := set_navClassList (navClassList s ∖ {["open"]}) s in
  let s := set_toggleAttrs (<["aria-expanded" := "false"]> (toggleAttrs s)) s in
  let s := set_bodyOverflow "" s in
  (* Restore focus *)
  match lastFocusedElement s with
  | Some e => focus e s
  | None => s
  end.

Definition toggle (s : state) : state :=
  if isOpen s then close s else open s.

(** One listener installed by [trapFocus], run on a keydown. *)
Definition handleTabKey (k : key) (shiftKey : bool)
  (trap : option element * option element) (s : state) : state :=
  let '(firstFocusable, lastFocusable) := trap in
  if negb (isOpen s) || negb (bool_decide (k = Tab)) then s
  else if shiftKey then
    match firstFocusable, lastFocusable with
    | Some f, Some l =>
        if bool_decide (activeElement s = Some f) then focus l s else s
    | _, _ => s
    end
  else
    match firstFocusable, lastFocusable with
    | Some f, Some l =>
        if bool_decide (activeElement s = Some l) then focus f s else s
    | _, _ => s
    end.

(** *** DesktopNav *)

Definition toggleDropdown (i : nat) (isOpen : bool) (s : state) : state :=
  set_navItems
    (alter (λ it,
       {| linkAttrs := <["aria-expanded" := bool_to_string isOpen]> (linkAttrs it);
          dropdownAttrs :=
            <["aria-hidden" := bool_to_string (negb isOpen)]> (dropdownAttrs it);
          dropdownLinks := dropdownLinks it |}) i (navItems s)) s.

(** link.getAttribute('aria-expanded') === 'true' *)
Definition expanded (it : navItem) : bool :=
  bool_decide (linkAttrs it !! "aria-expanded" = Some "true").

(** dropdown.querySelectorAll('a') *)
Definition menuLinks (i : nat) (it : navItem) : list element :=
  MenuLink i <$> seq 0 (dropdownLinks it).

(** Array.from(links).indexOf(document.activeElement) *)
Fixpoint indexOf (links : list element) (a : option element) : Z :=
  match links with
  | [] => -1
  | e :: rest =>
      if bool_decide (a = Some e) then 0
      else let r := indexOf rest a in if (r <? 0)%Z then -1 else (r + 1)%Z
  end.

(** The keydown listener of the trigger link of item [i]. *)
Definition linkKeydown (i : nat) (k : key) (s : state) : state :=
  match navItems s !! i with
  | None => s
  | Some it =>
      let s := if bool_decide (k = Enter) || bool_decide (k = Space)
               then toggleDropdown i (negb (expanded it)) s
               else s in
      if bool_decide (k = ArrowDown) then
        let s := toggleDropdown i true s in
        match menuLinks i it with
        | firstLink :: _ => focus firstLink s
        | [] => s
        end
      else s
  end.

(** The keydown listener of the dropdown of item [i]. *)
Definition dropdownKeydown (i : nat) (k : key) (s : state) : state :=
  match navItems s !! i with
  | None => s
  | Some it =>
      let links := menuLinks i it in
      let currentIndex := indexOf links (activeElement s) in
      let s := if bool_decide (k = ArrowDown)
                  && (currentIndex <? Z.of_nat (length links) - 1)%Z
               then match links !! Z.to_nat (currentIndex + 1) with
                    | Some e => focus e s
                    | None => s
                    end
               else s in
      let s := if bool_decide (k = ArrowUp) then
                 if (0 <? currentIndex)%Z
                 then match links !! Z.to_nat (currentIndex - 1) with
                      | Some e => focus e s
                      | None => s
                      end
                 else toggleDropdown i false (focus (TriggerLink i) s)
               else s in
      if bool_decide (k = Escape)
      then toggleDropdown i false (focus (TriggerLink i) s)
      else s
  end.

(** *** Events *)

Inductive event : Type :=
| ClickToggle
| ClickClose
| ClickBackdrop                       (* a click whose target is the nav *)
| ResizeSettled (innerWidth : Z)      (* the debounced resize listener *)
| KeyDown (target : element) (k : key) (shiftKey : bool)
| CallOpen
| CallClose
| CallToggleDropdown (i : nat) (isOpen : bool).

(** CONFIG.breakpoints.desktop *)
Definition desktop_breakpoint : Z := 1024.

(** A keydown runs the listener of its target (the event bubbles from a
    menu link to its dropdown), then the listeners of the document in the
    order they were added: the Escape listener of [MobileNav.init], then
    one focus trap for every call of [open] so far. What the browser does
    with the key by itself (moving the focus on Tab) is not part of the
    scripts and not modelled. *)
Definition step (e : event) (s : state) : state :=
  match e with
  | ClickToggle => toggle s
  | ClickClose => if closeButton s then close s else s
  | ClickBackdrop => close s
  | ResizeSettled w =>
      if isOpen s && (desktop_breakpoint <=? w)%Z then close s else s
  | KeyDown target k shiftKey =>
      let s := match target with
               | TriggerLink i => linkKeydown i k s
               | MenuLink i _ => dropdownKeydown i k s
               | _ => s
               end in
      let s := if bool_decide (k = Escape) && isOpen s then close s else s in
      foldl (λ s trap, handleTabKey k shiftKey trap s) s (tabTraps s)
  | CallOpen => open s
  | CallClose => close s
  | CallToggleDropdown i b => toggleDropdown i b s
  end.

Definition run (evs : list event) (s : state) : state :=
  foldl (λ s e, step e s) s evs.

(** A page as it is when the scripts have been initialised and nothing
    has been opened yet. *)
Definition loaded (s : state) : Prop :=
  isOpen s = false ∧ focusableElements s = None ∧
  lastFocusedElement s = None ∧ tabTraps s = [] ∧
  ("open" ∉ navClassList s) ∧
  (toggleAttrs s !! "aria-expanded" ≠ Some "true") ∧
  Forall (λ it, expanded it = false) (navItems s).

Inductive reachable : state → Prop :=
| reachable_loaded s : loaded s → reachable s
| reachable_step s e : reachable s → reachable (step e s).

(** The number of menus whose open state is set: the mobile nav by its
    'open' class, a dropdown by aria-expanded='true' on its trigger. *)
Definition openDropdowns (s : state) : nat :=
  length (filter (λ it, expanded it = true) (navItems s)).

Definition mobileOpen (s : state) : nat :=
  if bool_decide ("open" ∈ navClassList s) then 1 else 0.

Definition openMenus (s : state) : nat := mobileOpen s + openDropdowns s.

(** The menus one by one: the mobile nav and the dropdown of each nav
    item, with the open state of each. *)
Inductive menu : Type :=
| MobileMenu
| Dropdown (i : nat).

Definition menuOpen (m : menu) (s : state) : bool :=
  match m with
  | MobileMenu => bool_decide ("open" ∈ navClassList s)
  | Dropdown i => from_option expanded false (navItems s !! i)
  end.

(** The three indications that the mobile nav is open. *)
Definition mobile_consistent (s : state) : Prop :=
  (isOpen s = true ↔ "open" ∈ navClassList s) ∧
  (isOpen s = true ↔ toggleAttrs s !! "aria-expanded" = Some "true").

(** A page with two dropdown items of three links each and a mobile nav
    with a close button and two links. *)
Definition closedItem : navItem :=
  {| linkAttrs := {["aria-expanded" := "false"]};
     dropdownAttrs := {["aria-hidden" := "true"]};
     dropdownLinks := 3 |}.

Definition page : state :=
  {| isOpen := false; focusableElements := None; lastFocusedElement := None;
     navClassList := {["mobile-nav"]};
     toggleAttrs := {["aria-expanded" := "false"]};
     bodyOverflow := ""; activeElement := Some Body;
     navFocusable := [NavElement 0; NavElement 1; NavElement 2];
     closeButton := true; tabTraps := [];
     navItems := [closedItem; closedItem] |}.

(** [s'] differs from [s] at most outside the mobile nav's open state. *)
Definition same_mobile (s s' : state) : Prop :=
  isOpen s' = isOpen s ∧ navClassList s' = navClassList s ∧
  toggleAttrs s' = toggleAttrs s.

(** [s'] has the dropdowns of [s]. *)
Definition same_items (s s' : state) : Prop := navItems s' = navItems s.

(** Does this event run [MobileNav.open]? *)
Definition opens (e : event) (s : state) : bool :=
  match e with
  | CallOpen => true
  | ClickToggle => negb (isOpen s)
  | _ => false
  end.


(** ArrowDown on the first trigger link, then on the second. *)
Definition two_arrows : list event :=
  [KeyDown (TriggerLink 0) ArrowDown false;
   KeyDown (TriggerLink 1) ArrowDown false].

(** Enter on the first trigger link, then Enter on the second. *)
Definition two_enters : list event :=
  [KeyDown (TriggerLink 0) Enter false; KeyDown (TriggerLink 1) Enter false].

(** *** Further notions for the properties *)

(** [s'] differs from [s] at most in the focus and in the dropdowns. *)
Definition same_nav (s s' : state) : Prop :=
  isOpen s' = isOpen s ∧
  focusableElements s' = focusableElements s ∧
  lastFocusedElement s' = lastFocusedElement s ∧
  navClassList s' = navClassList s ∧
  toggleAttrs s' = toggleAttrs s ∧
  bodyOverflow s' = bodyOverflow s ∧
  navFocusable s' = navFocusable s ∧
  closeButton s' = closeButton s ∧
  tabTraps s' = tabTraps s.

(** What one focus trap does on Tab while the nav is open, [f] and [l]
    being the first and last focusable element it has captured. *)
Definition trapped (shiftKey : bool) (f l : element) (s : state) : state :=
  if shiftKey then
    if bool_decide (activeElement s = Some f) then focus l s else s
  else
    if bool_decide (activeElement s = Some l) then focus f s else s.

(** Every focus trap holds the first and last focusable element of the
    nav, there is one when the nav is open, and the page does not scroll
    behind an open nav. *)
Definition trap_inv (s : state) : Prop :=
  Forall (λ tr, tr = (head (navFocusable s), last (navFocusable s)))
         (tabTraps s) ∧
  (isOpen s = true → tabTraps s ≠ [] ∧ bodyOverflow s = "hidden").

(** aria-hidden on a dropdown is the opposite of aria-expanded on its
    trigger link. *)
Definition mirrored (it : navItem) : Prop :=
  ∃ b, linkAttrs it !! "aria-expanded" = Some (bool_to_string b) ∧
       dropdownAttrs it !! "aria-hidden" = Some (bool_to_string (negb b)).

Definition items_mirrored (s : state) : Prop := Forall mirrored (navItems s).

(** The page with the focus on the second link of the first dropdown,
    which is open. *)
Definition in_dropdown : state :=
  run [KeyDown (TriggerLink 0) ArrowDown false;
       KeyDown (MenuLink 0 0) ArrowDown false] page.

(** *** Submenus of the mobile nav *)

(** What the click listener of a .mobile-nav-submenu-toggle finds: no
    enclosing <li>, an <li> without .mobile-nav-submenu, or the submenu
    with its inline display value. *)
Inductive submenuPlace : Type :=
| NoListItem
| NoSubmenu
| Submenu (display : string).

#[global] Instance submenuPlace_eq_dec : EqDecision submenuPlace.
Proof. solve_decision. Defined.

Record submenuToggle : Type := {
  submenuAttrs : gmap string string;
  place : submenuPlace
}.

(** The click listener installed by [initSubmenus]; [None] is the
    TypeError of [parent.querySelector] on a null parent. *)
Definition submenuClick (t : submenuToggle) : option submenuToggle :=
  match place t with
  | NoListItem => None
  | NoSubmenu => Some t
  | Submenu _ =>
      let isExpanded :=
        bool_decide (submenuAttrs t !! "aria-expanded" = Some "true") in
      Some {| submenuAttrs :=
                <["aria-expanded" := bool_to_string (negb isExpanded)]>
                  (submenuAttrs t);
              place := Submenu (if isExpanded then "none" else "block") |}
  end.

(** Is the submenu shown, by the attribute and by the style? *)
Definition submenuExpanded (t : submenuToggle) : bool :=
  bool_decide (submenuAttrs t !! "aria-expanded" = Some "true").

Definition submenuShown (t : submenuToggle) : bool :=
  bool_decide (place t = Submenu "block").

(** A collapsed submenu as the markup has it: no attribute, no inline
    style. *)
Definition fresh_submenu : submenuToggle :=
  {| submenuAttrs := ∅; place := Submenu "" |}.

End Nav.

(* ===================================================================== *)
(** ** LanguageSwitcher *)
(* ===================================================================== *)

Module LanguageSwitcher.

(** *** Exceptions *)

Inductive exn : Type := SecurityError | QuotaExceededError | TypeError.

Inductive result (A : Type) : Type :=
| Ok (a : A)
| Throw (e : exn).
Arguments Ok {A} a.
Arguments Throw {A} e.

#[global] Instance result_ret : MRet result := λ A a, Ok a.
#[global] Instance result_bind : MBind result := λ A B f m,
  match m with
  | Ok a => f a
  | Throw e => Throw e
  end.

(** try { body } catch (e) { handler e } *)
Definition try_catch {A} (body : result A) (handler : exn → result A)
  : result A :=
  match body with
  | Ok a => Ok a
  | Throw e => handler e
  end.

(** *** Strings (language tags and URL paths are ASCII) *)

Fixpoint starts_with (p s : string) : bool :=
  match p, s with
  | EmptyString, _ => true
  | String a p', String b s' => bool_decide (a = b) && starts_with p' s'
  | String _ _, EmptyString => false
  end.

(** s.includes(p) *)
Fixpoint includes (p s : string) : bool :=
  starts_with p s ||
  match s with
  | EmptyString => false
  | String _ s' => includes p s'
  end.

(** s.split('-')[0] *)
Fixpoint before_dash (s : string) : string :=
  match s with
  | EmptyString => EmptyString
  | String a s' => if bool_decide (a = "-"%char) then EmptyString
                   else String a (before_dash s')
  end.

Definition lower (a : ascii) : ascii :=
  let n := Ascii.nat_of_ascii a in
  if (65 <=? n) && (n <=? 90) then Ascii.ascii_of_nat (n + 32) else a.

Fixpoint toLowerCase (s : string) : string :=
  match s with
  | EmptyString => EmptyString
  | String a s' => String (lower a) (toLowerCase s')
  end.

(** s.substring(n) *)
Fixpoint substring_from (n : nat) (s : string) : string :=
  match n, s with
  | O, _ => s
  | S n', String _ s' => substring_from n' s'
  | S _, EmptyString => EmptyString
  end.

(** The double quote, for the one message that contains it. *)
Definition dquote : string := String (Ascii.ascii_of_nat 34) EmptyString.

(** *** Configuration *)

Record langConfig : Type := {
  code : string;
  name : string;
  nativeName : string;
  dir : string;
  enabled : bool;
  path : string
}.

Definition en : langConfig :=
  {| code := "en"; name := "English"; nativeName := "English";
     dir := "ltr"; enabled := true; path := "/en/" |}.

Definition ht : langConfig :=
  {| code := "ht"; name := "Haitian Creole"; nativeName := "Kreyòl Ayisyen";
     dir := "ltr"; enabled := false (* Phase 2 *); path := "/ht/" |}.

Definition fr : langConfig :=
  {| code := "fr"; name := "French"; nativeName := "Français";
     dir := "ltr"; enabled := false (* Phase 3 *); path := "/fr/" |}.

(** config.languages: the own properties of the object literal. *)
Definition languages : gmap string langConfig :=
  <["en" := en]> (<["ht" := ht]> (<["fr" := fr]> ∅)).

Definition defaultLanguage : string := "en".
Definition storageKey : string := "delmar-preferred-language".

(** [config.languages] is an object literal, so a lookup [languages[k]]
    that finds no own property goes on to Object.prototype. These are its
    property names; each holds a function, or (for __proto__) the
    prototype object itself: a truthy value without [enabled],
    [nativeName], [code], [dir] or [path]. *)
Definition Object_prototype : list string :=
  ["constructor"; "__defineGetter__"; "__defineSetter__"; "hasOwnProperty";
   "__lookupGetter__"; "__lookupSetter__"; "isPrototypeOf";
   "propertyIsEnumerable"; "toString"; "valueOf"; "__proto__";
   "toLocaleString"].

(** The value of [this.config.languages[k]]. *)
Inductive property : Type :=
| Own (c : langConfig)
| Inherited (k : string)
| Undefined.

Definition languages_get (k : string) : property :=
  match languages !! k with
  | Some c => Own c
  | None => if bool_decide (k ∈ Object_prototype) then Inherited k
            else Undefined
  end.

Definition truthy (p : property) : bool :=
  match p with
  | Undefined => false
  | _ => true
  end.

(** p.enabled and p?.enabled, as a condition *)
Definition get_enabled (p : property) : bool :=
  match p with
  | Own c => enabled c
  | _ => false
  end.

(** A property of a truthy [p] inside a string ([undefined] prints as
    "undefined"); reading it off [undefined] is a TypeError. *)
Definition get_text (f : langConfig → string) (p : property) : result string :=
  match p with
  | Own c => Ok (f c)
  | Inherited _ => Ok "undefined"
  | Undefined => Throw TypeError
  end.

(** *** Browser storage *)

Inductive storageMode : Type :=
| Working
| Full      (* setItem throws QuotaExceededError *)
| Denied.   (* every access throws SecurityError *)

(** [writes] is not part of the browser's storage: it records the calls
    of [setItem] that went through (key and value, oldest first), for the
    statements about what the module writes. *)
Record Storage : Type := {
  items : gmap string string;
  mode : storageMode;
  writes : list (string * string)
}.

Definition getItem (st : Storage) (k : string) : result (option string) :=
  match mode st with
  | Denied => Throw SecurityError
  | _ => Ok (items st !! k)
  end.

Definition setItem (st : Storage) (k v : string) : result Storage :=
  match mode st with
  | Working => Ok {| items := <[k := v]> (items st); mode := mode st;
                     writes := writes st ++ [(k, v)] |}
  | Full => Throw QuotaExceededError
  | Denied => Throw SecurityError
  end.

(** The storage raises no exception. *)
Definition raises_nothing (st : Storage) : Prop := mode st = Working.

(** *** The page *)

Inductive logEntry : Type :=
| Warn (msg : string)
| WarnError (msg : string) (e : exn)   (* console.warn(msg, e) *)
| Log (msg : string).

Record button : Type := {
  dataLang : option string;        (* button.dataset.lang *)
  btnClassList : gset string;
  btnAttrs : gmap string string;
  onClick : option string          (* the langCode of the click listener *)
}.

Inductive timer : Type :=
| AnimationFrame
| Timeout (ms : nat).

Record state : Type := {
  currentLanguage : string;
  pathname : string;             (* window.location.pathname *)
  navigation : option string;    (* the value last assigned to
                                    window.location.href, if any *)
  localStorage : Storage;
  browserLangs : list string;    (* navigator.languages || [...] *)
  console : list logEntry;
  buttons : list button;         (* document.querySelectorAll('.lang-btn') *)
  documentLang : option string;
  documentDir : option string;
  toasts : list string;          (* the .language-toast elements of body *)
  toastStyles : bool;            (* is there a #toast-styles element *)
  timers : list timer
}.

Definition set_currentLanguage (l : string) (s : state) : state :=
  {| currentLanguage := l; pathname := pathname s;
     navigation := navigation s; localStorage := localStorage s;
     browserLangs := browserLangs s; console := console s;
     buttons := buttons s; documentLang := documentLang s;
     documentDir := documentDir s; toasts := toasts s;
     toastStyles := toastStyles s; timers := timers s |}.

Definition set_navigation (href : string) (s : state) : state :=
  {| currentLanguage := currentLanguage s; pathname := pathname s;
     navigation := Some href; localStorage := localStorage s;
     browserLangs := browserLangs s; console := console s;
     buttons := buttons s; documentLang := documentLang s;
     documentDir := documentDir s; toasts := toasts s;
     toastStyles := toastStyles s; timers := timers s |}.

Definition set_localStorage (st : Storage) (s : state) : state :=
  {| currentLanguage := currentLanguage s; pathname := pathname s;
     navigation := navigation s; localStorage := st;
     browserLangs := browserLangs s; console := console s;
     buttons := buttons s; documentLang := documentLang s;
     documentDir := documentDir s; toasts := toasts s;
     toastStyles := toastStyles s; timers := timers s |}.

Definition console_add (e : logEntry) (s : state) : state :=
  {| currentLanguage := currentLanguage s; pathname := pathname s;
     navigation := navigation s; localStorage := localStorage s;
     browserLangs := browserLangs s; console := console s ++ [e];
     buttons := buttons s; documentLang := documentLang s;
     documentDir := documentDir s; toasts := toasts s;
     toastStyles := toastStyles s; timers := timers s |}.

Definition set_buttons (bs : list button) (s : state) : state :=
  {| currentLanguage := currentLanguage s; pathname := pathname s;
     navigation := navigation s; localStorage := localStorage s;
     browserLangs := browserLangs s; console := console s;
     buttons := bs; documentLang := documentLang s;
     documentDir := documentDir s; toasts := toasts s;
     toastStyles := toastStyles s; timers := timers s |}.

Definition set_document (lang dir : string) (s : state) : state :=
  {| currentLanguage := currentLanguage s; pathname := pathname s;
     navigation := navigation s; localStorage := localStorage s;
     browserLangs := browserLangs s; console := console s;
     buttons := buttons s; documentLang := Some lang;
     documentDir := Some dir; toasts := toasts s;
     toastStyles := toastStyles s; timers := timers s |}.

Definition add_toast (text : string) (s : state) : state :=
  {| currentLanguage := currentLanguage s; pathname := pathname s;
     navigation := navigation s; localStorage := localStorage s;
     browserLangs := browserLangs s; console := console s;
     buttons := buttons s; documentLang := documentLang s;
     documentDir := documentDir s; toasts := toasts s ++ [text];
     toastStyles := true;
     timers := timers s ++ [AnimationFrame; Timeout 3000] |}.

(** *** Patterns on the path *)

(** pathname.match(/^\/(en|ht|fr)\//): the first group, if the path
    matches. *)
Definition matchLangPrefix (p : string) : option string :=
  if starts_with "/en/" p then Some "en"
  else if starts_with "/ht/" p then Some "ht"
  else if starts_with "/fr/" p then Some "fr"
  else None.

(** The dot of a pattern matches anything but a line terminator. *)
Fixpoint dot_star (s : string) : bool :=
  match s with
  | EmptyString => true
  | String a s' =>
      negb (bool_decide (a = Ascii.ascii_of_nat 10)
            || bool_decide (a = Ascii.ascii_of_nat 13))
      && dot_star s'
  end.

(** currentPath.match(...) in [switchLanguage]: the pattern is
    ^\/(en|ht|fr) followed by an optional second group (a slash and then
    any run of characters matched by the dot) and $. The result is the
    two groups, the second being undefined when the path stops after the
    language. *)
Definition matchLangPath (p : string) : option (string * option string) :=
  let group1 := if starts_with "/en" p then Some "en"
                else if starts_with "/ht" p then Some "ht"
                else if starts_with "/fr" p then Some "fr"
                else None in
  match group1 with
  | Some l =>
      match substring_from 3 p with
      | EmptyString => Some (l, None)
      | String a tail as rest =>
          if bool_decide (a = "/"%char) && dot_star tail
          then Some (l, Some rest) else None
      end
  | None => None
  end.

(** *** Methods *)

Definition detectBrowserLanguage (s : state) : string :=
  (fix loop (langs : list string) : string :=
     match langs with
     | [] => defaultLanguage
     | lang :: rest =>
         let primaryLang := toLowerCase (before_dash lang) in
         (* Special handling for Haitian Creole *)
         if (includes "ht" (toLowerCase lang)
             || includes "haitian" (toLowerCase lang))
            && enabled ht
         then "ht"
         (* Check if we support and have enabled this language *)
         else if get_enabled (languages_get primaryLang) then primaryLang
         else loop rest
     end) (browserLangs s).

(** A string is truthy when it is not empty. *)
Definition nonempty (v : string) : bool :=
  match v with
  | EmptyString => false
  | _ => true
  end.

(** [localStorage.getItem] is called here outside any try block. *)
Definition detectCurrentLanguage (s : state) : result string :=
  (* First, check URL path *)
  let pathMatch := matchLangPrefix (pathname s) in
  match pathMatch ≫= (λ l, if truthy (languages_get l) then Some l else None)
  with
  | Some l => Ok l
  | None =>
      (* Then check stored preference *)
      stored ← getItem (localStorage s) storageKey;
      match stored with
      | Some v =>
          if nonempty v && truthy (languages_get v) then Ok v
          (* Finally, try to detect from browser *)
          else Ok (detectBrowserLanguage s)
      | None => Ok (detectBrowserLanguage s)
      end
  end.

Definition storePreference (langCode : string) (s : state) : result state :=
  try_catch
    (st ← setItem (localStorage s) storageKey langCode;
     Ok (set_localStorage st s))
    (λ e, Ok (console_add
                (WarnError "Could not store language preference:" e) s)).

Definition getStoredPreference (s : state) : result (option string * state) :=
  try_catch
    (v ← getItem (localStorage s) storageKey; Ok (v, s))
    (λ e, Ok (None,
              console_add
                (WarnError "Could not retrieve language preference:" e) s)).

(** [langConfig.name] of a truthy [langConfig], inside a template string:
    an inherited function has its own name ([Object] for the constructor),
    the prototype object behind __proto__ has none. *)
Definition name_text (p : property) : string :=
  match p with
  | Own c => name c
  | Inherited k => if bool_decide (k = "constructor") then "Object"
                   else if bool_decide (k = "__proto__") then "undefined"
                   else k
  | Undefined => "undefined"
  end.

(** [langConfig.nativeName] of a truthy [langConfig], as an attribute
    value. *)
Definition nativeName_text (p : property) : string :=
  match p with
  | Own c => nativeName c
  | _ => "undefined"
  end.

(** What [setupButtons] does to one button. *)
Definition setupButton (current : string) (b : button) : button :=
  match dataLang b with
  | None => b
  | Some langCode =>
      if negb (nonempty langCode) then b
      else
        let langConfig := languages_get langCode in
        (* Update button state *)
        let b :=
          if truthy langConfig then
            (* Mark active language *)
            let '(cl, attrs) :=
              if bool_decide (langCode = current)
              then (btnClassList b ∪ {["active"]},
                    <["aria-current" := "true"]> (btnAttrs b))
              else (btnClassList b ∖ {["active"]},
                    delete "aria-current" (btnAttrs b)) in
            (* Handle disabled languages *)
            let '(cl, attrs) :=
              if negb (get_enabled langConfig)
              then (cl ∪ {["disabled"]},
                    <["title" := name_text langConfig +:+ " - Coming Soon"]>
                      (<["aria-disabled" := "true"]> attrs))
              else (cl ∖ {["disabled"]},
                    <["title" := nativeName_text langConfig]>
                      (delete "aria-disabled" attrs)) in
            {| dataLang := dataLang b; btnClassList := cl; btnAttrs := attrs;
               onClick := onClick b |}
          else b in
        (* Add click handler *)
        {| dataLang := dataLang b; btnClassList := btnClassList b;
           btnAttrs := btnAttrs b; onClick := Some langCode |}
  end.

Definition setupButtons (s : state) : state :=
  set_buttons (setupButton (currentLanguage s) <$> buttons s) s.

Definition updateDocumentLanguage (s : state) : state :=
  match languages_get (currentLanguage s) with
  | Own c => set_document (code c) (dir c) s
  | Inherited _ => set_document "undefined" "undefined" s
  | Undefined => s
  end.

Definition init (s : state) : result state :=
  (* Get stored preference or detect from URL/browser *)
  lang ← detectCurrentLanguage s;
  let s := set_currentLanguage lang s in
  (* Set up language switcher buttons *)
  let s := setupButtons s in
  (* Store the current language preference *)
  s ← storePreference (currentLanguage s) s;
  (* Set document language attribute *)
  let s := updateDocumentLanguage s in
  Ok (console_add
        (Log ("Language Switcher initialized. Current language: "
              +:+ currentLanguage s)) s).

(** The toast shows the native name; its removal is left to the timers. *)
Definition showComingSoonMessage (langConfig : property) (s : state)
  : result state :=
  text ← get_text nativeName langConfig;
  Ok (add_toast text s).

(** How a call of [switchLanguage] ends. The method changes the page
    (the storage, the console) before the point where it can throw, so a
    throw is kept together with the page as it is at that point. *)
Inductive completion : Type :=
| Normal (s : state)
| Abrupt (e : exn) (s : state).

Definition switchLanguage (langCode : string) (s : state) : completion :=
  let langConfig := languages_get langCode in
  (* Store preference *)
  match storePreference langCode s with
  | Throw e => Abrupt e s
  | Ok s =>
      (* Navigate to the language-specific page *)
      let currentPath := pathname s in
      let currentLangMatch := matchLangPath currentPath in
      let newPath :=
        match currentLangMatch with
        | Some (_, group2) =>
            (* Replace current language prefix with new one *)
            let pagePath := default "/" group2 in
            p ← get_text path langConfig;
            Ok (p +:+ substring_from 1 pagePath)
        | None =>
            (* No language prefix, just go to the language root *)
            get_text path langConfig
        end in
      match newPath with
      | Throw e => Abrupt e s
      | Ok newPath =>
          (* Navigate to new language version *)
          Normal (set_navigation newPath s)
      end
  end.

(** The completion as a result: the page at a throw is dropped. *)
Definition completed (c : completion) : result state :=
  match c with
  | Normal s => Ok s
  | Abrupt e _ => Throw e
  end.

Definition handleLanguageChange (langCode : string) (s : state)
  : result state :=
  let langConfig := languages_get langCode in
  (* Check if language exists and is enabled *)
  if negb (truthy langConfig) then
    Ok (console_add
          (Warn ("Language " +:+ dquote +:+ langCode +:+ dquote
                 +:+ " not found")) s)
  else if negb (get_enabled langConfig) then
    (* Show coming soon message for disabled languages *)
    showComingSoonMessage langConfig s
  (* Don't do anything if already on this language *)
  else if bool_decide (langCode = currentLanguage s) then Ok s
  (* Switch language *)
  else completed (switchLanguage langCode s).

(** A click on a language button: the listener added by [setupButtons]
    prevents the default action and hands the button's code over. *)
Definition click (b : button) (s : state) : result state :=
  match onClick b with
  | Some langCode => handleLanguageChange langCode s
  | None => Ok s
  end.

(** Is there a configuration of this code, and is it switched off? *)
Definition disabled_language (langCode : string) : Prop :=
  ∃ c, languages !! langCode = Some c ∧ enabled c = false.

(** [s'] is [s] but for what the console shows. *)
Definition same_but_console (s s' : state) : Prop :=
  currentLanguage s' = currentLanguage s ∧ pathname s' = pathname s ∧
  navigation s' = navigation s ∧ localStorage s' = localStorage s ∧
  browserLangs s' = browserLangs s ∧ buttons s' = buttons s ∧
  documentLang s' = documentLang s ∧ documentDir s' = documentDir s ∧
  toasts s' = toasts s ∧ toastStyles s' = toastStyles s ∧
  timers s' = timers s.

(** The three known constants. *)
Definition known (langCode : string) : Prop :=
  langCode = "en" ∨ langCode = "ht" ∨ langCode = "fr".

(** The value under the module's key, when the storage can be read. *)
Definition stored (s : state) : option string :=
  items (localStorage s) !! storageKey.

(** A first visit with working storage: the page at [pathname], nothing
    stored but what [st] holds, an English browser. *)
Definition visit (pathname : string) (st : Storage) : state :=
  {| currentLanguage := "en"; pathname := pathname; navigation := None;
     localStorage := st; browserLangs := ["en-US"; "en"]; console := [];
     buttons := []; documentLang := None; documentDir := None;
     toasts := []; toastStyles := false; timers := [] |}.

Definition empty_storage : Storage :=
  {| items := ∅; mode := Working; writes := [] |}.

(** A browser that denies every access to the storage. *)
Definition denied_storage : Storage :=
  {| items := {[storageKey := "fr"]}; mode := Denied; writes := [] |}.

(** A visitor whose storage holds, under the module's key, the string
    'constructor' (left there by another script of the origin, by an
    earlier version of the site, or typed into the developer tools). *)
Definition planted_storage : Storage :=
  {| items := {[storageKey := "constructor"]}; mode := Working;
     writes := [] |}.

(** *** Further notions for the properties *)

(** [isLanguageEnabled] *)
Definition isLanguageEnabled (langCode : string) : bool :=
  get_enabled (languages_get langCode).

(** The page of language [l] that corresponds to [rest]. *)
Definition language_page (l rest : string) : string :=
  "/" +:+ l +:+ "/" +:+ rest.

(** What the module has written since [s]. *)
Definition written_since (s s' : state) (new : list (string * string)) : Prop :=
  writes (localStorage s') = writes (localStorage s) ++ new.

(** A French visitor on the English page about the church, and a visitor
    who once chose French on the front page. *)
Definition french_browser : state :=
  {| currentLanguage := "en"; pathname := "/en/about.html";
     navigation := None; localStorage := empty_storage;
     browserLangs := ["fr-FR"; "fr"; "ht"]; console := [];
     buttons := []; documentLang := None; documentDir := None;
     toasts := []; toastStyles := false; timers := [] |}.

Definition french_storage : Storage :=
  {| items := {[storageKey := "fr"]}; mode := Working; writes := [] |}.

(** The three language buttons as the markup has them. *)
Definition lang_button (l : string) : button :=
  {| dataLang := Some l; btnClassList := {["lang-btn"]};
     btnAttrs := ∅; onClick := None |}.

End LanguageSwitcher.

(* ===================================================================== *)
(** ** Configuration and utility functions *)
(* ===================================================================== *)

Module Utilities.

(** CONFIG *)
Definition breakpoints_mobile : Z := 640.
Definition breakpoints_tablet : Z := 768.
Definition breakpoints_desktop : Z := 1024.
Definition breakpoints_wide : Z := 1280.
Definition animationDuration : nat := 300.
Definition scrollOffset : Z := 80.
Definition debounceDelay : Z := 150.

(** [getCurrentBreakpoint], with [width] the value of window.innerWidth
    (an integer number of pixels). *)
Definition getCurrentBreakpoint (width : Z) : string :=
  if (width <? breakpoints_mobile)%Z then "xs"
  else if (width <? breakpoints_tablet)%Z then "mobile"
  else if (width <? breakpoints_desktop)%Z then "tablet"
  else if (width <? breakpoints_wide)%Z then "desktop"
  else "wide".

(** The breakpoint names from narrow to wide. *)
Definition breakpoint_rank (name : string) : nat :=
  if bool_decide (name = "xs") then 0
  else if bool_decide (name = "mobile") then 1
  else if bool_decide (name = "tablet") then 2
  else if bool_decide (name = "desktop") then 3
  else 4.

(** *** Numbers *)

(** A number is an IEEE 754 double. The finite doubles are rationals: the
    whole multiples of 2^-1074 that have at most 53 significant bits.
    Comparison and negation are exact; a sum is the exact sum rounded to
    the nearest double, a tie going to the double with an even last
    bit. *)

(** n / d (d positive) rounded to the nearest integer, a tie going to
    the even one. *)
Definition round_half_even (n d : Z) : Z :=
  let f := (n / d)%Z in
  match (2 * (n mod d) ?= d)%Z with
  | Lt => f
  | Gt => (f + 1)%Z
  | Eq => if Z.even f then f else (f + 1)%Z
  end.

(** 2^1074: the smallest positive double is one part in this many. *)
Definition smallest_unit : positive := (2 ^ 1074)%positive.

(** The double nearest to n / d (n not negative), counted in units of
    2^-1074. Near a value of y units the doubles are 2^e units apart,
    with e = max 0 (floor (log2 y) - 52). *)
Definition round_magnitude (n : Z) (d : positive) : Z :=
  let y := (n * Zpos smallest_unit)%Z in
  let e := Z.max 0 (Z.log2 (y / Zpos d) - 52) in
  (round_half_even y (Zpos d * 2 ^ e) * 2 ^ e)%Z.

Definition round_double (x : Q) : Q :=
  match Qnum x with
  | Z0 => 0
  | Zpos n => round_magnitude (Zpos n) (Qden x) # smallest_unit
  | Zneg n => - (round_magnitude (Zpos n) (Qden x) # smallest_unit)
  end.

(** a + b on finite numbers. Where the sum lies beyond the largest
    double, JavaScript gives Infinity and [round_double] a number beyond
    every double, which compares with the finite numbers in the same
    way. *)
Definition add (a b : Q) : Q := round_double (a + b).

(** a >= b and a <= b on numbers *)
Definition ge (a b : Q) : bool := Qle_bool b a.
Definition le (a b : Q) : bool := Qle_bool a b.

(** *** isInViewport *)

(** element.getBoundingClientRect() *)
Record rect : Type := {
  top : Q;
  left : Q;
  bottom : Q;
  right : Q
}.

(** The sizes of the window and of the document element, whole numbers
    of pixels. *)
Record viewport : Type := {
  innerHeight : Z;
  innerWidth : Z;
  clientHeight : Z;
  clientWidth : Z
}.

(** a || b on whole numbers: b when a is 0 *)
Definition or_number (a b : Z) : Z := if (a =? 0)%Z then b else a.

(** [offset] is a finite number. *)
Definition isInViewport (v : viewport) (r : rect) (offset : Q) : bool :=
  ge (top r) (- offset)
  && ge (left r) 0
  && le (bottom r)
        (add (inject_Z (or_number (innerHeight v) (clientHeight v))) offset)
  && le (right r) (inject_Z (or_number (innerWidth v) (clientWidth v))).

(** *** debounce *)

(** [setTimeout] takes its delay as a 32-bit signed integer: a number
    outside that range wraps around, and a negative delay counts as 0.
    [wait] is a whole number of milliseconds. *)
Definition toInt32 (n : Z) : Z := ((n + 2 ^ 31) mod 2 ^ 32 - 2 ^ 31)%Z.

Definition timerDelay (wait : Z) : Z := Z.max 0 (toInt32 wait).

(** The closure made by [debounce(func, wait)], with time made explicit
    (in milliseconds): [timeout] is the pending timer, given by the time
    from which the browser may run it and the arguments its callback
    [later] has captured; [calls] lists the calls of [func] so far, each
    with the time at which it was made and its arguments. *)
Record debounced (A : Type) : Type := {
  wait : Z;
  timeout : option (Z * A);
  calls : list (Z * A)
}.
Arguments wait {A} d.
Arguments timeout {A} d.
Arguments calls {A} d.

(** debounce(func, wait); without [wait] the caller gets
    [debounce debounceDelay]. *)
Definition debounce {A} (wait : Z) : debounced A :=
  {| wait := wait; timeout := None; calls := [] |}.

(** The debounced function is called at [now] with [args]: the pending
    timer is cleared and a new one is set. *)
Definition executedFunction {A} (now : Z) (args : A) (d : debounced A)
  : debounced A :=
  {| wait := wait d;
     timeout := Some ((now + timerDelay (wait d))%Z, args);
     calls := calls d |}.

(** The callback of the timer, run at [now]: clearing its own timer has
    no effect, then [func] is called with the captured arguments. *)
Definition later {A} (args : A) (now : Z) (d : debounced A) : debounced A :=
  {| wait := wait d; timeout := None; calls := calls d ++ [(now, args)] |}.

(** What happens around the closure: a call of the debounced function
    (by an event listener, so that the minimum delay of nested timers
    does not come in), or the event loop turning to the timers. When it
    does so is up to the browser; it runs the callback of a timer only
    once, and not before its delay has passed. *)
Inductive task (A : Type) : Type :=
| Call (now : Z) (args : A)
| Timer (now : Z).
Arguments Call {A} now args.
Arguments Timer {A} now.

Definition runTask {A} (x : task A) (d : debounced A) : debounced A :=
  match x with
  | Call now args => executedFunction now args d
  | Timer now =>
      match timeout d with
      | Some (due, args) => if (due <=? now)%Z then later args now d else d
      | None => d
      end
  end.

Definition runTasks {A} (ts : list (task A)) (d : debounced A)
  : debounced A :=
  foldl (λ d x, runTask x d) d ts.

Definition time_of {A} (x : task A) : Z :=
  match x with
  | Call now _ => now
  | Timer now => now
  end.

Definition isCall {A} (x : task A) : bool :=
  match x with
  | Call _ _ => true
  | Timer _ => false
  end.

(** The tasks come in order of time, none before [t0]. *)
Fixpoint chronological {A} (t0 : Z) (ts : list (task A)) : Prop :=
  match ts with
  | [] => True
  | x :: rest => (t0 ≤ time_of x)%Z ∧ chronological (time_of x) rest
  end.

(** Each call comes less than [delay] after the call before it, [last]
    being the time of the latest call so far. *)
Fixpoint dense {A} (delay : Z) (last : option Z) (ts : list (task A))
  : Prop :=
  match ts with
  | [] => True
  | Call t _ :: rest =>
      (∀ t0, last = Some t0 → (t < t0 + delay)%Z) ∧ dense delay (Some t) rest
  | Timer _ :: rest => dense delay last rest
  end.

(** The time of the first of the tasks that comes at [due] or later. *)
Definition first_due {A} (due : Z) (ts : list (task A)) : option Z :=
  time_of <$> head (filter (λ x, (due ≤ time_of x)%Z) ts).

(** The start of a burst of resize events: the debounced listener is
    called twice, and the event loop looks at the timers after each
    call. *)
Definition resizing : list (task string) :=
  [Call 0 "a"; Timer 60; Call 100 "b"; Timer 239].

(** A window of 1280 by 720 pixels and a box well inside it. *)
Definition desktop_window : viewport :=
  {| innerHeight := 720; innerWidth := 1280;
     clientHeight := 720; clientWidth := 1265 |}.

Definition box : rect :=
  {| top := -40; left := 100; bottom := 200; right := 500 |}.

(** The doubles that 0.1 and 720.1 stand for, and a box that ends at
    the second. *)
Definition tenth : Q := 3602879701896397 # 36028797018963968.
Definition seven_twenty_and_a_tenth : Q := 6334066585291981 # 8796093022208.

Definition box_at_edge : rect :=
  {| top := 0; left := 100; bottom := seven_twenty_and_a_tenth;
     right := 500 |}.

End Utilities.

(* ===================================================================== *)
(** * Properties *)
(* ===================================================================== *)

Module RegexFacts.
Import Regex.
Section WithChar.
Context {A : Type}.
Implicit Types (r : regex A) (s : list A) (p : A → bool).

Lemma nullable_lang r : nullable r = true ↔ lang r [].
Proof.
  induction r as [| |p|r1 IH1 r2 IH2|r1 IH1 r2 IH2|r IH]; simpl.
  - split; [done | inversion 1].
  - split; [constructor | done].
  - split; [done | inversion 1].
  - rewrite andb_true_iff, IH1, IH2. split.
    + intros [H1 H2]. exact (lang_cat _ _ [] [] H1 H2).
    + inversion 1 as [| |? ? s1 s2 H1 H2 E1 E2| | | |]; subst.
      apply app_eq_nil in E2 as [-> ->]. done.
  - rewrite orb_true_iff, IH1, IH2. split.
    + intros [H|H]; [by apply lang_alt_l | by apply lang_alt_r].
    + inversion 1; subst; auto.
  - split; [constructor | done].
Qed.

Lemma lang_star_cons_inv r c s :
  lang (Star r) (c :: s) →
  ∃ s1 s2, s = s1 ++ s2 ∧ lang r (c :: s1) ∧ lang (Star r) s2.
Proof.
  intros H. remember (Star r) as r' eqn:Er. remember (c :: s) as w eqn:Ew.
  revert Er c s Ew.
  induction H as [| | | | | |r0 s1 s2 H1 _ H2 IH2]; intros Er a w Ew;
    try discriminate.
  injection Er as ->. destruct s1 as [|c1 s1]; simpl in Ew.
  - by apply IH2.
  - injection Ew as -> <-. eauto.
Qed.

Lemma deriv_lang c r s : lang (deriv c r) s ↔ lang r (c :: s).
Proof.
  revert s.
  induction r as [| |p|r1 IH1 r2 IH2|r1 IH1 r2 IH2|r IH]; intros s; simpl.
  - split; inversion 1.
  - split; inversion 1.
  - destruct (p c) eqn:Hp; split.
    + inversion 1; subst. by constructor.
    + inversion 1; subst. constructor.
    + inversion 1.
    + inversion 1; subst. congruence.
  - assert (Hcat : lang (Cat (deriv c r1) r2) s → lang (Cat r1 r2) (c :: s)).
    { inversion 1 as [| |? ? s1 s2 H1 H2| | | |]; subst.
      apply IH1 in H1. exact (lang_cat _ _ (c :: s1) s2 H1 H2). }
    assert (Hinv : lang (Cat r1 r2) (c :: s) →
                   lang (Cat (deriv c r1) r2) s ∨
                   (lang r1 [] ∧ lang r2 (c :: s))).
    { inversion 1 as [| |? ? s1 s2 H1 H2 E1 E2| | | |]; subst.
      destruct s1 as [|c1 s1]; simpl in E2.
      - right. by subst.
      - injection E2 as -> <-. left. constructor; [by apply IH1 | done]. }
    destruct (nullable r1) eqn:Hn; split.
    + inversion 1; subst; [by apply Hcat |].
      apply nullable_lang in Hn.
      match goal with H : lang (deriv c r2) _ |- _ => apply IH2 in H;
        exact (lang_cat _ _ [] _ Hn H) end.
    + intros H. apply Hinv in H as [H|[_ H]].
      * by apply lang_alt_l.
      * apply lang_alt_r. by apply IH2.
    + apply Hcat.
    + intros H. apply Hinv in H as [H|[H _]]; [done |].
      apply nullable_lang in H. congruence.
  - split.
    + inversion 1; subst; [apply lang_alt_l; by apply IH1
                          | apply lang_alt_r; by apply IH2].
    + inversion 1; subst; [apply lang_alt_l; by apply IH1
                          | apply lang_alt_r; by apply IH2].
  - split.
    + inversion 1 as [| |? ? s1 s2 H1 H2| | | |]; subst.
      apply IH in H1. exact (lang_star_app _ (c :: s1) s2 H1 H2).
    + intros H. apply lang_star_cons_inv in H as (s1 & s2 & -> & H1 & H2).
      constructor; [by apply IH | done].
Qed.

(** The matcher decides the language. *)
Lemma test_lang r s : test r s = true ↔ lang r s.
Proof.
  revert r. induction s as [|c s IH]; intros r; simpl.
  - apply nullable_lang.
  - rewrite IH. apply deriv_lang.
Qed.

(** *** Shapes of the patterns the scripts use *)

Lemma lang_class_iff p s : lang (Class p) s ↔ ∃ c, s = [c] ∧ p c = true.
Proof.
  split.
  - inversion 1; subst. eauto.
  - intros (c & -> & Hc). by constructor.
Qed.

Lemma lang_cat_iff r1 r2 s :
  lang (Cat r1 r2) s ↔ ∃ s1 s2, s = s1 ++ s2 ∧ lang r1 s1 ∧ lang r2 s2.
Proof.
  split.
  - inversion 1; subst. eauto.
  - intros (s1 & s2 & -> & H1 & H2). by constructor.
Qed.

Lemma lang_star_class p s :
  lang (Star (Class p)) s ↔ Forall (λ c, p c = true) s.
Proof.
  split.
  - intros H. remember (Star (Class p)) as r eqn:Er.
    induction H as [| | | | | |r0 s1 s2 H1 _ H2 IH2]; try discriminate.
    + constructor.
    + injection Er as ->. apply lang_class_iff in H1 as (c & -> & Hc).
      constructor; [done | by apply IH2].
  - induction 1 as [|c s Hc _ IH]; [constructor |].
    apply (lang_star_app _ [c] s); [by constructor | done].
Qed.

Lemma lang_plus_class p s :
  lang (Plus (Class p)) s ↔ s ≠ [] ∧ Forall (λ c, p c = true) s.
Proof.
  unfold Plus. rewrite lang_cat_iff. split.
  - intros (s1 & s2 & -> & H1 & H2).
    apply lang_class_iff in H1 as (c & -> & Hc).
    apply lang_star_class in H2. split; [done | by constructor].
  - intros [Hne H]. destruct H as [|c s Hc H]; [done |].
    exists [c], s. split; [done |]. split; [by constructor |].
    by apply lang_star_class.
Qed.

Lemma lang_atleast_class n p s :
  lang (AtLeast n (Class p)) s ↔
  n ≤ length s ∧ Forall (λ c, p c = true) s.
Proof.
  revert s. induction n as [|n IH]; intros s; simpl.
  - rewrite lang_star_class. split; [intros; split; [lia | done] | by intros []].
  - rewrite lang_cat_iff. split.
    + intros (s1 & s2 & -> & H1 & H2).
      apply lang_class_iff in H1 as (c & -> & Hc).
      apply IH in H2 as [Hl H2]. simpl. split; [lia | by constructor].
    + intros [Hl H]. destruct H as [|c s Hc H]; simpl in Hl; [lia |].
      exists [c], s. split; [done |]. split; [by constructor |].
      apply IH. split; [lia | done].
Qed.
End WithChar.
End RegexFacts.

(* ===================================================================== *)
(** ** FormHelpers.validateField *)
(* ===================================================================== *)

Module FormHelpersSpec.
Import Regex RegexFacts JsString FormHelpers.

Lemma not_space_at_plain c : not_space_at c = true ↔ plain c.
Proof.
  unfold not_space_at, plain.
  rewrite negb_true_iff, orb_false_iff, N.eqb_neq. done.
Qed.

Lemma Forall_not_space_at s :
  Forall (λ c, not_space_at c = true) s ↔ Forall plain s.
Proof. apply Forall_proper; [intros c; apply not_space_at_plain | done]. Qed.

Lemma phone_char_spec c :
  phone_char c = true ↔
  is_digit c = true ∨ is_whitespace c = true ∨ phone_symbol c.
Proof.
  unfold phone_char, phone_symbol.
  rewrite !orb_true_iff, !N.eqb_eq. tauto.
Qed.

(** The e-mail pattern accepts exactly the strings of shape l@d.t. *)
Lemma emailRegex_shape v : test emailRegex v = true ↔ email_shape v.
Proof.
  rewrite test_lang. unfold emailRegex, email_shape. split.
  - intros H.
    apply lang_cat_iff in H as (l & s1 & -> & Hl & H).
    apply lang_cat_iff in H as (a & s2 & -> & Ha & H).
    apply lang_cat_iff in H as (d & s3 & -> & Hd & H).
    apply lang_cat_iff in H as (o & t & -> & Ho & Ht).
    apply lang_plus_class in Hl as [Nl Hl].
    apply lang_plus_class in Hd as [Nd Hd].
    apply lang_plus_class in Ht as [Nt Ht].
    apply lang_class_iff in Ha as (ca & -> & Hca).
    apply lang_class_iff in Ho as (co & -> & Hco).
    apply N.eqb_eq in Hca, Hco. subst ca co.
    exists l, d, t. rewrite <- !Forall_not_space_at. done.
  - intros (l & d & t & -> & ? & ? & ? & Hl & Hd & Ht).
    rewrite <- Forall_not_space_at in Hl, Hd, Ht.
    apply lang_cat; [by apply lang_plus_class |].
    apply lang_cat; [by apply lang_class |].
    apply lang_cat; [by apply lang_plus_class |].
    apply lang_cat; [by apply lang_class | by apply lang_plus_class].
Qed.

Lemma plain_no_at (l : list N) :
  Forall plain l → filter (λ c, c = 64%N) l = [].
Proof.
  induction 1 as [|c l [_ Hc] _ IH]; [done |].
  rewrite filter_cons. by case_decide.
Qed.

(** An accepted address has exactly one '@', a '.' after it and no white
    space. *)
Lemma email_shape_parts (v : list N) :
  email_shape v →
  length (filter (λ c, c = 64%N) v) = 1 ∧
  46%N ∈ v ∧
  Forall (λ c, is_whitespace c = false) v.
Proof.
  intros (l & d & t & -> & _ & _ & _ & Hl & Hd & Ht).
  split; [| split].
  - rewrite !filter_app.
    rewrite (plain_no_at l), (plain_no_at d), (plain_no_at t) by done.
    reflexivity.
  - rewrite !elem_of_app, !list_elem_of_singleton. auto.
  - rewrite !Forall_app, !Forall_singleton.
    repeat split; try reflexivity;
      (eapply Forall_impl; [eassumption | by intros c []]).
Qed.

(** The phone pattern accepts exactly ten or more phone characters. *)
Lemma phoneRegex_shape v : test phoneRegex v = true ↔ tel_shape v.
Proof.
  rewrite test_lang. unfold phoneRegex, tel_shape.
  rewrite lang_atleast_class.
  apply and_iff_compat_l, Forall_proper; [intros c; apply phone_char_spec | done].
Qed.

Lemma truthy_nonempty v : truthy v = true ↔ v ≠ [].
Proof. destruct v; simpl; split; congruence. Qed.

Example emailRegex_examples :
  (λ v, test emailRegex (lit v)) <$>
    ["a@b.c"; "first.last@example.org"; "a@b..c";
     "a@b"; "a@@b.c"; "a b@c.d"; "@b.c"; "a@.c"; "a@b."]
  = [true; true; true; false; false; false; false; false; false].
Proof. by vm_compute. Qed.

Example phoneRegex_examples :
  (λ v, test phoneRegex (lit v)) <$>
    ["555-123-4567"; "(302) 555 1234"; "+1 302 555 1234"; "1234567890";
     "123456789"; "555-123-456x"; "12345"]
  = [true; true; true; true; false; false; false].
Proof. by vm_compute. Qed.

(** What [validateField] computes for a non-empty e-mail field. *)
Lemma validateField_email f :
  type f = "email" → trim (value f) ≠ [] →
  validateField f =
    (test emailRegex (trim (value f)),
     setFieldState f (test emailRegex (trim (value f)))
       (if test emailRegex (trim (value f)) then ""
        else "Please enter a valid email address")).
Proof.
  intros Hty Hne. apply truthy_nonempty in Hne. unfold validateField.
  rewrite Hty, Hne, andb_false_r. simpl.
  destruct (test emailRegex _); reflexivity.
Qed.

(** What [validateField] computes for a non-empty phone field. *)
Lemma validateField_tel f :
  type f = "tel" → trim (value f) ≠ [] →
  validateField f =
    (test phoneRegex (trim (value f)),
     setFieldState f (test phoneRegex (trim (value f)))
       (if test phoneRegex (trim (value f)) then ""
        else "Please enter a valid phone number")).
Proof.
  intros Hty Hne. apply truthy_nonempty in Hne. unfold validateField.
  rewrite Hty, Hne, andb_false_r. simpl.
  destruct (test phoneRegex _); reflexivity.
Qed.

Lemma setFieldState_valid f msg : marked_valid (setFieldState f true msg).
Proof.
  unfold marked_valid, setFieldState; simpl.
  rewrite !elem_of_union, !elem_of_difference, !elem_of_singleton.
  split; [by right | intros [[_ H]|H]; [by apply H | discriminate]].
Qed.

Lemma setFieldState_invalid f msg :
  marked_invalid (setFieldState f false msg) ∧
  errorElement (setFieldState f false msg) = (λ _, msg) <$> errorElement f.
Proof.
  unfold marked_invalid, setFieldState; simpl.
  rewrite !elem_of_union, !elem_of_difference, !elem_of_singleton.
  repeat split; [by right |].
  intros [[_ H]|H]; [by apply H | discriminate].
Qed.

(** C1, as stated, fails: read with "spaces" as the character U+0020, the
    phone rule would reject a number containing a TAB, yet [validateField]
    accepts it, because the pattern's class is \s (every white-space
    character), not the space alone. *)
Lemma validateField_tel_accepts_tab :
  type phone_with_tab = "tel" ∧ trim (value phone_with_tab) ≠ [] ∧
  (validateField phone_with_tab).1 = true ∧
  ¬ tel_shape_spaces_only (trim (value phone_with_tab)).
Proof.
  split; [reflexivity |]. split; [by vm_compute |].
  split; [by vm_compute |].
  intros [_ H]. rewrite Forall_forall in H.
  assert (Htab : 9%N ∈ trim (value phone_with_tab)).
  { vm_compute. do 5 apply list_elem_of_further. apply list_elem_of_here. }
  destruct (H _ Htab) as [Hd|[Hs|Hp]]; [by vm_compute in Hd | done |].
  unfold phone_symbol in Hp. lia.
Qed.

(** C1 (amended). For a field of type 'email' or 'tel' whose trimmed value
    is not empty, [validateField] returns true, and marks the field valid,
    exactly when the trimmed value matches the pattern of its type:
    l@d.t with non-empty parts free of white space and '@' for an e-mail
    address; at least ten characters, each a digit, a white-space
    character (the whole class \s, not only the space) or one of - + ( )
    for a phone number. Otherwise it returns false, marks the field
    invalid and writes the message of the type into the field's
    .form-error element, when the field has one. *)
Theorem validateField_format_check f :
  trim (value f) ≠ [] → type f = "email" ∨ type f = "tel" →
  ((validateField f).1 = true ↔ accepted (type f) (trim (value f))) ∧
  (marked_valid (validateField f).2 ↔ accepted (type f) (trim (value f))) ∧
  (¬ accepted (type f) (trim (value f)) →
     (validateField f).1 = false ∧
     marked_invalid (validateField f).2 ∧
     errorElement (validateField f).2
       = (λ _, format_message (type f)) <$> errorElement f).
Proof.
  intros Hne Hty.
  assert (Hshape : ∃ b msg,
             validateField f = (b, setFieldState f b (if b then "" else msg))
             ∧ msg = format_message (type f)
             ∧ (b = true ↔ accepted (type f) (trim (value f)))).
  { destruct Hty as [Hty|Hty].
    - eexists _, _. split; [by apply validateField_email |].
      split; [by rewrite Hty |].
      rewrite emailRegex_shape. unfold accepted. rewrite Hty.
      split; [by left | by intros [[_ ?]|[? _]]].
    - eexists _, _. split; [by apply validateField_tel |].
      split; [by rewrite Hty |].
      rewrite phoneRegex_shape. unfold accepted. rewrite Hty.
      split; [by right | by intros [[? _]|[_ ?]]]. }
  destruct Hshape as (b & msg & -> & -> & Hb). simpl.
  destruct b.
  - split; [done |]. split.
    + split; [intros _; by apply Hb | intros _; apply setFieldState_valid].
    + intros Hn. destruct Hn. by apply Hb.
  - pose proof (setFieldState_invalid f (format_message (type f))) as [Hi He].
    split; [done |]. split; [| done].
    split; [| intros Ha; apply Hb in Ha; discriminate].
    intros [Hv _]. exfalso. exact (proj2 Hi Hv).
Qed.

Lemma validateField_format_check_witness :
  (validateField email_field).1 = true ∧
  marked_valid (validateField email_field).2.
Proof.
  destruct (validateField_format_check email_field) as (H1 & H2 & _).
  - by vm_compute.
  - left; reflexivity.
  - assert (Ha : accepted (type email_field) (trim (value email_field))).
    { apply H1. by vm_compute. }
    split; [by apply H1 | by apply H2].
Defined.

End FormHelpersSpec.

(* ===================================================================== *)
(** ** Scroll thresholds *)
(* ===================================================================== *)

Module ScrollSpec.
Import Scroll.

Lemma gt_spec a b : gt a b = true ↔ (b < a)%Q.
Proof.
  unfold gt. rewrite negb_true_iff. split.
  - intros H. apply Qnot_le_lt. intros Hle.
    apply Qle_bool_iff in Hle. congruence.
  - intros H. destruct (Qle_bool a b) eqn:E; [| done].
    apply Qle_bool_iff in E. exfalso. exact (Qlt_not_le _ _ H E).
Qed.

Lemma class_after_threshold c (cond : bool) (cl : gset string) :
  c ∈ (if cond then classList_add c cl else classList_remove c cl)
  ↔ cond = true.
Proof.
  unfold classList_add, classList_remove. destruct cond.
  - rewrite elem_of_union, elem_of_singleton. split; [done | by right].
  - rewrite elem_of_difference, elem_of_singleton. split; [by intros [] | done].
Qed.

(** C4, as stated, fails: scrolling down from the top to 300px (past
    200px) leaves the header as it was, neither hidden nor moved. *)
Lemma handleScroll_does_not_hide :
  (lastScrollY header_at_load < 300)%Q ∧ (200 < 300)%Q ∧
  isHidden (handleScroll 300 header_at_load) = false ∧
  headerTransform (handleScroll 300 header_at_load) = "".
Proof. repeat split. Qed.

(** C4 (amended). After [handleScroll] the header has the class
    'scrolled' exactly when window.scrollY > 10, and nothing else of the
    header changes: it is never hidden or shown again (isHidden, the
    transform and lastScrollY keep their values; 200px plays no part).
    After [toggleVisibility] the back-to-top button has the class
    'visible' exactly when window.scrollY > 500. *)
Theorem scroll_thresholds (scrollY : Q) (h : StickyHeader) (b : BackToTop) :
  ("scrolled" ∈ header (handleScroll scrollY h) ↔ (10 < scrollY)%Q) ∧
  isHidden (handleScroll scrollY h) = isHidden h ∧
  headerTransform (handleScroll scrollY h) = headerTransform h ∧
  lastScrollY (handleScroll scrollY h) = lastScrollY h ∧
  ("visible" ∈ button (toggleVisibility scrollY b) ↔ (500 < scrollY)%Q).
Proof.
  unfold handleScroll, toggleVisibility; simpl.
  rewrite !class_after_threshold, !gt_spec. done.
Qed.

End ScrollSpec.

(* ===================================================================== *)
(** ** MobileNav and DesktopNav *)
(* ===================================================================== *)

Module NavSpec.
Import Nav.

Lemma same_mobile_refl s : same_mobile s s.
Proof. by repeat split. Qed.

Lemma same_mobile_trans s1 s2 s3 :
  same_mobile s1 s2 → same_mobile s2 s3 → same_mobile s1 s3.
Proof. unfold same_mobile. intros (?&?&?) (?&?&?). repeat split; congruence. Qed.

Lemma same_items_trans s1 s2 s3 :
  same_items s1 s2 → same_items s2 s3 → same_items s1 s3.
Proof. unfold same_items. congruence. Qed.

Create HintDb nav discriminated.
#[local] Hint Resolve same_mobile_refl : nav.
#[local] Hint Extern 1 (same_items ?s ?s) => reflexivity : nav.

(** Run a chain of setters on a state given by its fields. The setters
    are evaluated innermost first, so that the record stays small. *)
Ltac run_setters :=
  cbv [open close toggle trapFocus focus focusable set_activeElement
       set_isOpen set_focusableElements
       set_lastFocusedElement set_navClassList set_toggleAttrs
       set_bodyOverflow set_tabTraps set_navItems
       isOpen focusableElements lastFocusedElement navClassList toggleAttrs
       bodyOverflow activeElement navFocusable closeButton tabTraps
       navItems].

Ltac by_fields s :=
  destruct s as [io fe lf cl ta bo ae nf cb tt ni]; run_setters.

(** *** Frame lemmas: who touches what *)

Lemma focus_frame e s : same_mobile s (focus e s) ∧ same_items s (focus e s).
Proof. unfold focus. destruct (focusable e); by repeat split. Qed.

Lemma toggleDropdown_mobile i b s : same_mobile s (toggleDropdown i b s).
Proof. by repeat split. Qed.

Lemma open_items s : same_items s (open s).
Proof. unfold same_items. by_fields s. by destruct nf as [|[] ?]. Qed.

Lemma close_items s : same_items s (close s).
Proof. unfold same_items. by_fields s. by destruct lf as [[]|]. Qed.

Lemma handleTabKey_frame k sh trap s :
  same_mobile s (handleTabKey k sh trap s) ∧
  same_items s (handleTabKey k sh trap s).
Proof.
  unfold handleTabKey. destruct trap as [[f|] [l|]];
    repeat case_match; auto using focus_frame with nav.
Qed.

Lemma tabTraps_frame k sh traps s :
  same_mobile s (foldl (λ s trap, handleTabKey k sh trap s) s traps) ∧
  same_items s (foldl (λ s trap, handleTabKey k sh trap s) s traps).
Proof.
  revert s. induction traps as [|t traps IH]; intros s; simpl; [auto with nav |].
  destruct (handleTabKey_frame k sh t s) as [Hm Hi].
  destruct (IH (handleTabKey k sh t s)) as [Hm' Hi'].
  split; [by eapply same_mobile_trans | by eapply same_items_trans].
Qed.

Lemma linkKeydown_mobile i k s : same_mobile s (linkKeydown i k s).
Proof.
  unfold linkKeydown, focus. repeat case_match; by repeat split.
Qed.

Lemma dropdownKeydown_mobile i k s : same_mobile s (dropdownKeydown i k s).
Proof.
  unfold dropdownKeydown, focus. repeat case_match; by repeat split.
Qed.

(** *** What [open] and [close] establish *)

Lemma open_isOpen s : isOpen (open s) = true.
Proof. by_fields s. by destruct nf as [|[] ?]. Qed.

Lemma open_class s : navClassList (open s) = navClassList s ∪ {["open"]}.
Proof. by_fields s. by destruct nf as [|[] ?]. Qed.

Lemma open_aria s :
  toggleAttrs (open s) = <["aria-expanded" := "true"]> (toggleAttrs s).
Proof. by_fields s. by destruct nf as [|[] ?]. Qed.



Lemma close_isOpen s : isOpen (close s) = false.
Proof. by_fields s. by destruct lf as [[]|]. Qed.

Lemma close_class s : navClassList (close s) = navClassList s ∖ {["open"]}.
Proof. by_fields s. by destruct lf as [[]|]. Qed.

Lemma close_aria s :
  toggleAttrs (close s) = <["aria-expanded" := "false"]> (toggleAttrs s).
Proof. by_fields s. by destruct lf as [[]|]. Qed.


(** *** The remembered element *)










Example open_escape_restores_focus :
  activeElement (run [ClickToggle; KeyDown (NavElement 0) Tab true;
                      KeyDown (NavElement 2) Escape false]
                   (focus ToggleButton page))
  = Some ToggleButton.
Proof. by vm_compute. Qed.

(** *** Counting open menus *)

Lemma filter_alter_length {A} (P : A → Prop) `{!∀ x, Decision (P x)}
    (f : A → A) (i : nat) (l : list A) :
  length (filter P (alter f i l)) ≤ S (length (filter P l)).
Proof.
  revert i. induction l as [|x l IH]; intros i; [simpl; lia |].
  destruct i as [|i]; simpl.
  - rewrite !filter_cons. repeat case_decide; simpl; lia.
  - specialize (IH i). change (list_alter f i l) with (alter f i l).
    rewrite !filter_cons. case_decide; simpl; lia.
Qed.

Lemma filter_alter_length_off {A} (P : A → Prop) `{!∀ x, Decision (P x)}
    (f : A → A) (i : nat) (l : list A) :
  (∀ x, ¬ P (f x)) →
  length (filter P (alter f i l)) ≤ length (filter P l).
Proof.
  intros Hf. revert i. induction l as [|x l IH]; intros i; [simpl; lia |].
  destruct i as [|i]; simpl.
  - rewrite !filter_cons. pose proof (Hf x).
    repeat case_decide; simpl; try lia; done.
  - specialize (IH i). change (list_alter f i l) with (alter f i l).
    rewrite !filter_cons. case_decide; simpl; lia.
Qed.

Lemma mobileOpen_le_1 s : mobileOpen s ≤ 1.
Proof. unfold mobileOpen. case_bool_decide; lia. Qed.

Lemma mobileOpen_close s : mobileOpen (close s) = 0.
Proof.
  unfold mobileOpen. rewrite close_class.
  rewrite bool_decide_eq_false_2; [done |].
  rewrite elem_of_difference, elem_of_singleton. by intros [].
Qed.

Lemma same_mobile_mobileOpen s s' : same_mobile s s' → mobileOpen s' = mobileOpen s.
Proof. intros (_ & H & _). unfold mobileOpen. by rewrite H. Qed.

Lemma same_items_openDropdowns s s' :
  same_items s s' → openDropdowns s' = openDropdowns s.
Proof. unfold same_items, openDropdowns. by intros ->. Qed.

Lemma toggleDropdown_count i b s :
  openDropdowns (toggleDropdown i b s) ≤ S (openDropdowns s).
Proof. unfold openDropdowns, toggleDropdown; simpl. apply filter_alter_length. Qed.

Lemma toggleDropdown_false_count i s :
  openDropdowns (toggleDropdown i false s) ≤ openDropdowns s.
Proof.
  unfold openDropdowns, toggleDropdown; simpl.
  apply filter_alter_length_off. intros it. unfold expanded; simpl.
  rewrite lookup_insert_eq. by rewrite bool_decide_eq_false_2.
Qed.

Lemma linkKeydown_count i k s :
  openDropdowns (linkKeydown i k s) ≤ S (openDropdowns s).
Proof.
  unfold linkKeydown. destruct (navItems s !! i) as [it|]; [| lia].
  destruct k; simpl; try lia; try apply toggleDropdown_count.
  destruct (menuLinks i it) as [|e l]; [apply toggleDropdown_count |].
  rewrite (same_items_openDropdowns _ _ (proj2 (focus_frame e _))).
  apply toggleDropdown_count.
Qed.

Lemma dropdownKeydown_count i k s :
  openDropdowns (dropdownKeydown i k s) ≤ openDropdowns s.
Proof.
  assert (Hfocus : ∀ (o : option element) s0,
             openDropdowns (match o with Some e => focus e s0 | None => s0 end)
             = openDropdowns s0).
  { intros [e|] s0; [| done].
    apply same_items_openDropdowns, focus_frame. }
  assert (Hoff : ∀ s0, openDropdowns (toggleDropdown i false (focus (TriggerLink i) s0))
                       ≤ openDropdowns s0).
  { intros s0. etrans; [apply toggleDropdown_false_count | done]. }
  unfold dropdownKeydown. destruct (navItems s !! i) as [it|]; [| lia].
  destruct k; simpl; try lia.
  - case_match; [by rewrite Hfocus | lia].
  - case_match; [by rewrite Hfocus | apply Hoff].
  - apply Hoff.
Qed.

(** Every event opens at most one menu more. *)
Lemma step_count e s : openMenus (step e s) ≤ S (openMenus s).
Proof.
  unfold openMenus.
  assert (Hopen : mobileOpen (open s) + openDropdowns (open s)
                  ≤ S (mobileOpen s + openDropdowns s)).
  { rewrite (same_items_openDropdowns _ _ (open_items s)).
    pose proof (mobileOpen_le_1 (open s)). lia. }
  assert (Hclose : ∀ s0, mobileOpen (close s0) + openDropdowns (close s0)
                   ≤ S (mobileOpen s0 + openDropdowns s0)).
  { intros s0. rewrite (same_items_openDropdowns _ _ (close_items s0)).
    rewrite mobileOpen_close. lia. }
  destruct e as [| | |w|target k sh| | |i b]; simpl.
  - unfold toggle. by destruct (isOpen s).
  - by destruct (closeButton s); [| lia].
  - done.
  - by case_match; [| lia].
  - set (s1 := match target with
               | TriggerLink i => linkKeydown i k s
               | MenuLink i _ => dropdownKeydown i k s
               | _ => s
               end).
    assert (H1 : mobileOpen s1 = mobileOpen s ∧
                 openDropdowns s1 ≤ S (openDropdowns s)).
    { subst s1. destruct target; try (split; [done | lia]).
      - split; [apply same_mobile_mobileOpen, linkKeydown_mobile
               | apply linkKeydown_count].
      - split; [apply same_mobile_mobileOpen, dropdownKeydown_mobile |].
        etrans; [apply dropdownKeydown_count | lia]. }
    set (s2 := if bool_decide (k = Escape) && isOpen s1 then close s1 else s1).
    assert (H2 : mobileOpen s2 ≤ mobileOpen s1 ∧
                 openDropdowns s2 = openDropdowns s1).
    { subst s2. case_match; [| done].
      rewrite mobileOpen_close.
      rewrite (same_items_openDropdowns _ _ (close_items s1)). lia. }
    destruct (tabTraps_frame k sh (tabTraps s2) s2) as [Hm Hi].
    rewrite (same_mobile_mobileOpen _ _ Hm), (same_items_openDropdowns _ _ Hi).
    lia.
  - done.
  - done.
  - rewrite (same_mobile_mobileOpen _ _ (toggleDropdown_mobile i b s)).
    pose proof (toggleDropdown_count i b s). lia.
Qed.

(** *** Two dropdowns at once *)

Lemma alter_absent {A} (f : A → A) (l : list A) (i : nat) :
  l !! i = None → alter f i l = l.
Proof.
  revert i. induction l as [|x l IH]; intros [|i]; simpl; try done.
  intros H. f_equal. by apply IH.
Qed.

Lemma expanded_after_open la da n :
  expanded {| linkAttrs := <["aria-expanded" := bool_to_string true]> la;
              dropdownAttrs := da; dropdownLinks := n |} = true.
Proof.
  unfold expanded; cbn [linkAttrs]. rewrite lookup_insert_eq.
  by apply bool_decide_eq_true_2.
Qed.

Lemma arrowDown_items i sh s :
  navItems (step (KeyDown (TriggerLink i) ArrowDown sh) s)
  = navItems (toggleDropdown i true s).
Proof.
  simpl.
  destruct (tabTraps_frame ArrowDown sh (tabTraps (linkKeydown i ArrowDown s))
              (linkKeydown i ArrowDown s)) as [_ ->].
  unfold linkKeydown. destruct (navItems s !! i) as [it|] eqn:Ei; simpl.
  - destruct (menuLinks i it) as [|e l]; [done |].
    by rewrite (proj2 (focus_frame e (toggleDropdown i true s))).
  - unfold toggleDropdown; simpl. symmetry. by apply alter_absent.
Qed.

(** ArrowDown on two trigger links leaves both dropdowns open, whatever
    the state before. *)
Lemma two_arrows_open s :
  2 ≤ length (navItems s) → 2 ≤ openDropdowns (run two_arrows s).
Proof.
  intros Hl.
  change (run two_arrows s)
    with (step (KeyDown (TriggerLink 1) ArrowDown false)
            (step (KeyDown (TriggerLink 0) ArrowDown false) s)).
  unfold openDropdowns. rewrite arrowDown_items.
  unfold toggleDropdown at 1. cbn [navItems set_navItems].
  rewrite arrowDown_items.
  unfold toggleDropdown. cbn [navItems set_navItems].
  destruct (navItems s) as [|a [|b rest]]; simpl in Hl; [lia | lia |].
  cbn [alter list_alter].
  rewrite !filter_cons_True by apply expanded_after_open.
  cbn [length]. lia.
Qed.

(** *** The mobile nav's indications agree *)

Lemma loaded_consistent s : loaded s → mobile_consistent s.
Proof.
  intros (Ho & _ & _ & _ & Hc & Ha & _). unfold mobile_consistent.
  rewrite Ho. split; split; done.
Qed.

Lemma open_consistent s : mobile_consistent (open s).
Proof.
  unfold mobile_consistent.
  rewrite open_isOpen, open_class, open_aria, lookup_insert_eq.
  rewrite elem_of_union, elem_of_singleton. split; split; auto.
Qed.

Lemma close_consistent s : mobile_consistent (close s).
Proof.
  unfold mobile_consistent.
  rewrite close_isOpen, close_class, close_aria, lookup_insert_eq.
  rewrite elem_of_difference, elem_of_singleton.
  split; split; [done | by intros [] | done | done].
Qed.

Lemma same_mobile_consistent s s' :
  same_mobile s s' → mobile_consistent s → mobile_consistent s'.
Proof. intros (H1 & H2 & H3). unfold mobile_consistent. by rewrite H1, H2, H3. Qed.

Lemma step_consistent e s : mobile_consistent s → mobile_consistent (step e s).
Proof.
  intros Hs. destruct e as [| | |w|target k sh| | |i b]; simpl.
  - unfold toggle. destruct (isOpen s);
      [apply close_consistent | apply open_consistent].
  - destruct (closeButton s); [apply close_consistent | done].
  - apply close_consistent.
  - case_match; [apply close_consistent | done].
  - eapply same_mobile_consistent; [apply tabTraps_frame |].
    set (s1 := match target with
               | TriggerLink i => linkKeydown i k s
               | MenuLink i _ => dropdownKeydown i k s
               | _ => s
               end).
    assert (H1 : mobile_consistent s1).
    { subst s1. destruct target; try done.
      - eapply same_mobile_consistent; [apply linkKeydown_mobile | done].
      - eapply same_mobile_consistent; [apply dropdownKeydown_mobile | done]. }
    destruct (bool_decide (k = Escape) && isOpen s1);
      [apply close_consistent | done].
  - apply open_consistent.
  - apply close_consistent.
  - eapply same_mobile_consistent; [apply toggleDropdown_mobile | done].
Qed.

Lemma reachable_consistent s : reachable s → mobile_consistent s.
Proof.
  induction 1 as [s Hl|s e _ IH]; [by apply loaded_consistent |].
  by apply step_consistent.
Qed.

Lemma reachable_run evs s : reachable s → reachable (run evs s).
Proof.
  revert s. induction evs as [|e evs IH]; intros s Hs; [done |].
  simpl. apply IH. by constructor.
Qed.

Lemma page_loaded : loaded page.
Proof.
  unfold loaded, page; simpl. repeat split; try done.
  repeat constructor.
Qed.

(** C5, as stated, fails: after Enter on one dropdown trigger and Enter on
    the next, both triggers have aria-expanded='true'. *)
Lemma two_dropdowns_open :
  reachable (run two_enters page) ∧
  expanded <$> navItems (run two_enters page) = [true; true] ∧
  openMenus (run two_enters page) = 2.
Proof.
  split; [apply reachable_run, reachable_loaded, page_loaded |].
  split; by vm_compute.
Qed.

(** *** An event that opens a menu leaves the others alone *)

Lemma toggleDropdown_other i b s j :
  j ≠ i → navItems (toggleDropdown i b s) !! j = navItems s !! j.
Proof.
  intros Hj. unfold toggleDropdown. cbn [navItems set_navItems].
  by rewrite list_lookup_alter_ne.
Qed.

Lemma toggleDropdown_false_closed i s :
  menuOpen (Dropdown i) (toggleDropdown i false s) = false.
Proof.
  unfold menuOpen, toggleDropdown. cbn [navItems set_navItems].
  rewrite list_lookup_alter_eq.
  destruct (navItems s !! i) as [it|]; [| done].
  cbn [fmap option_fmap option_map from_option]. unfold expanded.
  cbn [linkAttrs]. rewrite lookup_insert_eq. by apply bool_decide_eq_false_2.
Qed.

(** What a key on a trigger link does to the dropdowns: nothing, or what
    [toggleDropdown] does for its own item; the latter only on Enter,
    Space and ArrowDown. *)
Lemma linkKeydown_items i k s :
  navItems (linkKeydown i k s) = navItems s ∨
  (∃ b, navItems (linkKeydown i k s) = navItems (toggleDropdown i b s)) ∧
  k ≠ Escape.
Proof.
  unfold linkKeydown. destruct (navItems s !! i) as [it|]; [| by left].
  destruct k; simpl; try (by left); right; (split; [| done]).
  - by eexists.
  - by eexists.
  - exists true. destruct (menuLinks i it) as [|e l]; [done |].
    by rewrite (proj2 (focus_frame e (toggleDropdown i true s))).
Qed.

(** A key inside a dropdown never opens one. *)
Lemma dropdownKeydown_items i k s :
  navItems (dropdownKeydown i k s) = navItems s ∨
  navItems (dropdownKeydown i k s) = navItems (toggleDropdown i false s).
Proof.
  assert (Hfocus : ∀ (o : option element) s0,
             navItems (match o with Some e => focus e s0 | None => s0 end)
             = navItems s0).
  { intros [e|] s0; [| done]. apply focus_frame. }
  assert (Hoff : ∀ s0, navItems (toggleDropdown i false (focus (TriggerLink i) s0))
                       = navItems (toggleDropdown i false s0)) by done.
  unfold dropdownKeydown. destruct (navItems s !! i) as [it|]; [| by left].
  destruct k; simpl; try (by left).
  - left. case_match; [apply Hfocus | done].
  - case_match; [left; apply Hfocus | right; apply Hoff].
  - right. apply Hoff.
Qed.

(** The dropdowns after a keydown are those its target's listener
    leaves; the listeners of the document do not touch them. *)
Lemma keydown_items target k sh s :
  navItems (step (KeyDown target k sh) s)
  = navItems (match target with
              | TriggerLink i => linkKeydown i k s
              | MenuLink i _ => dropdownKeydown i k s
              | _ => s
              end).
Proof.
  cbn [step].
  set (s1 := match target with
             | TriggerLink i => linkKeydown i k s
             | MenuLink i _ => dropdownKeydown i k s
             | _ => s
             end).
  set (s2 := if bool_decide (k = Escape) && isOpen s1 then close s1 else s1).
  rewrite (proj2 (tabTraps_frame k sh (tabTraps s2) s2)).
  subst s2. destruct (bool_decide (k = Escape) && isOpen s1); [| done].
  apply close_items.
Qed.

(** A key other than Escape leaves the mobile nav as it is. *)
Lemma keydown_mobile target k sh s :
  k ≠ Escape → same_mobile s (step (KeyDown target k sh) s).
Proof.
  intros Hk. cbn [step]. rewrite (bool_decide_eq_false_2 _ Hk). cbn [andb].
  eapply same_mobile_trans; [| apply tabTraps_frame].
  destruct target; auto using linkKeydown_mobile, dropdownKeydown_mobile
    with nav.
Qed.

(** No key gives the mobile nav the class 'open'. *)
Lemma keydown_class target k sh s :
  "open" ∈ navClassList (step (KeyDown target k sh) s) →
  "open" ∈ navClassList s.
Proof.
  cbn [step].
  set (s1 := match target with
             | TriggerLink i => linkKeydown i k s
             | MenuLink i _ => dropdownKeydown i k s
             | _ => s
             end).
  assert (H1 : navClassList s1 = navClassList s).
  { subst s1. destruct target; try done.
    - apply linkKeydown_mobile.
    - apply dropdownKeydown_mobile. }
  set (s2 := if bool_decide (k = Escape) && isOpen s1 then close s1 else s1).
  destruct (tabTraps_frame k sh (tabTraps s2) s2) as [(_ & -> & _) _].
  subst s2. destruct (bool_decide (k = Escape) && isOpen s1).
  - rewrite close_class, elem_of_difference, elem_of_singleton. by intros [].
  - by rewrite H1.
Qed.

(** An event that gives the mobile nav the class 'open' leaves every
    dropdown as it is. *)
Lemma step_opens_mobile e s :
  menuOpen MobileMenu s = false → menuOpen MobileMenu (step e s) = true →
  navItems (step e s) = navItems s.
Proof.
  cbn [menuOpen]. intros Hc%bool_decide_eq_false Ho%bool_decide_eq_true.
  destruct e as [| | |w|target k sh| | |i b]; cbn [step] in *.
  - unfold toggle. destruct (isOpen s); [apply close_items | apply open_items].
  - destruct (closeButton s); [apply close_items | done].
  - apply close_items.
  - case_match; [apply close_items | done].
  - by apply keydown_class in Ho.
  - apply open_items.
  - apply close_items.
  - done.
Qed.

(** An event that opens the dropdown of item [i] leaves the mobile nav
    and the items other than [i] as they are. *)
Lemma step_opens_dropdown e s i :
  menuOpen (Dropdown i) s = false → menuOpen (Dropdown i) (step e s) = true →
  same_mobile s (step e s) ∧
  ∀ j, j ≠ i → navItems (step e s) !! j = navItems s !! j.
Proof.
  intros Hc Ho.
  assert (Hsame : navItems (step e s) = navItems s → False).
  { intros E. unfold menuOpen in Hc, Ho. rewrite E in Ho. congruence. }
  assert (Hitem : ∀ i' b,
            navItems (step e s) = navItems (toggleDropdown i' b s) →
            i' = i ∧ ∀ j, j ≠ i → navItems (step e s) !! j = navItems s !! j).
  { intros i' b E. destruct (decide (i' = i)) as [->|Hne].
    - split; [done |]. intros j Hj. rewrite E. by apply toggleDropdown_other.
    - exfalso. unfold menuOpen in Hc, Ho.
      rewrite E, toggleDropdown_other in Ho by done. congruence. }
  destruct e as [| | |w|target k sh| | |i' b].
  - exfalso. apply Hsame. cbn [step]. unfold toggle.
    destruct (isOpen s); [apply close_items | apply open_items].
  - exfalso. apply Hsame. cbn [step].
    destruct (closeButton s); [apply close_items | done].
  - exfalso. apply Hsame. apply close_items.
  - exfalso. apply Hsame. cbn [step]. case_match; [apply close_items | done].
  - pose proof (keydown_items target k sh s) as Hk.
    destruct target as [| |n|i'|i' j'|n]; try (exfalso; by apply Hsame).
    + destruct (linkKeydown_items i' k s) as [E|[[b E] Hesc]].
      * exfalso. apply Hsame. by rewrite Hk.
      * rewrite <- Hk in E. destruct (Hitem i' b E) as [_ Hj].
        split; [by apply keydown_mobile | exact Hj].
    + exfalso. destruct (dropdownKeydown_items i' k s) as [E|E].
      * apply Hsame. by rewrite Hk.
      * rewrite <- Hk in E. destruct (Hitem i' false E) as [-> _].
        unfold menuOpen in Ho. rewrite E in Ho.
        pose proof (toggleDropdown_false_closed i s) as Hf.
        unfold menuOpen in Hf. congruence.
  - exfalso. apply Hsame. apply open_items.
  - exfalso. apply Hsame. apply close_items.
  - destruct (Hitem i' b eq_refl) as [-> Hj].
    split; [apply toggleDropdown_mobile | exact Hj].
Qed.

(** C5 (amended). The menus are independent two-state toggles and not
    mutually exclusive. An operation raises the number of open menus by at
    most one, and nothing closes the other menus when one opens: an event
    that opens a menu leaves the open state of every other menu as it
    is (an event that opens the mobile nav leaves all attributes of the
    nav items alone; an event that opens a dropdown leaves isOpen, the
    class list of the mobile nav, the attributes of the toggle button and
    the other nav items alone). So from every reachable state of a page
    with two or more dropdowns, ArrowDown on two trigger links leaves two
    menus open. What does hold in every reachable state is that the
    mobile nav's own indications agree (isOpen, the class 'open' and
    aria-expanded='true' on the toggle button are set together). *)
Theorem menus_open_independently (s : state) (e : event) :
  reachable s →
  mobile_consistent s ∧
  openMenus (step e s) ≤ S (openMenus s) ∧
  (∀ m, menuOpen m s = false → menuOpen m (step e s) = true →
        (∀ m', m' ≠ m → menuOpen m' (step e s) = menuOpen m' s) ∧
        (m ≠ MobileMenu → same_mobile s (step e s)) ∧
        (∀ j, m ≠ Dropdown j → navItems (step e s) !! j = navItems s !! j)) ∧
  (2 ≤ length (navItems s) →
   reachable (run two_arrows s) ∧ 2 ≤ openMenus (run two_arrows s)).
Proof.
  intros Hs. split; [by apply reachable_consistent |].
  split; [apply step_count |]. split.
  - intros m Hc Ho. destruct m as [|i].
    + pose proof (step_opens_mobile e s Hc Ho) as E.
      split; [| split; [done |]].
      * intros [|j] Hm'; [done |]. unfold menuOpen. by rewrite E.
      * intros j _. by rewrite E.
    + destruct (step_opens_dropdown e s i Hc Ho) as [Hm Hj].
      split; [| split; [done |]].
      * intros [|j] Hm'.
        -- cbn [menuOpen]. destruct Hm as (_ & -> & _). done.
        -- unfold menuOpen. rewrite Hj; [done | congruence].
      * intros j Hne. apply Hj. congruence.
  - intros Hl. split; [by apply reachable_run |].
    unfold openMenus. pose proof (two_arrows_open s Hl). lia.
Qed.

Lemma menus_open_independently_witness :
  mobile_consistent (run two_enters page) ∧
  openMenus (step CallOpen (run two_enters page)) ≤ 3 ∧
  menuOpen (Dropdown 0) (step CallOpen (run two_enters page)) = true ∧
  menuOpen (Dropdown 1) (step CallOpen (run two_enters page)) = true ∧
  2 ≤ openMenus (run two_arrows (run two_enters page)).
Proof.
  destruct (menus_open_independently (run two_enters page) CallOpen)
    as (H1 & H2 & H3 & H4).
  - apply reachable_run, reachable_loaded, page_loaded.
  - split; [exact H1 |]. split; [etrans; [exact H2 |]; by vm_compute |].
    destruct (H3 MobileMenu) as (H5 & _); [by vm_compute | by vm_compute |].
    split; [by rewrite H5 |]. split; [by rewrite H5 |].
    apply H4. by vm_compute.
Defined.

End NavSpec.

(* ===================================================================== *)
(** ** LanguageSwitcher *)
(* ===================================================================== *)

Module LanguageSwitcherSpec.
Import LanguageSwitcher.

(** *** The configuration *)

Lemma languages_lookup k c :
  languages !! k = Some c ↔
  (k = "en" ∧ c = en) ∨ (k = "ht" ∧ c = ht) ∨ (k = "fr" ∧ c = fr).
Proof.
  unfold languages.
  destruct (decide (k = "en")) as [->|Hen].
  { rewrite lookup_insert_eq. split; [intros [= <-]; auto |].
    by intros [[_ ->]|[[? _]|[? _]]]. }
  rewrite lookup_insert_ne by done.
  destruct (decide (k = "ht")) as [->|Hht].
  { rewrite lookup_insert_eq. split; [intros [= <-]; auto |].
    by intros [[? _]|[[_ ->]|[? _]]]. }
  rewrite lookup_insert_ne by done.
  destruct (decide (k = "fr")) as [->|Hfr].
  { rewrite lookup_insert_eq. split; [intros [= <-]; auto |].
    by intros [[? _]|[[? _]|[_ ->]]]. }
  rewrite lookup_insert_ne by done. rewrite lookup_empty.
  split; [done | by intros [[? _]|[[? _]|[? _]]]].
Qed.

Lemma languages_get_own k c : languages !! k = Some c → languages_get k = Own c.
Proof. unfold languages_get. by intros ->. Qed.

(** The only code whose configuration is switched on is 'en'. *)
Lemma get_enabled_en k : get_enabled (languages_get k) = true → k = "en".
Proof.
  unfold languages_get. destruct (languages !! k) as [c|] eqn:E.
  - apply languages_lookup in E as [[-> ->]|[[-> ->]|[-> ->]]]; by simpl.
  - by case_bool_decide.
Qed.

Lemma disabled_language_iff k : disabled_language k ↔ k = "ht" ∨ k = "fr".
Proof.
  unfold disabled_language. split.
  - intros (c & Hc & He).
    apply languages_lookup in Hc as [[-> ->]|[[-> ->]|[-> ->]]]; auto.
    discriminate.
  - intros [->| ->]; [exists ht | exists fr]; by split.
Qed.

(** *** Storage *)

Lemma storePreference_working c s :
  raises_nothing (localStorage s) →
  storePreference c s =
    Ok (set_localStorage
          {| items := <[storageKey := c]> (items (localStorage s));
             mode := Working;
             writes := writes (localStorage s) ++ [(storageKey, c)] |} s).
Proof.
  unfold raises_nothing, storePreference, setItem. intros ->. reflexivity.
Qed.

(** C3. When the storage raises no exception, [storePreference c] followed
    by [getStoredPreference] returns [c]: the preference is written under
    the key 'delmar-preferred-language' and read back from it. *)
Theorem preference_round_trip (c : string) (s : state) :
  raises_nothing (localStorage s) →
  ∃ s', storePreference c s = Ok s' ∧
        items (localStorage s') !! "delmar-preferred-language" = Some c ∧
        getStoredPreference s' = Ok (Some c, s').
Proof.
  intros Hw. eexists. split; [by apply storePreference_working |].
  unfold getStoredPreference, getItem; simpl.
  change "delmar-preferred-language" with storageKey.
  rewrite lookup_insert_eq. done.
Qed.

Lemma preference_round_trip_witness :
  ∃ s', storePreference "ht" (visit "/" empty_storage) = Ok s' ∧
        items (localStorage s') !! "delmar-preferred-language" = Some "ht" ∧
        getStoredPreference s' = Ok (Some "ht", s').
Proof. apply (preference_round_trip "ht" (visit "/" empty_storage)). reflexivity. Defined.

(** C7. [storePreference] and [getStoredPreference] never throw. When
    writing to the storage throws, [storePreference] returns normally,
    the console has one more entry, the warning with the exception
    caught, and the storage and the rest of the page are as they were;
    when reading throws, [getStoredPreference] returns null, the console
    has one more entry, the warning with the exception caught, and
    nothing else has changed. When the storage does not throw, neither
    function writes to the console. *)
Theorem storage_exceptions_are_caught (c : string) (s : state) :
  (∀ e, storePreference c s ≠ Throw e) ∧
  (∀ e, getStoredPreference s ≠ Throw e) ∧
  (∀ e, setItem (localStorage s) storageKey c = Throw e →
        ∃ s', storePreference c s = Ok s' ∧
              console s' = console s ++
                [WarnError "Could not store language preference:" e] ∧
              localStorage s' = localStorage s ∧
              same_but_console s s') ∧
  (∀ e, getItem (localStorage s) storageKey = Throw e →
        ∃ s', getStoredPreference s = Ok (None, s') ∧
              console s' = console s ++
                [WarnError "Could not retrieve language preference:" e] ∧
              localStorage s' = localStorage s ∧
              same_but_console s s') ∧
  (∀ st, setItem (localStorage s) storageKey c = Ok st →
         ∃ s', storePreference c s = Ok s' ∧ console s' = console s ∧
               localStorage s' = st) ∧
  (∀ v, getItem (localStorage s) storageKey = Ok v →
        getStoredPreference s = Ok (v, s)).
Proof.
  unfold storePreference, getStoredPreference.
  split; [| split; [| split; [| split; [| split]]]].
  - intros e. by destruct (setItem _ _ _).
  - intros e. by destruct (getItem _ _).
  - intros e ->. eexists. split; [reflexivity |]. by repeat split.
  - intros e ->. eexists. split; [reflexivity |]. by repeat split.
  - intros st ->. eexists. split; [reflexivity |]. by split.
  - by intros v ->.
Qed.

Example storePreference_denied :
  (s' ← storePreference "en" (visit "/" denied_storage);
   Ok (console s', localStorage s')) =
  Ok ([WarnError "Could not store language preference:" SecurityError],
      denied_storage).
Proof. reflexivity. Qed.

Example getStoredPreference_denied :
  (r ← getStoredPreference (visit "/" denied_storage);
   Ok (r.1, console r.2)) =
  Ok (None,
      [WarnError "Could not retrieve language preference:" SecurityError]).
Proof. reflexivity. Qed.

(** [detectCurrentLanguage] reads the storage without a try block: on a
    page outside the language trees the exception of a denied storage
    leaves [detectCurrentLanguage], and [init] with it. *)
Lemma init_throws_on_denied_storage :
  detectCurrentLanguage (visit "/" denied_storage) = Throw SecurityError ∧
  init (visit "/" denied_storage) = Throw SecurityError.
Proof. split; reflexivity. Qed.

(** *** Language change requests *)

Lemma showComingSoonMessage_own c s :
  showComingSoonMessage (Own c) s = Ok (add_toast (nativeName c) s).
Proof. reflexivity. Qed.

(** C2. For a language whose configuration is present but disabled (these
    are 'ht' and 'fr'), [handleLanguageChange], and so a click on the
    button of that language, does what [showComingSoonMessage] does and
    nothing more: the toast with the native name is added, while
    window.location, the storage, the console and the current language
    stay as they are; [switchLanguage] is not run. *)
Theorem disabled_language_never_navigates (langCode : string) (s : state) :
  disabled_language langCode →
  (langCode = "ht" ∨ langCode = "fr") ∧
  ∃ s', handleLanguageChange langCode s = Ok s' ∧
        (∀ b, onClick b = Some langCode → click b s = Ok s') ∧
        showComingSoonMessage (languages_get langCode) s = Ok s' ∧
        navigation s' = navigation s ∧
        pathname s' = pathname s ∧
        localStorage s' = localStorage s ∧
        console s' = console s ∧
        currentLanguage s' = currentLanguage s ∧
        toasts s' = toasts s ++ [nativeName_text (languages_get langCode)].
Proof.
  intros Hd. split; [by apply disabled_language_iff |].
  destruct Hd as (c & Hc & He).
  exists (add_toast (nativeName c) s).
  assert (Hh : handleLanguageChange langCode s
               = Ok (add_toast (nativeName c) s)).
  { unfold handleLanguageChange. rewrite (languages_get_own _ _ Hc); simpl.
    by rewrite He. }
  split; [done |]. split.
  { intros b Hb. unfold click. by rewrite Hb. }
  by rewrite (languages_get_own _ _ Hc).
Qed.

Lemma disabled_language_never_navigates_witness :
  ∃ s', handleLanguageChange "ht" (visit "/en/about.html" empty_storage) = Ok s'
        ∧ navigation s' = None
        ∧ toasts s' = ["Kreyòl Ayisyen"].
Proof.
  destruct (disabled_language_never_navigates "ht"
              (visit "/en/about.html" empty_storage))
    as (_ & s' & Hh & _ & _ & Hn & _ & _ & _ & _ & Ht).
  - exists ht. by split.
  - exists s'. split; [exact Hh |]. split; [exact Hn | exact Ht].
Defined.

(** C10. A request for an enabled language that is already the current
    one changes nothing: the state after [handleLanguageChange] is the
    state before it (storage, current language, window.location and all
    the rest). *)
Theorem same_language_is_noop (langCode : string) (s : state) :
  get_enabled (languages_get langCode) = true →
  langCode = currentLanguage s →
  handleLanguageChange langCode s = Ok s.
Proof.
  intros He Hc. unfold handleLanguageChange. rewrite He.
  destruct (languages_get langCode); [| done | done]; simpl.
  by rewrite bool_decide_eq_true_2.
Qed.

Lemma same_language_is_noop_witness :
  handleLanguageChange "en" (visit "/en/" empty_storage)
  = Ok (visit "/en/" empty_storage).
Proof.
  apply (same_language_is_noop "en" (visit "/en/" empty_storage));
    reflexivity.
Defined.

(** *** Language detection *)

Lemma matchLangPrefix_known p l : matchLangPrefix p = Some l → known l.
Proof.
  unfold matchLangPrefix, known.
  repeat case_match; intros [= <-]; auto.
Qed.

Lemma known_truthy l : known l → truthy (languages_get l) = true.
Proof. by intros [->|[->| ->]]. Qed.

Lemma known_not_inherited l : known l → l ∉ Object_prototype.
Proof.
  intros [->|[->| ->]] H; apply list_elem_of_In in H; simpl in H;
    repeat (destruct H as [H|H]; [discriminate |]); done.
Qed.

(** With 'ht' and 'fr' switched off, the browser's languages can only
    lead to 'en': by an English entry, or by the default. *)
Lemma detectBrowserLanguage_en s : detectBrowserLanguage s = "en".
Proof.
  unfold detectBrowserLanguage. generalize (browserLangs s).
  induction l as [|lang rest IH]; [done |].
  change (enabled ht) with false. rewrite andb_false_r.
  destruct (get_enabled (languages_get (toLowerCase (before_dash lang))))
    eqn:E; [by apply get_enabled_en | exact IH].
Qed.

(** What [detectCurrentLanguage] can return: a known code, or else the
    stored string, when that string is the name of a member of
    Object.prototype. *)
Lemma detectCurrentLanguage_result s l :
  detectCurrentLanguage s = Ok l →
  known l ∨ (stored s = Some l ∧ l ∈ Object_prototype).
Proof.
  unfold detectCurrentLanguage, stored.
  destruct (matchLangPrefix (pathname s)) as [l0|] eqn:Ep; simpl.
  - pose proof (matchLangPrefix_known _ _ Ep) as Hk.
    rewrite (known_truthy _ Hk). intros [= <-]. by left.
  - unfold getItem. destruct (mode (localStorage s)); simpl; [| | done].
    all: destruct (items (localStorage s) !! storageKey) as [v|]; simpl;
      try (intros [= <-]; left; left; apply detectBrowserLanguage_en).
    all: destruct (nonempty v); simpl;
      try (intros [= <-]; left; left; apply detectBrowserLanguage_en).
    all: unfold languages_get;
      destruct (languages !! v) as [c|] eqn:Ev; simpl;
      [ intros [= <-]; left;
        apply languages_lookup in Ev as [[-> _]|[[-> _]|[-> _]]];
        unfold known; auto
      | case_bool_decide; simpl;
        [ intros [= <-]; by right
        | intros [= <-]; left; left; apply detectBrowserLanguage_en ] ].
Qed.

(** The priority order of [detectCurrentLanguage], for a storage that
    can be read and holds no name of a member of Object.prototype. *)
Lemma detectCurrentLanguage_priority s v :
  getItem (localStorage s) storageKey = Ok v →
  (∀ l, v = Some l → l ∉ Object_prototype) →
  detectCurrentLanguage s =
    Ok match matchLangPrefix (pathname s), v with
       | Some l, _ => l
       | None, Some l =>
           if bool_decide (known l) then l else detectBrowserLanguage s
       | None, None => detectBrowserLanguage s
       end.
Proof.
  intros Hv Hni. unfold detectCurrentLanguage.
  destruct (matchLangPrefix (pathname s)) as [l0|] eqn:Ep; simpl.
  - by rewrite (known_truthy _ (matchLangPrefix_known _ _ Ep)).
  - rewrite Hv; simpl. destruct v as [l|]; [| done].
    specialize (Hni l eq_refl).
    case_bool_decide as Hk.
    + rewrite (known_truthy _ Hk).
      by destruct Hk as [->|[->| ->]].
    + unfold languages_get.
      destruct (languages !! l) as [c|] eqn:El.
      { exfalso. apply Hk.
        apply languages_lookup in El as [[-> _]|[[-> _]|[-> _]]];
          unfold known; auto. }
      rewrite bool_decide_eq_false_2 by done. simpl.
      by rewrite andb_false_r.
Qed.

(** C9 at the failing input: on a page outside the language trees, with
    'constructor' stored, [detectCurrentLanguage] returns 'constructor',
    which is not a known language code, instead of going on to the
    browser's languages (which give 'en'). *)
Lemma detectCurrentLanguage_returns_inherited_name :
  matchLangPrefix (pathname (visit "/" planted_storage)) = None ∧
  stored (visit "/" planted_storage) = Some "constructor" ∧
  ¬ known "constructor" ∧
  detectBrowserLanguage (visit "/" planted_storage) = "en" ∧
  detectCurrentLanguage (visit "/" planted_storage) = Ok "constructor".
Proof.
  repeat split. by intros [?|[?|?]].
Qed.

(** *** What the module writes *)

Lemma storePreference_writes c s s' :
  storePreference c s = Ok s' →
  pathname s' = pathname s ∧
  (writes (localStorage s') = writes (localStorage s) ∨
   writes (localStorage s') = writes (localStorage s) ++ [(storageKey, c)]).
Proof.
  unfold storePreference, setItem.
  destruct (mode (localStorage s)); simpl; intros [= <-]; simpl; auto.
Qed.

(** [init] writes at most once, and what it writes is the detected
    language. *)
Lemma init_writes s s' :
  init s = Ok s' →
  ∃ l, detectCurrentLanguage s = Ok l ∧
       (writes (localStorage s') = writes (localStorage s) ∨
        writes (localStorage s') = writes (localStorage s) ++ [(storageKey, l)]).
Proof.
  unfold init. destruct (detectCurrentLanguage s) as [l|e]; simpl; [| done].
  destruct (storePreference _ _) as [s1|e] eqn:E1; simpl; [| done].
  apply storePreference_writes in E1 as [_ Hw]. simpl in Hw.
  intros [= <-]. exists l. split; [done |].
  unfold updateDocumentLanguage. by destruct (languages_get _).
Qed.

(** A language change request writes at most once, and only 'en'. *)
Lemma handleLanguageChange_writes c s s' :
  handleLanguageChange c s = Ok s' →
  writes (localStorage s') = writes (localStorage s) ∨
  writes (localStorage s') = writes (localStorage s) ++ [(storageKey, "en")].
Proof.
  unfold handleLanguageChange.
  destruct (truthy (languages_get c)) eqn:Et; simpl;
    [| intros [= <-]; by left].
  destruct (get_enabled (languages_get c)) eqn:Ee; simpl.
  - apply get_enabled_en in Ee as ->.
    case_bool_decide; [intros [= <-]; by left |].
    unfold switchLanguage.
    destruct (storePreference "en" s) as [s1|e] eqn:E1; simpl; [| done].
    apply storePreference_writes in E1 as [_ Hw].
    destruct (matchLangPath (pathname s1)) as [[l g]|]; simpl;
      by intros [= <-].
  - unfold showComingSoonMessage.
    destruct (languages_get c); simpl; [| | done]; intros [= <-]; by left.
Qed.

(** C6 at the failing input: with 'constructor' stored, [init] takes it
    for the current language and writes it back under the key
    'delmar-preferred-language', although it is none of 'en', 'ht',
    'fr'. *)
Lemma init_stores_inherited_name :
  ∃ s', init (visit "/" planted_storage) = Ok s' ∧
        currentLanguage s' = "constructor" ∧
        writes (localStorage s')
          = [("delmar-preferred-language", "constructor")] ∧
        stored s' = Some "constructor" ∧
        ¬ known "constructor".
Proof.
  eexists. split; [reflexivity |].
  repeat split. by intros [?|[?|?]].
Qed.

(** Apart from that case the claim holds: when the stored string is not
    the name of a member of Object.prototype, what [init] writes is one
    of the three known codes. *)
Lemma init_writes_known s s' k v :
  (∀ l, stored s = Some l → l ∉ Object_prototype) →
  init s = Ok s' →
  writes (localStorage s') = writes (localStorage s) ++ [(k, v)] →
  k = storageKey ∧ known v.
Proof.
  intros Hni Hi Hw. apply init_writes in Hi as (l & Hl & [Hs|Hs]).
  - rewrite Hs in Hw. symmetry in Hw.
    rewrite <- (app_nil_r (writes (localStorage s))) in Hw at 2.
    by apply app_inv_head in Hw.
  - rewrite Hs in Hw. apply app_inv_head in Hw. injection Hw as <- <-.
    split; [done |].
    apply detectCurrentLanguage_result in Hl as [Hk|[Hst Hin]]; [done |].
    by destruct (Hni _ Hst).
Qed.

End LanguageSwitcherSpec.

(* ===================================================================== *)
(** ** FormHelpers: blank fields, marking, forms *)
(* ===================================================================== *)

Module FormHelpersMore.
Import Regex RegexFacts JsString FormHelpers FormHelpersSpec.

(** *** trim *)

Lemma trimStart_nil_iff (s : list N) :
  trimStart s = [] ↔ Forall (λ c, is_whitespace c = true) s.
Proof.
  induction s as [|c s IH]; simpl; [split; [constructor | done] |].
  destruct (is_whitespace c) eqn:E.
  - rewrite IH. split; [by constructor | by inversion 1].
  - split; [done | inversion 1; congruence].
Qed.

Lemma trimStart_head (s : list N) :
  trimStart s = [] ∨ ∃ c r, trimStart s = c :: r ∧ is_whitespace c = false.
Proof.
  induction s as [|c s IH]; simpl; [by left |].
  destruct (is_whitespace c) eqn:E; [done | right; eauto].
Qed.

Lemma trimStart_suffix (s : list N) : ∃ p, s = p ++ trimStart s.
Proof.
  induction s as [|c s [p IH]]; simpl; [by exists [] |].
  destruct (is_whitespace c); [| by exists []].
  exists (c :: p). simpl. by f_equal.
Qed.

Lemma trimEnd_nil_iff (s : list N) :
  trimEnd s = [] ↔ Forall (λ c, is_whitespace c = true) s.
Proof.
  unfold trimEnd. split.
  - intros H. apply (f_equal reverse) in H.
    rewrite reverse_involutive in H. change (reverse []) with (@nil N) in H.
    apply trimStart_nil_iff in H. exact (proj1 (Forall_reverse _ s) H).
  - intros H. apply (proj2 (Forall_reverse _ s)) in H.
    apply trimStart_nil_iff in H. exact (f_equal reverse H).
Qed.

(** A value trims to the empty string exactly when it consists of
    white-space characters only. *)
Lemma trim_nil_iff (s : list N) :
  trim s = [] ↔ Forall (λ c, is_whitespace c = true) s.
Proof.
  unfold trim. rewrite trimEnd_nil_iff. split.
  - intros H. destruct (trimStart_head s) as [E|(c & r & E & Hc)].
    + by apply trimStart_nil_iff.
    + rewrite E in H. inversion H; congruence.
  - intros H. destruct (trimStart_suffix s) as [p Hp].
    rewrite Hp in H. by apply Forall_app in H as [_ H].
Qed.

(** *** What [validateField] computes *)

Lemma validateField_blank f :
  blank f →
  validateField f =
    (negb (required f),
     setFieldState f (negb (required f))
       (if required f then "This field is required" else "")).
Proof.
  unfold blank, validateField. intros ->. cbn [truthy negb].
  rewrite !andb_false_r, andb_true_r.
  by destruct (required f).
Qed.

Lemma validateField_other f :
  type f ≠ "email" → type f ≠ "tel" →
  validateField f =
    (negb (required f && negb (truthy (trim (value f)))),
     setFieldState f (negb (required f && negb (truthy (trim (value f)))))
       (if required f && negb (truthy (trim (value f)))
        then "This field is required" else "")).
Proof.
  intros He Ht. unfold validateField.
  rewrite !bool_decide_eq_false_2 by done. cbn [andb].
  by destruct (required f && negb (truthy (trim (value f)))).
Qed.

(** X1. A required field whose value is empty or consists of white space
    only is rejected, whatever its type: [validateField] returns false,
    marks the field invalid and shows 'This field is required' in its
    error element, when it has one. *)
Theorem required_blank_field_invalid (f : field) :
  required f = true →
  Forall (λ c, is_whitespace c = true) (value f) →
  (validateField f).1 = false ∧
  marked_invalid (validateField f).2 ∧
  errorElement (validateField f).2
    = (λ _, "This field is required") <$> errorElement f.
Proof.
  intros Hr Hb. apply trim_nil_iff in Hb.
  rewrite (validateField_blank f Hb), Hr. cbn [negb fst snd].
  split; [done |]. apply setFieldState_invalid.
Qed.

Lemma required_blank_field_invalid_witness :
  (validateField blank_required_field).1 = false ∧
  marked_invalid (validateField blank_required_field).2 ∧
  errorElement (validateField blank_required_field).2
    = Some "This field is required".
Proof.
  apply (required_blank_field_invalid blank_required_field).
  - reflexivity.
  - by vm_compute; repeat constructor.
Defined.

(** X2. A field that is not required and is left blank is accepted, also
    when its type is 'email' or 'tel': [validateField] returns true, marks
    the field valid and empties its error element. *)
Theorem optional_blank_field_valid (f : field) :
  required f = false →
  Forall (λ c, is_whitespace c = true) (value f) →
  (validateField f).1 = true ∧
  marked_valid (validateField f).2 ∧
  errorElement (validateField f).2 = (λ _, "") <$> errorElement f.
Proof.
  intros Hr Hb. apply trim_nil_iff in Hb.
  rewrite (validateField_blank f Hb), Hr. cbn [negb fst snd].
  split; [done |]. split; [apply setFieldState_valid | done].
Qed.

Lemma optional_blank_field_valid_witness :
  (validateField blank_optional_field).1 = true ∧
  marked_valid (validateField blank_optional_field).2 ∧
  errorElement (validateField blank_optional_field).2 = Some "".
Proof.
  apply (optional_blank_field_valid blank_optional_field).
  - reflexivity.
  - constructor.
Defined.

(** X3. A field of any type other than 'email' and 'tel' is only
    subject to the required check: it is accepted exactly when it is not
    required or its value is not blank. *)
Theorem other_field_valid_iff (f : field) :
  type f ≠ "email" → type f ≠ "tel" →
  ((validateField f).1 = true ↔ required f = false ∨ ¬ blank f).
Proof.
  intros He Ht. rewrite (validateField_other f He Ht). cbn [fst].
  unfold blank. rewrite negb_true_iff, andb_false_iff, negb_false_iff.
  by rewrite truthy_nonempty.
Qed.

Lemma other_field_valid_iff_witness :
  (validateField name_field).1 = true ↔
  required name_field = false ∨ ¬ blank name_field.
Proof. by apply (other_field_valid_iff name_field). Defined.

(** *** Marking *)

Lemma validateField_shape f :
  ∃ m, (validateField f).2 = setFieldState f (validateField f).1 m.
Proof. unfold validateField. cbn [fst snd]. by eexists. Qed.

Lemma setFieldState_keeps f b m :
  value (setFieldState f b m) = value f ∧
  type (setFieldState f b m) = type f ∧
  required (setFieldState f b m) = required f ∧
  (is_Some (errorElement (setFieldState f b m)) ↔ is_Some (errorElement f)) ∧
  (∀ c, c ≠ "is-valid" → c ≠ "is-invalid" →
        (c ∈ classList (setFieldState f b m) ↔ c ∈ classList f)).
Proof.
  destruct b; cbn [setFieldState value type required errorElement classList];
    (split; [done |]); (split; [done |]); (split; [done |]);
    (split; [apply fmap_is_Some |]); intros c H1 H2;
    rewrite elem_of_union, elem_of_difference, !elem_of_singleton; tauto.
Qed.

Lemma marks_exclusive f : marked_valid f → marked_invalid f → False.
Proof. intros [H1 _] [_ H2]. by apply H2. Qed.

(** X4. [validateField] touches nothing of a field but its two marks and
    its error text: value, type and required stay, every other class
    stays, and afterwards the field carries exactly one of 'is-valid' and
    'is-invalid', the one that agrees with the returned verdict. *)
Theorem validateField_marking (f : field) :
  value (validateField f).2 = value f ∧
  type (validateField f).2 = type f ∧
  required (validateField f).2 = required f ∧
  (is_Some (errorElement (validateField f).2) ↔ is_Some (errorElement f)) ∧
  (∀ c, c ≠ "is-valid" → c ≠ "is-invalid" →
        (c ∈ classList (validateField f).2 ↔ c ∈ classList f)) ∧
  (marked_valid (validateField f).2 ↔ (validateField f).1 = true) ∧
  (marked_invalid (validateField f).2 ↔ (validateField f).1 = false).
Proof.
  destruct (validateField_shape f) as [m ->].
  destruct (setFieldState_keeps f (validateField f).1 m)
    as (H1 & H2 & H3 & H4 & H5).
  do 5 (split; [done |]).
  destruct (validateField f).1.
  - pose proof (setFieldState_valid f m) as Hv. split.
    + split; [done | intros _; exact Hv].
    + split; [intros Hi; destruct (marks_exclusive _ Hv Hi) | done].
  - pose proof (setFieldState_invalid f m) as [Hi _]. split.
    + split; [intros Hv; destruct (marks_exclusive _ Hv Hi) | done].
    + split; [done | intros _; exact Hi].
Qed.

Lemma setFieldState_idem f b m :
  setFieldState (setFieldState f b m) b m = setFieldState f b m.
Proof.
  destruct f as [v ty r cl ee]. destruct b;
    cbn [setFieldState value type required errorElement classList].
  - f_equal; [| by destruct ee]. apply set_eq. intros c.
    repeat first [rewrite elem_of_union | rewrite elem_of_difference
                 | rewrite elem_of_singleton].
    intuition congruence.
  - f_equal; [| by destruct ee]. apply set_eq. intros c.
    repeat first [rewrite elem_of_union | rewrite elem_of_difference
                 | rewrite elem_of_singleton].
    intuition congruence.
Qed.

(** The verdict and the message depend on value, type and required
    only. *)
Lemma validateField_verdict f g :
  value f = value g → type f = type g → required f = required g →
  ∃ b m, validateField f = (b, setFieldState f b m) ∧
         validateField g = (b, setFieldState g b m).
Proof.
  intros Hv Ht Hr. unfold validateField. rewrite Hv, Ht, Hr.
  eexists _, _. split; reflexivity.
Qed.

(** X5. Validating a field again changes nothing: [validateField] on the
    field it has just marked returns the same verdict and leaves the
    field as it is. *)
Theorem validateField_idempotent (f : field) :
  validateField (validateField f).2 = validateField f.
Proof.
  destruct (validateField_marking f) as (Hv & Ht & Hr & _).
  destruct (validateField_verdict (validateField f).2 f Hv Ht Hr)
    as (b & m & E1 & E2).
  rewrite E1, E2. cbn [snd]. by rewrite setFieldState_idem.
Qed.

(** *** Forms *)

Lemma validateForm_foldl fs b0 l0 :
  foldl (λ acc fld,
           let r := validateField fld in (acc.1 && r.1, acc.2 ++ [r.2]))
        (b0, l0) fs
  = (b0 && forallb (λ f, (validateField f).1) fs,
     l0 ++ ((λ f, (validateField f).2) <$> fs)).
Proof.
  revert b0 l0. induction fs as [|f fs IH]; intros b0 l0; simpl.
  - by rewrite andb_true_r, app_nil_r.
  - rewrite IH. cbn [fst snd]. by rewrite andb_assoc, <- app_assoc.
Qed.

Lemma forallb_Forall {A} (p : A → bool) (l : list A) :
  forallb p l = true ↔ Forall (λ x, p x = true) l.
Proof.
  induction l as [|x l IH]; simpl; [split; [constructor | done] |].
  rewrite andb_true_iff, IH. split; [by intros []; constructor |].
  by inversion 1.
Qed.

(** X6. [validateForm] validates every field it is given, also after a
    failure (there is no early exit, so every failing field gets its
    mark and message), and reports success exactly when every field
    passes [validateField]. *)
Theorem validateForm_all (fs : list field) :
  (validateForm fs).2 = (λ f, (validateField f).2) <$> fs ∧
  ((validateForm fs).1 = true ↔ Forall (λ f, (validateField f).1 = true) fs).
Proof.
  unfold validateForm. rewrite validateForm_foldl. cbn [fst snd andb app].
  split; [done |]. apply forallb_Forall.
Qed.

Lemma forallb_false_Exists {A} (p : A → bool) (l : list A) :
  forallb p l = false ↔ Exists (λ x, p x = false) l.
Proof.
  induction l as [|x l IH]; simpl; [split; [done | inversion 1] |].
  rewrite andb_false_iff, IH. split.
  - intros [H|H]; [by left | by right].
  - inversion 1; auto.
Qed.

Lemma submit_isValid form :
  (validateForm (filter (λ f, required f = true) form)).1 = false ↔
  Exists (λ f, required f = true ∧ (validateField f).1 = false) form.
Proof.
  unfold validateForm. rewrite validateForm_foldl. cbn [fst andb].
  rewrite forallb_false_Exists, !Exists_exists.
  split.
  - intros (f & Hf & Hv). apply list_elem_of_filter in Hf as [Hr Hf]. eauto.
  - intros (f & Hf & Hr & Hv). exists f. split; [| done].
    by apply list_elem_of_filter.
Qed.

(** X7. Submitting a form: the submission is prevented exactly when some
    required control fails [validateField]; the optional controls are not
    looked at. When it is prevented, the focus goes to the first control
    of the form, in document order, that carries the class 'is-invalid',
    and there is one. When it is not prevented, nothing is focused. *)
Theorem submit_focuses_first_invalid (form : list field) :
  ((submit form).1.1 = true ↔
   Exists (λ f, required f = true ∧ (validateField f).1 = false) form) ∧
  (submit form).1.2
    = (λ f, if required f then (validateField f).2 else f) <$> form ∧
  ((submit form).1.1 = false → (submit form).2 = None) ∧
  ((submit form).1.1 = true →
   ∃ i f, (submit form).2 = Some i ∧
          (submit form).1.2 !! i = Some f ∧
          "is-invalid" ∈ classList f ∧
          ∀ j g, (submit form).1.2 !! j = Some g → j < i →
                 "is-invalid" ∉ classList g).
Proof.
  unfold submit.
  destruct (validateForm (filter (λ f, required f = true) form)).1 eqn:E;
    cbn [fst snd].
  - split; [| split; [done |]; split; [done | discriminate]].
    split; [discriminate |]. intros H. apply submit_isValid in H. congruence.
  - apply submit_isValid in E.
    split; [by split |]. split; [done |]. split; [discriminate |].
    intros _. unfold firstInvalid.
    set (form' := (λ f, if required f then (validateField f).2 else f) <$> form).
    destruct (list_find (λ f, "is-invalid" ∈ classList f) form')
      as [[i x]|] eqn:Ef.
    + apply list_find_Some in Ef as (Hi & Hx & Hmin).
      exists i, x. split; [done |]. split; [done |]. split; [done |].
      intros j g Hg Hj. by apply (Hmin j g).
    + exfalso. apply list_find_None in Ef.
      apply Exists_exists in E as (f & Hf & Hr & Hv).
      rewrite Forall_forall in Ef.
      assert (Hin : (validateField f).2 ∈ form').
      { subst form'. apply list_elem_of_fmap. exists f. by rewrite Hr. }
      assert (Hm : "is-invalid" ∈ classList (validateField f).2).
      { destruct (validateField_marking f) as (_ & _ & _ & _ & _ & _ & Hm).
        by apply Hm. }
      exact (Ef _ Hin Hm).
Qed.

(** The control that gets the focus need not be the one that failed: an
    optional control that an earlier blur left marked invalid comes
    first here. *)
Example submit_focuses_stale_mark :
  (submit [blank_optional_field; blank_required_field]).1.1 = true ∧
  (submit [blank_optional_field; blank_required_field]).2 = Some 0.
Proof. by vm_compute. Qed.

End FormHelpersMore.

(* ===================================================================== *)
(** ** Utility functions *)
(* ===================================================================== *)

Module UtilitiesSpec.
Import Utilities.

(** X8. [getCurrentBreakpoint] cuts the widths into five consecutive
    ranges at 640, 768, 1024 and 1280 pixels, a bound belonging to the
    range above it, so the breakpoint never gets narrower when the window
    gets wider. *)
Theorem getCurrentBreakpoint_ranges (width width' : Z) :
  (getCurrentBreakpoint width = "xs" ↔ (width < 640)%Z) ∧
  (getCurrentBreakpoint width = "mobile" ↔ (640 ≤ width < 768)%Z) ∧
  (getCurrentBreakpoint width = "tablet" ↔ (768 ≤ width < 1024)%Z) ∧
  (getCurrentBreakpoint width = "desktop" ↔ (1024 ≤ width < 1280)%Z) ∧
  (getCurrentBreakpoint width = "wide" ↔ (1280 ≤ width)%Z) ∧
  ((width ≤ width')%Z →
   breakpoint_rank (getCurrentBreakpoint width)
   ≤ breakpoint_rank (getCurrentBreakpoint width')).
Proof.
  unfold getCurrentBreakpoint, breakpoints_mobile, breakpoints_tablet,
    breakpoints_desktop, breakpoints_wide.
  destruct (Z.ltb_spec width 640); [| destruct (Z.ltb_spec width 768);
    [| destruct (Z.ltb_spec width 1024); [| destruct (Z.ltb_spec width 1280)]]].
  all: repeat (split; [split; [first [discriminate | lia] | first [done | lia]] |]).
  all: intros Hle.
  all: destruct (Z.ltb_spec width' 640); [| destruct (Z.ltb_spec width' 768);
    [| destruct (Z.ltb_spec width' 1024); [| destruct (Z.ltb_spec width' 1280)]]].
  all: first [lia | by vm_compute; lia].
Qed.

(** X9. After the resize listener of MobileNav has run, the mobile nav is
    open exactly when it was open before and the window is narrower than
    the desktop breakpoint: reaching 'desktop' or 'wide' closes an open
    nav, and no resize ever opens it. *)
Theorem resize_closes_from_desktop (s : Nav.state) (w : Z) :
  Nav.isOpen (Nav.step (Nav.ResizeSettled w) s) = true ↔
  Nav.isOpen s = true ∧ breakpoint_rank (getCurrentBreakpoint w) < 3.
Proof.
  destruct (getCurrentBreakpoint_ranges w w) as (Hx & Hm & Ht & Hd & Hw & _).
  cbn [Nav.step]. unfold Nav.desktop_breakpoint.
  destruct (Z.leb_spec 1024 w) as [Hge|Hlt].
  - assert (Hr : ¬ breakpoint_rank (getCurrentBreakpoint w) < 3).
    { destruct (Z.ltb_spec w 1280).
      - rewrite (proj2 Hd) by lia. vm_compute. lia.
      - rewrite (proj2 Hw) by lia. vm_compute. lia. }
    destruct (Nav.isOpen s) eqn:Eo; cbn [andb].
    + rewrite NavSpec.close_isOpen. split; [done | by intros [_ ?]].
    + rewrite Eo. split; [done | by intros [? _]].
  - rewrite andb_false_r.
    assert (Hr : breakpoint_rank (getCurrentBreakpoint w) < 3).
    { destruct (Z.ltb_spec w 640); [rewrite (proj2 Hx) by lia; vm_compute; lia |].
      destruct (Z.ltb_spec w 768); [rewrite (proj2 Hm) by lia; vm_compute; lia |].
      rewrite (proj2 Ht) by lia. vm_compute. lia. }
    split; [by intros -> | by intros [-> _]].
Qed.

(** *** Rounding to a double *)

Lemma round_half_even_spec n d :
  (0 < d)%Z →
  let m := round_half_even n d in
  ((2 * m - 1) * d ≤ 2 * n ≤ (2 * m + 1) * d)%Z ∧
  ((2 * n = (2 * m + 1) * d)%Z → Z.even m = true) ∧
  ((2 * n = (2 * m - 1) * d)%Z → Z.even m = true).
Proof.
  intros Hd. unfold round_half_even.
  pose proof (Z.div_mod n d ltac:(lia)) as Hn.
  pose proof (Z.mod_pos_bound n d Hd) as Hr.
  set (f := (n / d)%Z) in *. set (r := (n mod d)%Z) in *.
  destruct (Z.compare_spec (2 * r) d) as [He|Hl|Hg]; cbn zeta.
  - destruct (Z.even f) eqn:Ef.
    + split; [nia |]. split; [done | nia].
    + split; [nia |]. split; [nia |]. intros _.
      rewrite Z.add_1_r, Z.even_succ, <- Z.negb_even, Ef. done.
  - split; [nia |]. split; nia.
  - split; [nia |]. split; nia.
Qed.

Lemma round_half_even_mono n1 d1 n2 d2 :
  (0 < d1)%Z → (0 < d2)%Z → (n1 * d2 ≤ n2 * d1)%Z →
  (round_half_even n1 d1 ≤ round_half_even n2 d2)%Z.
Proof.
  intros H1 H2 Hle.
  destruct (round_half_even_spec n1 d1 H1) as ([Hlo1 _] & _ & Ht1).
  destruct (round_half_even_spec n2 d2 H2) as ([_ Hhi2] & Ht2 & _).
  cbn zeta in *.
  set (m1 := round_half_even n1 d1) in *.
  set (m2 := round_half_even n2 d2) in *.
  assert (HA : ((2 * m1 - 1) * (d1 * d2) ≤ 2 * (n1 * d2))%Z) by nia.
  assert (HB : (2 * (n2 * d1) ≤ (2 * m2 + 1) * (d1 * d2))%Z) by nia.
  assert (Hpos : (0 < d1 * d2)%Z) by nia.
  assert (HC : ((2 * m1 - 1) * (d1 * d2) ≤ (2 * m2 + 1) * (d1 * d2))%Z) by lia.
  apply Z.mul_le_mono_pos_r in HC; [| done].
  destruct (Z.le_gt_cases m1 m2) as [|Hgt]; [done |].
  assert (Hm : m1 = (m2 + 1)%Z) by lia.
  assert (E1 : (2 * n1 = (2 * m1 - 1) * d1)%Z).
  { assert (((2 * m1 - 1) * d1) * d2 = (2 * n1) * d2)%Z by nia.
    apply Z.mul_reg_r in H; lia. }
  assert (E2 : (2 * n2 = (2 * m2 + 1) * d2)%Z).
  { assert (((2 * m2 + 1) * d2) * d1 = (2 * n2) * d1)%Z by nia.
    apply Z.mul_reg_r in H; lia. }
  specialize (Ht1 E1). specialize (Ht2 E2).
  rewrite Hm, Z.add_1_r, Z.even_succ, <- Z.negb_even, Ht2 in Ht1. done.
Qed.

Lemma round_half_even_multiple k d :
  (0 < d)%Z → round_half_even (k * d) d = k.
Proof.
  intros Hd. unfold round_half_even.
  rewrite Z.div_mul, Z.mod_mul by lia.
  by destruct (Z.compare_spec (2 * 0) d); [lia | | lia].
Qed.

Lemma round_half_even_le n d k :
  (0 < d)%Z → (n ≤ k * d)%Z → (round_half_even n d ≤ k)%Z.
Proof.
  intros Hd Hn. rewrite <- (round_half_even_multiple k d Hd).
  apply round_half_even_mono; [done | done | nia].
Qed.

Lemma round_half_even_ge n d k :
  (0 < d)%Z → (k * d ≤ n)%Z → (k ≤ round_half_even n d)%Z.
Proof.
  intros Hd Hn. rewrite <- (round_half_even_multiple k d Hd) at 1.
  apply round_half_even_mono; [done | done | nia].
Qed.

Lemma div_mono_cross a b c d :
  (0 < b)%Z → (0 < d)%Z → (a * d ≤ c * b)%Z → (a / b ≤ c / d)%Z.
Proof.
  intros Hb Hd Hle. apply Z.div_le_lower_bound; [done |].
  pose proof (Z.mul_div_le a b Hb).
  assert ((b * (a / b)) * d ≤ c * b)%Z by nia.
  nia.
Qed.

(** The magnitudes: rounding keeps the order. *)
Lemma round_magnitude_mono n1 d1 n2 d2 :
  (0 ≤ n1)%Z → (n1 * Zpos d2 ≤ n2 * Zpos d1)%Z →
  (round_magnitude n1 d1 ≤ round_magnitude n2 d2)%Z.
Proof.
  intros Hn1 Hle. unfold round_magnitude.
  set (U := Zpos smallest_unit).
  assert (HU : (0 < U)%Z) by done.
  set (Y1 := (n1 * U)%Z). set (Y2 := (n2 * U)%Z).
  set (F1 := (Y1 / Zpos d1)%Z). set (F2 := (Y2 / Zpos d2)%Z).
  assert (HY : (Y1 * Zpos d2 ≤ Y2 * Zpos d1)%Z) by (subst Y1 Y2; nia).
  assert (HF : (F1 ≤ F2)%Z) by (by apply div_mono_cross).
  assert (HF1 : (0 ≤ F1)%Z) by (apply Z.div_pos; subst Y1; lia).
  pose proof (Z.log2_le_mono F1 F2 HF) as Hlog.
  set (e1 := Z.max 0 (Z.log2 F1 - 52)). set (e2 := Z.max 0 (Z.log2 F2 - 52)).
  assert (He1 : (0 ≤ e1)%Z) by lia. assert (He2 : (0 ≤ e2)%Z) by lia.
  assert (He : (e1 ≤ e2)%Z) by lia.
  assert (Hp1 : (0 < 2 ^ e1)%Z) by (by apply Z.pow_pos_nonneg).
  assert (Hp2 : (0 < 2 ^ e2)%Z) by (by apply Z.pow_pos_nonneg).
  destruct (Z.eq_dec e1 e2) as [Heq|Hne].
  - rewrite <- Heq. apply Z.mul_le_mono_nonneg_r; [lia |].
    apply round_half_even_mono; [nia | nia | nia].
  - assert (Hlt : (e1 + 1 ≤ e2)%Z) by lia.
    (* the upper side of the lower binade *)
    assert (H1 : (round_half_even Y1 (Zpos d1 * 2 ^ e1) ≤ 2 ^ 53)%Z).
    { apply round_half_even_le; [nia |].
      assert (HF1' : (F1 < 2 ^ (e1 + 53))%Z).
      { destruct (Z.eq_dec F1 0%Z) as [HF0|Hnz].
        - rewrite HF0. apply Z.pow_pos_nonneg; lia.
        - pose proof (Z.log2_spec F1 ltac:(lia)) as [_ Hs].
          eapply Z.lt_le_trans; [exact Hs |].
          apply Z.pow_le_mono_r; lia. }
      assert (HY1 : (Y1 < (F1 + 1) * Zpos d1)%Z).
      { pose proof (Z.div_mod Y1 (Zpos d1) ltac:(lia)).
        pose proof (Z.mod_pos_bound Y1 (Zpos d1) ltac:(lia)).
        subst F1. nia. }
      rewrite Z.pow_add_r in HF1' by lia. nia. }
    (* the lower side of the upper binade *)
    assert (H2 : (2 ^ 52 ≤ round_half_even Y2 (Zpos d2 * 2 ^ e2))%Z).
    { apply round_half_even_ge; [nia |].
      assert (He2' : e2 = (Z.log2 F2 - 52)%Z) by lia.
      assert (HF2pos : (0 < F2)%Z).
      { destruct (Z.le_gt_cases F2 0%Z) as [Hn|]; [| done].
        rewrite (Z.log2_nonpos F2 Hn) in He2'. lia. }
      pose proof (Z.log2_spec F2 HF2pos) as [Hs _].
      replace (Z.log2 F2) with (e2 + 52)%Z in Hs by lia.
      rewrite Z.pow_add_r in Hs by lia.
      pose proof (Z.mul_div_le Y2 (Zpos d2) ltac:(lia)).
      fold F2 in H. nia. }
    transitivity (2 ^ 53 * 2 ^ e1)%Z; [nia |].
    transitivity (2 ^ 52 * 2 ^ e2)%Z; [| nia].
    replace e2 with ((e2 - e1 - 1) + 1 + e1)%Z by lia.
    rewrite !Z.pow_add_r by lia.
    assert (0 < 2 ^ (e2 - e1 - 1))%Z by (apply Z.pow_pos_nonneg; lia).
    change (2 ^ 53)%Z with (2 ^ 52 * 2)%Z. change (2 ^ 1)%Z with 2%Z. nia.
Qed.

Lemma round_magnitude_nonneg n d : (0 ≤ n)%Z → (0 ≤ round_magnitude n d)%Z.
Proof.
  intros Hn. unfold round_magnitude.
  set (e := Z.max 0 _). assert (0 < 2 ^ e)%Z by (apply Z.pow_pos_nonneg; lia).
  apply Z.mul_nonneg_nonneg; [| lia].
  apply (round_half_even_ge _ _ 0%Z); [nia |]. nia.
Qed.

Lemma round_double_mono x y : (x <= y)%Q → (round_double x <= round_double y)%Q.
Proof.
  unfold Qle, round_double. destruct x as [nx dx], y as [ny dy]. cbn [Qnum Qden].
  intros Hle.
  destruct nx as [|nx|nx], ny as [|ny|ny]; try lia; cbn [Qnum Qden Qopp];
    generalize (Pos2Z.is_pos smallest_unit);
    generalize (Z.pos smallest_unit); intros U HU.
  - pose proof (round_magnitude_nonneg (Z.pos ny) dy ltac:(lia)). nia.
  - apply Z.mul_le_mono_nonneg_r; [lia |].
    by apply round_magnitude_mono.
  - pose proof (round_magnitude_nonneg (Z.pos nx) dx ltac:(lia)). nia.
  - pose proof (round_magnitude_nonneg (Z.pos nx) dx ltac:(lia)).
    pose proof (round_magnitude_nonneg (Z.pos ny) dy ltac:(lia)). nia.
  - apply Z.mul_le_mono_nonneg_r; [lia |].
    assert (round_magnitude (Z.pos ny) dy ≤ round_magnitude (Z.pos nx) dx)%Z.
    { apply round_magnitude_mono; lia. }
    lia.
Qed.

Lemma smallest_unit_pow : Z.pos smallest_unit = (2 ^ 1074)%Z.
Proof. unfold smallest_unit. by rewrite Pos2Z.inj_pow. Qed.

(** A whole number below 2^53 is a double: rounding leaves it alone. *)
Lemma round_magnitude_integer n :
  (0 < n < 2 ^ 53)%Z → round_magnitude n 1 = (n * Z.pos smallest_unit)%Z.
Proof.
  intros [Hpos Hlt]. unfold round_magnitude. rewrite smallest_unit_pow.
  rewrite Z.div_1_r, Z.mul_1_l.
  rewrite Z.log2_mul_pow2 by lia.
  assert (Hlog : (0 ≤ Z.log2 n < 53)%Z).
  { split; [apply Z.log2_nonneg | by apply Z.log2_lt_pow2]. }
  rewrite Z.max_r by lia.
  set (e := (1074 + Z.log2 n - 52)%Z).
  assert (E : (2 ^ 1074 = 2 ^ (52 - Z.log2 n) * 2 ^ e)%Z).
  { rewrite <- Z.pow_add_r by lia. f_equal. lia. }
  rewrite E at 1. rewrite Z.mul_assoc.
  rewrite round_half_even_multiple by (apply Z.pow_pos_nonneg; lia).
  rewrite <- Z.mul_assoc. by rewrite <- E.
Qed.

Lemma round_double_integer (h : Z) :
  (- 2 ^ 53 < h < 2 ^ 53)%Z → (round_double (inject_Z h) == inject_Z h)%Q.
Proof.
  intros Hh. unfold round_double, inject_Z. cbn [Qnum Qden].
  destruct h as [|n|n]; [done | |].
  - rewrite round_magnitude_integer by lia. unfold Qeq. cbn [Qnum Qden]. lia.
  - rewrite round_magnitude_integer by lia. unfold Qeq. cbn [Qnum Qden Qopp]. lia.
Qed.

Lemma round_double_proper x y : (x == y)%Q → (round_double x == round_double y)%Q.
Proof.
  intros E. apply Qle_antisym; apply round_double_mono; rewrite E; apply Qle_refl.
Qed.

(** A tie goes to the double with an even last bit, above 2^53 the
    doubles are two apart, half of the smallest positive double is
    rounded to 0, and 720 + 0.1 is the double that 720.1 stands for. *)
Example round_double_examples :
  Qeq_bool (round_double (inject_Z (2 ^ 53 + 1))) (inject_Z (2 ^ 53)) = true ∧
  Qeq_bool (round_double (inject_Z (2 ^ 53 + 3))) (inject_Z (2 ^ 53 + 4)) = true ∧
  Qeq_bool (round_double (1 # (2 * smallest_unit))) 0 = true ∧
  Qeq_bool (round_double (3 # (2 * smallest_unit))) (2 # smallest_unit) = true ∧
  Qeq_bool (add 720 tenth) seven_twenty_and_a_tenth = true.
Proof. repeat split; by vm_compute. Qed.

(** *** isInViewport *)

Lemma ge_spec a b : ge a b = true ↔ (b <= a)%Q.
Proof. apply Qle_bool_iff. Qed.

Lemma le_spec a b : le a b = true ↔ (a <= b)%Q.
Proof. apply Qle_bool_iff. Qed.

Lemma isInViewport_spec v r offset :
  isInViewport v r offset = true ↔
  (- offset <= top r)%Q ∧ (0 <= left r)%Q ∧
  (bottom r <=
   add (inject_Z (or_number (innerHeight v) (clientHeight v))) offset)%Q ∧
  (right r <= inject_Z (or_number (innerWidth v) (clientWidth v)))%Q.
Proof.
  unfold isInViewport. rewrite !andb_true_iff, !ge_spec, !le_spec. tauto.
Qed.

(** X10. The offset of [isInViewport] only relaxes the vertical test: an
    element that counts as visible with some offset also does with every
    larger one (the rounding of the sum of the window height and the
    offset keeps the order), and whatever the offset a visible element
    lies between the left and right edge of the window. With the default
    offset 0 the test is exact: the box of the element lies inside the
    window. *)
Theorem isInViewport_offset (v : viewport) (r : rect) (offset offset' : Q) :
  ((offset <= offset')%Q →
   isInViewport v r offset = true → isInViewport v r offset' = true) ∧
  (isInViewport v r offset = true →
   (0 <= left r)%Q ∧
   (right r <= inject_Z (or_number (innerWidth v) (clientWidth v)))%Q) ∧
  ((- 2 ^ 53 < or_number (innerHeight v) (clientHeight v) < 2 ^ 53)%Z →
   (isInViewport v r 0 = true ↔
    (0 <= top r)%Q ∧ (0 <= left r)%Q ∧
    (bottom r <= inject_Z (or_number (innerHeight v) (clientHeight v)))%Q ∧
    (right r <= inject_Z (or_number (innerWidth v) (clientWidth v)))%Q)).
Proof.
  split; [| split].
  - intros Ho. rewrite !isInViewport_spec. intros (Ht & Hl & Hb & Hr).
    repeat split; try done.
    + eapply Qle_trans; [| exact Ht]. by apply Qopp_le_compat.
    + eapply Qle_trans; [exact Hb |]. unfold add.
      apply round_double_mono, Qplus_le_r, Ho.
  - rewrite isInViewport_spec. by intros (_ & Hl & _ & Hr).
  - intros Hh. rewrite isInViewport_spec. unfold add.
    assert (E : (round_double
                   (inject_Z (or_number (innerHeight v) (clientHeight v)) + 0)
                 == inject_Z (or_number (innerHeight v) (clientHeight v)))%Q).
    { rewrite (round_double_proper _ _ (Qplus_0_r _)).
      by apply round_double_integer. }
    rewrite E. done.
Qed.

Lemma isInViewport_offset_witness :
  isInViewport desktop_window box 80 = true.
Proof.
  destruct (isInViewport_offset desktop_window box 50 80) as (H & _ & _).
  apply H; by vm_compute.
Defined.

(** The sum is rounded: 720 + 0.1 is the double that 720.1 stands for,
    although the exact sum is smaller, so a box that ends there counts
    as visible. *)
Example isInViewport_rounds :
  isInViewport desktop_window box_at_edge tenth = true ∧
  ¬ (bottom box_at_edge <= 720 + tenth)%Q.
Proof. split; [by vm_compute | by vm_compute]. Qed.

(** *** debounce *)

Lemma runTasks_app {A} (ts ts' : list (task A)) d :
  runTasks (ts ++ ts') d = runTasks ts' (runTasks ts d).
Proof. apply foldl_app. Qed.

Lemma timerDelay_in_range w : (0 ≤ w < 2 ^ 31)%Z → timerDelay w = w.
Proof.
  intros Hw. unfold timerDelay, toInt32.
  rewrite Z.mod_small by lia. lia.
Qed.

Lemma chronological_bound {A} (t0 : Z) (ts : list (task A)) x :
  chronological t0 ts → x ∈ ts → (t0 ≤ time_of x)%Z.
Proof.
  revert t0. induction ts as [|y ts IH]; intros t0 Hc Hx.
  - by apply elem_of_nil in Hx.
  - destruct Hc as [Hy Hc]. apply elem_of_cons in Hx as [->|Hx]; [done |].
    specialize (IH _ Hc Hx). lia.
Qed.

(** In a burst that goes on, the call that comes next is less than the
    delay after the latest call, and later than what comes before it. *)
Lemma next_call_soon {A} delay tl tx (ts : list (task A)) t a :
  chronological tx (ts ++ [Call t a]) →
  dense delay (Some tl) (ts ++ [Call t a]) →
  (tx < tl + delay)%Z.
Proof.
  revert tx. induction ts as [|[tc ac|ty] ts IH]; intros tx; cbn.
  - intros [Ht _] [Hd _]. specialize (Hd tl eq_refl). lia.
  - intros [Ht _] [Hd _]. specialize (Hd tl eq_refl). lia.
  - intros [Ht Hc] Hd. specialize (IH ty Hc Hd). lia.
Qed.

Lemma burst_pending {A} (w : Z) (ts : list (task A)) (t : Z) (a : A)
    (t0 : Z) (last : option Z) (d : debounced A) :
  wait d = w → calls d = [] →
  match last with
  | Some tl => ∃ al, timeout d = Some ((tl + timerDelay w)%Z, al)
  | None => timeout d = None
  end →
  chronological t0 (ts ++ [Call t a]) →
  dense (timerDelay w) last (ts ++ [Call t a]) →
  wait (runTasks (ts ++ [Call t a]) d) = w ∧
  calls (runTasks (ts ++ [Call t a]) d) = [] ∧
  timeout (runTasks (ts ++ [Call t a]) d) = Some ((t + timerDelay w)%Z, a).
Proof.
  revert t0 last d.
  induction ts as [|[tc ac|ty] ts IH]; intros t0 last d Hw Hcalls Hp Hc Hd.
  - cbn. by rewrite Hw.
  - destruct Hc as [_ Hc]. destruct Hd as [_ Hd].
    change (runTasks ((Call tc ac :: ts) ++ [Call t a]) d)
      with (runTasks (ts ++ [Call t a]) (executedFunction tc ac d)).
    apply (IH tc (Some tc)); try done.
    cbn. rewrite Hw. by eexists.
  - destruct Hc as [_ Hc]. change (dense (timerDelay w) last (ts ++ [Call t a])) in Hd.
    change (runTasks ((Timer ty :: ts) ++ [Call t a]) d)
      with (runTasks (ts ++ [Call t a]) (runTask (Timer ty) d)).
    assert (Hsame : runTask (Timer ty) d = d).
    { cbn. destruct last as [tl|]; [| by rewrite Hp].
      destruct Hp as [al ->].
      pose proof (next_call_soon _ tl ty ts t a Hc Hd).
      destruct (Z.leb_spec (tl + timerDelay w) ty); [lia | done]. }
    rewrite Hsame. by apply (IH ty last).
Qed.

Lemma timers_idle {A} (post : list (task A)) (d : debounced A) :
  Forall (λ x, isCall x = false) post → timeout d = None →
  runTasks post d = d.
Proof.
  induction 1 as [|[now args|now] post Hx _ IH]; intros Ht; [done | done |].
  cbn [runTasks foldl runTask]. rewrite Ht. by apply IH.
Qed.

(** With a timer pending and no further call, the function runs once,
    when the event loop first looks at the timers at the due time or
    later. *)
Lemma timers_after_call {A} (post : list (task A)) (d : debounced A) due a :
  Forall (λ x, isCall x = false) post →
  timeout d = Some (due, a) → calls d = [] →
  calls (runTasks post d)
  = match first_due due post with
    | Some now => [(now, a)]
    | None => []
    end.
Proof.
  unfold first_due.
  induction 1 as [|[now args|now] post Hx Hpost IH]; intros Ht Hc;
    [done | done |].
  cbn [runTasks foldl runTask]. rewrite Ht.
  destruct (Z.leb_spec due now) as [Hle|Hgt].
  - rewrite filter_cons_True by done. cbn [head fmap option_fmap option_map].
    fold (runTasks post (later a now d)).
    rewrite timers_idle by done. cbn. by rewrite Hc.
  - rewrite filter_cons_False by (cbn; lia). by apply IH.
Qed.

(** X11. Calls of a debounced function that follow each other by less
    than the delay are answered by one call of the function: none while
    the calls keep coming, whenever the event loop looks at the timers in
    between, and exactly one after the last call, made when the event
    loop first looks at the timers once the delay has passed and with the
    arguments of the last call. The delay is [wait] when that is a
    number of milliseconds below 2^31. *)
Theorem debounce_burst_runs_once {A} (w t0 : Z) (ts : list (task A))
    (t : Z) (a : A) (post : list (task A)) :
  chronological t0 (ts ++ [Call t a]) →
  dense (timerDelay w) None (ts ++ [Call t a]) →
  Forall (λ x, isCall x = false) post →
  calls (runTasks (ts ++ [Call t a]) (debounce w)) = [] ∧
  calls (runTasks (ts ++ Call t a :: post) (debounce w))
  = match first_due (t + timerDelay w) post with
    | Some now => [(now, a)]
    | None => []
    end ∧
  ((0 ≤ w < 2 ^ 31)%Z → timerDelay w = w).
Proof.
  intros Hc Hd Hpost.
  destruct (burst_pending w ts t a t0 None (debounce w) eq_refl eq_refl
              eq_refl Hc Hd) as (Hw & Hcalls & Ht).
  split; [done |]. split; [| apply timerDelay_in_range].
  replace (ts ++ Call t a :: post) with ((ts ++ [Call t a]) ++ post)
    by (by rewrite <- app_assoc).
  rewrite runTasks_app. by apply timers_after_call.
Qed.

Lemma debounce_burst_runs_once_witness :
  calls (runTasks (resizing ++ Call 240 "c" :: [Timer 300; Timer 400; Timer 500])
           (debounce 150))
  = [(400%Z, "c")].
Proof.
  destruct (debounce_burst_runs_once 150 0 resizing 240 "c"
              [Timer 300; Timer 400; Timer 500])
    as (_ & H & _).
  - unfold resizing. cbn [app chronological time_of]. lia.
  - unfold resizing. cbn [app dense]. change (timerDelay 150) with 150%Z.
    repeat split; try done; intros ? [= <-]; lia.
  - by repeat constructor.
  - rewrite H. by vm_compute.
Defined.

(** A delay of 2^31 milliseconds wraps around to a negative number,
    which counts as 0: the function runs as soon as the event loop looks
    at the timers. *)
Example debounce_delay_wraps :
  timerDelay (2 ^ 31) = 0%Z ∧
  calls (runTasks [Call 0 "a"; Timer 0] (debounce (2 ^ 31))) = [(0%Z, "a")].
Proof. by vm_compute. Qed.

(** What is known of a debounced function after the tasks [ts]. *)
Lemma runTasks_inv {A} (w : Z) (ts : list (task A)) :
  let d := runTasks ts (debounce w) in
  wait d = w ∧
  (∀ due a, timeout d = Some (due, a) →
     ∃ pre mid t0, ts = pre ++ Call t0 a :: mid ∧
                   Forall (λ x, isCall x = false) mid ∧
                   due = (t0 + timerDelay w)%Z) ∧
  (∀ t a, (t, a) ∈ calls d →
     ∃ pre mid post t0, ts = pre ++ Call t0 a :: mid ++ Timer t :: post ∧
                        Forall (λ x, isCall x = false) mid ∧
                        (t0 + timerDelay w ≤ t)%Z) ∧
  length (calls d) + (if timeout d is Some _ then 1 else 0)
  ≤ length (filter (λ x, isCall x = true) ts).
Proof.
  induction ts as [|x ts IH] using rev_ind.
  - cbn. split; [done |]. split; [done |]. split; [| lia].
    intros t a H. by apply elem_of_nil in H.
  - cbn zeta in *. rewrite runTasks_app. cbn [runTasks foldl].
    set (d := runTasks ts (debounce w)) in *.
    destruct IH as (Hw & Ht & Hc & Hl).
    assert (Hkeep : ∀ t a, (t, a) ∈ calls d →
              ∃ pre mid post t0,
                ts ++ [x] = pre ++ Call t0 a :: mid ++ Timer t :: post ∧
                Forall (λ x, isCall x = false) mid ∧
                (t0 + timerDelay w ≤ t)%Z).
    { intros t a Hin. destruct (Hc t a Hin) as (pre & mid & post & t0 & -> & Hm & Hle).
      exists pre, mid, (post ++ [x]), t0. split; [| done].
      by rewrite <- !app_assoc, <- !app_comm_cons, <- app_assoc. }
    rewrite filter_app, length_app.
    destruct x as [now args|now].
    + cbn [runTask executedFunction wait timeout calls].
      split; [done |]. split; [| split].
      * intros due a [= <- <-]. exists ts, [], now.
        rewrite Hw. by repeat split.
      * exact Hkeep.
      * rewrite filter_cons_True by done. cbn [length filter].
        destruct (timeout d); lia.
    + cbn [runTask]. rewrite filter_cons_False by done. cbn [filter length].
      destruct (timeout d) as [[due a]|] eqn:E.
      * destruct (Ht due a eq_refl) as (pre & mid & t0 & Hts & Hm & Hdue).
        destruct (Z.leb_spec due now) as [Hle|Hgt].
        -- cbn [later wait timeout calls].
           split; [done |]. split; [done |]. split.
           ++ intros t a'. rewrite elem_of_app, list_elem_of_singleton.
              intros [Hin|[= -> ->]]; [by apply Hkeep |].
              exists pre, mid, [], t0. rewrite Hts.
              split; [by rewrite <- app_assoc | split; [done | lia]].
           ++ rewrite length_app. cbn [length]. lia.
        -- rewrite E. split; [done |]. split; [| split; [exact Hkeep | lia]].
           intros due' a' [= <- <-]. exists pre, (mid ++ [Timer now]), t0.
           rewrite Hts. split; [by rewrite <- app_assoc |].
           split; [| done]. apply Forall_app. split; [done |].
           by repeat constructor.
      * rewrite E. split; [done |]. split; [done |].
        split; [exact Hkeep | lia].
Qed.

(** X12. Whatever the tasks and their times, a debounced function never
    runs more often than it was called, and each of its runs is made by
    a timer task that comes after a call with the same arguments, at
    least the delay later, with no other call in between. *)
Theorem debounce_runs_come_from_calls {A} (w : Z) (ts : list (task A)) :
  length (calls (runTasks ts (debounce w)))
  ≤ length (filter (λ x, isCall x = true) ts) ∧
  ∀ t a, (t, a) ∈ calls (runTasks ts (debounce w)) →
         ∃ pre mid post t0,
           ts = pre ++ Call t0 a :: mid ++ Timer t :: post ∧
           Forall (λ x, isCall x = false) mid ∧
           (t0 + timerDelay w ≤ t)%Z.
Proof.
  destruct (runTasks_inv w ts) as (_ & _ & Hc & Hl).
  split; [lia | exact Hc].
Qed.

End UtilitiesSpec.

(* ===================================================================== *)
(** ** MobileNav and DesktopNav: keyboard behaviour *)
(* ===================================================================== *)

Module NavMore.
Import Nav NavSpec.

(** *** Frames *)

Lemma same_nav_refl s : same_nav s s.
Proof. by repeat split. Qed.

Lemma same_nav_trans s1 s2 s3 :
  same_nav s1 s2 → same_nav s2 s3 → same_nav s1 s3.
Proof.
  unfold same_nav. intros (?&?&?&?&?&?&?&?&?) (?&?&?&?&?&?&?&?&?).
  repeat split; congruence.
Qed.

Lemma focus_nav e s : same_nav s (focus e s).
Proof. unfold focus. destruct (focusable e); by repeat split. Qed.

Lemma toggleDropdown_nav i b s : same_nav s (toggleDropdown i b s).
Proof. by repeat split. Qed.

Lemma handleTabKey_nav k sh trap s : same_nav s (handleTabKey k sh trap s).
Proof.
  unfold handleTabKey. destruct trap as [[f|] [l|]];
    repeat case_match; auto using focus_nav, same_nav_refl.
Qed.

Lemma tabTraps_nav k sh traps s :
  same_nav s (foldl (λ s trap, handleTabKey k sh trap s) s traps).
Proof.
  revert s. induction traps as [|t traps IH]; intros s; simpl.
  - apply same_nav_refl.
  - eapply same_nav_trans; [apply handleTabKey_nav | apply IH].
Qed.

Lemma linkKeydown_nav i k s : same_nav s (linkKeydown i k s).
Proof. unfold linkKeydown, focus. repeat case_match; by repeat split. Qed.

Lemma dropdownKeydown_nav i k s : same_nav s (dropdownKeydown i k s).
Proof. unfold dropdownKeydown, focus. repeat case_match; by repeat split. Qed.

(** *** What [open] and [close] do to the traps and the scroll lock *)

Lemma open_traps s :
  tabTraps (open s)
  = tabTraps s ++ [(head (navFocusable s), last (navFocusable s))] ∧
  bodyOverflow (open s) = "hidden" ∧
  navFocusable (open s) = navFocusable s.
Proof. by_fields s. by destruct nf as [|[] ?]. Qed.

Lemma close_traps s :
  tabTraps (close s) = tabTraps s ∧
  bodyOverflow (close s) = "" ∧
  navFocusable (close s) = navFocusable s.
Proof. by_fields s. by destruct lf as [[]|]. Qed.

(** *** The invariant of the focus traps *)

Lemma same_nav_trap_inv s s' : same_nav s s' → trap_inv s → trap_inv s'.
Proof.
  intros (Ho & _ & _ & _ & _ & Hb & Hn & _ & Ht). unfold trap_inv.
  by rewrite Ho, Hb, Hn, Ht.
Qed.

Lemma open_trap_inv s : trap_inv s → trap_inv (open s).
Proof.
  intros [Hf _]. destruct (open_traps s) as (Ht & Hb & Hn).
  unfold trap_inv. rewrite Ht, Hb, Hn. split.
  - apply Forall_app. split; [done | by constructor].
  - intros _. split; [| done]. by destruct (tabTraps s).
Qed.

Lemma close_trap_inv s : trap_inv s → trap_inv (close s).
Proof.
  intros [Hf _]. destruct (close_traps s) as (Ht & _ & Hn).
  unfold trap_inv. rewrite Ht, Hn, close_isOpen. by split.
Qed.

Lemma step_trap_inv e s : trap_inv s → trap_inv (step e s).
Proof.
  intros Hs. destruct e as [| | |w|target k sh| | |i b]; simpl.
  - unfold toggle. destruct (isOpen s);
      [by apply close_trap_inv | by apply open_trap_inv].
  - destruct (closeButton s); [by apply close_trap_inv | done].
  - by apply close_trap_inv.
  - case_match; [by apply close_trap_inv | done].
  - eapply same_nav_trap_inv; [apply tabTraps_nav |].
    set (s1 := match target with
               | TriggerLink i => linkKeydown i k s
               | MenuLink i _ => dropdownKeydown i k s
               | _ => s
               end).
    assert (H1 : trap_inv s1).
    { subst s1. destruct target; try done.
      - eapply same_nav_trap_inv; [apply linkKeydown_nav | done].
      - eapply same_nav_trap_inv; [apply dropdownKeydown_nav | done]. }
    destruct (bool_decide (k = Escape) && isOpen s1);
      [by apply close_trap_inv | done].
  - by apply open_trap_inv.
  - by apply close_trap_inv.
  - eapply same_nav_trap_inv; [apply toggleDropdown_nav | done].
Qed.

Lemma reachable_trap_inv s : reachable s → trap_inv s.
Proof.
  induction 1 as [s Hl|s e _ IH]; [| by apply step_trap_inv].
  destruct Hl as (Ho & _ & _ & Ht & _). unfold trap_inv.
  rewrite Ho, Ht. split; [constructor | done].
Qed.

(** *** Keys that the listeners ignore *)

Lemma linkKeydown_other i k s :
  k ≠ Enter → k ≠ Space → k ≠ ArrowDown → linkKeydown i k s = s.
Proof.
  intros H1 H2 H3. unfold linkKeydown.
  destruct (navItems s !! i); [| done].
  by rewrite !bool_decide_eq_false_2 by done.
Qed.

Lemma dropdownKeydown_other i k s :
  k ≠ ArrowDown → k ≠ ArrowUp → k ≠ Escape → dropdownKeydown i k s = s.
Proof.
  intros H1 H2 H3. unfold dropdownKeydown.
  destruct (navItems s !! i); [| done].
  by rewrite !bool_decide_eq_false_2 by done.
Qed.

Lemma handleTabKey_closed k sh trap s :
  isOpen s = false → handleTabKey k sh trap s = s.
Proof. intros Ho. unfold handleTabKey. destruct trap. by rewrite Ho. Qed.

Lemma tabTraps_closed k sh traps s :
  isOpen s = false → foldl (λ s trap, handleTabKey k sh trap s) s traps = s.
Proof.
  intros Ho. induction traps as [|t traps IH]; simpl; [done |].
  by rewrite handleTabKey_closed.
Qed.

Lemma handleTabKey_other k sh trap s :
  k ≠ Tab → handleTabKey k sh trap s = s.
Proof.
  intros Hk. unfold handleTabKey. destruct trap.
  by rewrite (bool_decide_eq_false_2 _ Hk), orb_true_r.
Qed.

Lemma tabTraps_other k sh traps s :
  k ≠ Tab → foldl (λ s trap, handleTabKey k sh trap s) s traps = s.
Proof.
  intros Hk. induction traps as [|t traps IH]; simpl; [done |].
  by rewrite handleTabKey_other.
Qed.

(** X16. While the mobile nav is closed, a key pressed on an element that
    is neither a dropdown trigger nor a link of a dropdown changes
    nothing: no listener of the two navigation objects reacts, whatever
    the key. *)
Theorem keys_ignored_while_closed (s : state) (target : element) (k : key)
    (shiftKey : bool) :
  isOpen s = false →
  (∀ i, target ≠ TriggerLink i) → (∀ i j, target ≠ MenuLink i j) →
  step (KeyDown target k shiftKey) s = s.
Proof.
  intros Ho Ht Hm. cbn [step].
  assert (H1 : match target with
               | TriggerLink i => linkKeydown i k s
               | MenuLink i _ => dropdownKeydown i k s
               | _ => s
               end = s).
  { destruct target; try done; [by destruct (Ht i) | by destruct (Hm i j)]. }
  rewrite H1, Ho, andb_false_r. by apply tabTraps_closed.
Qed.

Lemma keys_ignored_while_closed_witness :
  step (KeyDown Body Tab false) page = page.
Proof.
  apply (keys_ignored_while_closed page Body Tab false); [reflexivity | |];
    intros; discriminate.
Defined.

(** *** The focus trap *)

Lemma focus_focus e s : focus e (focus e s) = focus e s.
Proof. unfold focus. by destruct (focusable e) eqn:E; rewrite ?E. Qed.

Lemma handleTabKey_trapped sh f l s :
  isOpen s = true → handleTabKey Tab sh (Some f, Some l) s = trapped sh f l s.
Proof.
  intros Ho. unfold handleTabKey, trapped. rewrite Ho.
  by rewrite bool_decide_eq_true_2.
Qed.

Lemma trapped_isOpen sh f l s : isOpen (trapped sh f l s) = isOpen s.
Proof. unfold trapped, focus. by repeat case_match. Qed.

Lemma trapped_idem sh f l s :
  trapped sh f l (trapped sh f l s) = trapped sh f l s.
Proof.
  unfold trapped. destruct sh.
  - destruct (decide (activeElement s = Some f)) as [H1|H1].
    + rewrite !(bool_decide_eq_true_2 _ H1).
      destruct (bool_decide (activeElement (focus l s) = Some f));
        [apply focus_focus | done].
    + by rewrite !(bool_decide_eq_false_2 _ H1).
  - destruct (decide (activeElement s = Some l)) as [H1|H1].
    + rewrite !(bool_decide_eq_true_2 _ H1).
      destruct (bool_decide (activeElement (focus f s) = Some l));
        [apply focus_focus | done].
    + by rewrite !(bool_decide_eq_false_2 _ H1).
Qed.

Lemma tabTraps_trapped sh f l traps s :
  Forall (λ tr, tr = (Some f, Some l)) traps → traps ≠ [] →
  isOpen s = true →
  foldl (λ s trap, handleTabKey Tab sh trap s) s traps = trapped sh f l s.
Proof.
  intros Hf. revert s. induction Hf as [|t traps Ht Hf IH]; intros s Hne Ho.
  - done.
  - subst t. cbn [foldl]. rewrite handleTabKey_trapped by done.
    destruct traps as [|t' traps']; [done |].
    rewrite IH; [apply trapped_idem | done | by rewrite trapped_isOpen].
Qed.

(** X13. The focus trap: in every reachable state in which the mobile nav
    is open, Tab on the last focusable element of the nav moves the focus
    to the first one and Shift+Tab on the first moves it to the last;
    any other Tab is left alone by the scripts. This also holds after the
    nav has been opened several times, when several trap listeners
    run. *)
Theorem focus_trap_wraps (s : state) (target : element) (f l : element) :
  reachable s → isOpen s = true →
  head (navFocusable s) = Some f → last (navFocusable s) = Some l →
  (activeElement s = Some l →
   step (KeyDown target Tab false) s = focus f s) ∧
  (activeElement s = Some f →
   step (KeyDown target Tab true) s = focus l s) ∧
  (activeElement s ≠ Some l → step (KeyDown target Tab false) s = s) ∧
  (activeElement s ≠ Some f → step (KeyDown target Tab true) s = s).
Proof.
  intros Hr Ho Hf Hl.
  destruct (reachable_trap_inv s Hr) as [Hall Hopen].
  destruct (Hopen Ho) as [Hne _]. rewrite Hf, Hl in Hall.
  assert (Hstep : ∀ sh, step (KeyDown target Tab sh) s = trapped sh f l s).
  { intros sh. cbn [step].
    assert (H1 : match target with
                 | TriggerLink i => linkKeydown i Tab s
                 | MenuLink i _ => dropdownKeydown i Tab s
                 | _ => s
                 end = s).
    { destruct target; try done;
        [by apply linkKeydown_other | by apply dropdownKeydown_other]. }
    rewrite H1. rewrite (bool_decide_eq_false_2 (Tab = Escape)) by done.
    cbn [andb]. by apply tabTraps_trapped. }
  rewrite !Hstep. unfold trapped. repeat split.
  - intros ->. by rewrite bool_decide_eq_true_2.
  - intros ->. by rewrite bool_decide_eq_true_2.
  - intros Hn. by rewrite bool_decide_eq_false_2.
  - intros Hn. by rewrite bool_decide_eq_false_2.
Qed.

Lemma focus_trap_wraps_witness :
  activeElement
    (step (KeyDown (NavElement 0) Tab true)
       (run [ClickToggle; ClickToggle; ClickToggle] page))
  = Some (NavElement 2).
Proof.
  destruct (focus_trap_wraps (run [ClickToggle; ClickToggle; ClickToggle] page)
              (NavElement 0) (NavElement 0) (NavElement 2))
    as (_ & H & _).
  - apply reachable_run, reachable_loaded, page_loaded.
  - by vm_compute.
  - by vm_compute.
  - by vm_compute.
  - rewrite H; by vm_compute.
Defined.

(** X14. Every call of [MobileNav.open] adds one keydown listener to the
    document and nothing ever removes one: an event leaves the number of
    focus traps as it is, except that an event which opens the nav
    raises it by one. *)
Theorem trap_listeners_accumulate (s : state) (e : event) :
  length (tabTraps (step e s))
  = length (tabTraps s) + (if opens e s then 1 else 0).
Proof.
  assert (Hopen : length (tabTraps (open s)) = length (tabTraps s) + 1).
  { destruct (open_traps s) as (-> & _). rewrite length_app. simpl. lia. }
  assert (Hclose : ∀ s0, length (tabTraps (close s0)) = length (tabTraps s0) + 0).
  { intros s0. destruct (close_traps s0) as (-> & _). lia. }
  destruct e as [| | |w|target k sh| | |i b]; cbn [step opens].
  - unfold toggle. by destruct (isOpen s).
  - destruct (closeButton s); [done | lia].
  - done.
  - case_match; [done | lia].
  - set (s1 := match target with
               | TriggerLink i => linkKeydown i k s
               | MenuLink i _ => dropdownKeydown i k s
               | _ => s
               end).
    set (s2 := if bool_decide (k = Escape) && isOpen s1 then close s1 else s1).
    destruct (tabTraps_nav k sh (tabTraps s2) s2)
      as (_ & _ & _ & _ & _ & _ & _ & _ & ->).
    assert (H1 : tabTraps s1 = tabTraps s).
    { subst s1. destruct target; try done.
      - apply linkKeydown_nav.
      - apply dropdownKeydown_nav. }
    subst s2.
    destruct (bool_decide (k = Escape) && isOpen s1);
      [rewrite Hclose | ]; rewrite H1; lia.
  - done.
  - done.
  - cbn. lia.
Qed.

(** X15. The page behind an open mobile nav does not scroll: in every
    reachable state in which the nav is open, the body has
    overflow 'hidden'. *)
Theorem scroll_locked_while_open (s : state) :
  reachable s → isOpen s = true → bodyOverflow s = "hidden".
Proof.
  intros Hr Ho. destruct (reachable_trap_inv s Hr) as [_ H].
  by destruct (H Ho).
Qed.

Lemma scroll_locked_while_open_witness :
  bodyOverflow (run [ClickToggle; KeyDown (NavElement 0) Tab false] page)
  = "hidden".
Proof.
  apply (scroll_locked_while_open
           (run [ClickToggle; KeyDown (NavElement 0) Tab false] page)).
  - apply reachable_run, reachable_loaded, page_loaded.
  - by vm_compute.
Defined.

(** *** aria-hidden mirrors aria-expanded *)

Lemma toggleDropdown_mirrored i b s :
  items_mirrored s → items_mirrored (toggleDropdown i b s).
Proof.
  unfold items_mirrored, toggleDropdown. cbn [navItems set_navItems].
  intros H. apply Forall_alter; [done |]. intros it _ _.
  exists b. cbn [linkAttrs dropdownAttrs]. by rewrite !lookup_insert_eq.
Qed.

Lemma same_items_mirrored s s' :
  same_items s s' → items_mirrored s → items_mirrored s'.
Proof. unfold same_items, items_mirrored. by intros ->. Qed.

Lemma focus_mirrored e s : items_mirrored s → items_mirrored (focus e s).
Proof. unfold focus. by destruct (focusable e). Qed.

Lemma linkKeydown_mirrored i k s :
  items_mirrored s → items_mirrored (linkKeydown i k s).
Proof.
  intros H. unfold linkKeydown. destruct (navItems s !! i) as [it|]; [| done].
  destruct k; cbn; try done; try by apply toggleDropdown_mirrored.
  destruct (menuLinks i it);
    [| apply focus_mirrored]; by apply toggleDropdown_mirrored.
Qed.

Lemma dropdownKeydown_mirrored i k s :
  items_mirrored s → items_mirrored (dropdownKeydown i k s).
Proof.
  intros H. unfold dropdownKeydown.
  destruct (navItems s !! i) as [it|]; [| done].
  destruct k; cbn [bool_decide decide_rel key_eq_dec key_rec key_rect andb];
    try done.
  - repeat case_match; try done; by apply focus_mirrored.
  - repeat case_match; try done;
      first [by apply focus_mirrored
            | by apply toggleDropdown_mirrored, focus_mirrored].
  - by apply toggleDropdown_mirrored, focus_mirrored.
Qed.

Lemma step_mirrored e s : items_mirrored s → items_mirrored (step e s).
Proof.
  intros Hs. destruct e as [| | |w|target k sh| | |i b]; cbn [step].
  - unfold toggle. destruct (isOpen s);
      [eapply same_items_mirrored; [apply close_items | done]
      | eapply same_items_mirrored; [apply open_items | done]].
  - destruct (closeButton s); [| done].
    eapply same_items_mirrored; [apply close_items | done].
  - eapply same_items_mirrored; [apply close_items | done].
  - case_match; [| done].
    eapply same_items_mirrored; [apply close_items | done].
  - eapply same_items_mirrored; [apply tabTraps_frame |].
    set (s1 := match target with
               | TriggerLink i => linkKeydown i k s
               | MenuLink i _ => dropdownKeydown i k s
               | _ => s
               end).
    assert (H1 : items_mirrored s1).
    { subst s1. destruct target; try done;
        [by apply linkKeydown_mirrored | by apply dropdownKeydown_mirrored]. }
    destruct (bool_decide (k = Escape) && isOpen s1); [| done].
    eapply same_items_mirrored; [apply close_items | done].
  - eapply same_items_mirrored; [apply open_items | done].
  - eapply same_items_mirrored; [apply close_items | done].
  - by apply toggleDropdown_mirrored.
Qed.

(** X17. On a page whose dropdowns start with aria-hidden the opposite of
    aria-expanded, that stays so whatever happens: after any sequence of
    events every dropdown has aria-hidden='false' exactly when its
    trigger link has aria-expanded='true'. *)
Theorem aria_hidden_mirrors_expanded (evs : list event) (s : state) :
  items_mirrored s → items_mirrored (run evs s).
Proof.
  revert s. induction evs as [|e evs IH]; intros s Hs; [done |].
  cbn [run foldl]. apply IH. by apply step_mirrored.
Qed.

Lemma aria_hidden_mirrors_expanded_witness :
  items_mirrored (run two_enters page).
Proof.
  apply (aria_hidden_mirrors_expanded two_enters page).
  repeat constructor; by exists false.
Defined.

(** *** Keys on a trigger link *)

Lemma expanded_toggled la da n b :
  expanded {| linkAttrs := <["aria-expanded" := bool_to_string b]> la;
              dropdownAttrs := da; dropdownLinks := n |} = b.
Proof.
  unfold expanded; cbn [linkAttrs]. rewrite lookup_insert_eq.
  destruct b; [by apply bool_decide_eq_true_2 | by apply bool_decide_eq_false_2].
Qed.

(** A key that is neither Escape nor Tab reaches no listener of the
    document. *)
Lemma keydown_target_only target k sh s :
  k ≠ Escape → k ≠ Tab →
  step (KeyDown target k sh) s
  = match target with
    | TriggerLink i => linkKeydown i k s
    | MenuLink i _ => dropdownKeydown i k s
    | _ => s
    end.
Proof.
  intros He Ht. cbn [step].
  rewrite (bool_decide_eq_false_2 _ He). cbn [andb].
  by apply tabTraps_other.
Qed.

Lemma toggleDropdown_lookup i b s it :
  navItems s !! i = Some it →
  (∃ it', navItems (toggleDropdown i b s) !! i = Some it' ∧
          expanded it' = b ∧
          dropdownAttrs it' !! "aria-hidden" = Some (bool_to_string (negb b)) ∧
          dropdownLinks it' = dropdownLinks it) ∧
  (∀ j, j ≠ i → navItems (toggleDropdown i b s) !! j = navItems s !! j).
Proof.
  intros Hi. unfold toggleDropdown. cbn [navItems set_navItems]. split.
  - eexists. rewrite list_lookup_alter_eq, Hi. cbn [fmap option_fmap option_map].
    split; [reflexivity |]. rewrite expanded_toggled.
    cbn [dropdownAttrs dropdownLinks]. by rewrite lookup_insert_eq.
  - intros j Hj. by rewrite list_lookup_alter_ne.
Qed.

(** X19. Enter or Space on a trigger link flips its own dropdown and no
    other: the dropdown that was closed is open afterwards and the other
    way round, aria-hidden is set to match, every other dropdown and the
    mobile nav are as before; two presses bring the first state back. *)
Theorem trigger_key_flips_own_dropdown (s : state) (i : nat) (it : navItem)
    (k : key) (shiftKey : bool) :
  navItems s !! i = Some it → k = Enter ∨ k = Space →
  (∃ it', navItems (step (KeyDown (TriggerLink i) k shiftKey) s) !! i = Some it' ∧
          expanded it' = negb (expanded it) ∧
          dropdownAttrs it' !! "aria-hidden"
            = Some (bool_to_string (expanded it))) ∧
  (∀ j, j ≠ i →
        navItems (step (KeyDown (TriggerLink i) k shiftKey) s) !! j
        = navItems s !! j) ∧
  same_nav s (step (KeyDown (TriggerLink i) k shiftKey) s) ∧
  (∃ it'', navItems (step (KeyDown (TriggerLink i) k shiftKey)
                       (step (KeyDown (TriggerLink i) k shiftKey) s)) !! i
           = Some it'' ∧ expanded it'' = expanded it).
Proof.
  intros Hi Hk.
  assert (Hstep : ∀ s0 it0, navItems s0 !! i = Some it0 →
            step (KeyDown (TriggerLink i) k shiftKey) s0
            = toggleDropdown i (negb (expanded it0)) s0).
  { intros s0 it0 H0.
    rewrite keydown_target_only by (by destruct Hk as [-> | ->]).
    unfold linkKeydown. rewrite H0.
    by destruct Hk as [-> | ->]. }
  rewrite !(Hstep s it Hi).
  destruct (toggleDropdown_lookup i (negb (expanded it)) s it Hi)
    as [(it' & Hit' & He' & Hh' & _) Hother].
  split; [| split; [| split]].
  - exists it'. rewrite negb_involutive in Hh'. by repeat split.
  - exact Hother.
  - apply toggleDropdown_nav.
  - rewrite (Hstep _ it' Hit').
    destruct (toggleDropdown_lookup i (negb (expanded it')) _ it' Hit')
      as [(it'' & Hit'' & He'' & _) _].
    exists it''. split; [done |]. by rewrite He'', He', negb_involutive.
Qed.

Lemma trigger_key_flips_own_dropdown_witness :
  ∃ it', navItems (step (KeyDown (TriggerLink 1) Space false) page) !! 1
         = Some it' ∧
         expanded it' = negb (expanded closedItem) ∧
         dropdownAttrs it' !! "aria-hidden"
           = Some (bool_to_string (expanded closedItem)).
Proof.
  apply (trigger_key_flips_own_dropdown page 1 closedItem Space false).
  - reflexivity.
  - by right.
Defined.

(** *** Keys inside a dropdown *)

Lemma indexOf_menuLinks i a n j :
  j < n →
  indexOf (MenuLink i <$> seq a n) (Some (MenuLink i (a + j))) = Z.of_nat j.
Proof.
  revert a j. induction n as [|n IH]; intros a j Hj; [lia |].
  cbn [seq fmap list_fmap indexOf]. destruct j as [|j].
  - rewrite Nat.add_0_r. by rewrite bool_decide_eq_true_2.
  - rewrite bool_decide_eq_false_2 by (intros [= H]; lia).
    replace (a + S j) with (S a + j) by lia.
    change (list_fmap nat element (MenuLink i) (seq (S a) n))
      with (MenuLink i <$> seq (S a) n).
    rewrite IH by lia.
    destruct (Z.ltb_spec (Z.of_nat j) 0); lia.
Qed.

Lemma lookup_menuLinks i it j :
  j < dropdownLinks it → menuLinks i it !! j = Some (MenuLink i j).
Proof.
  intros Hj. unfold menuLinks. rewrite list_lookup_fmap, lookup_seq_lt by done.
  done.
Qed.

Lemma length_menuLinks i it : length (menuLinks i it) = dropdownLinks it.
Proof. unfold menuLinks. by rewrite length_fmap, length_seq. Qed.

(** X18. Arrow keys inside a dropdown, the focus being on its j-th link:
    ArrowDown moves the focus to the next link and does nothing on the
    last one; ArrowUp moves it to the link before and, on the first
    link, back to the trigger link while closing the dropdown; Escape
    (with the mobile nav closed) also returns to the trigger link and
    closes the dropdown. Nothing else changes. *)
Theorem dropdown_arrow_keys (s : state) (i j : nat) (it : navItem)
    (shiftKey : bool) :
  navItems s !! i = Some it → j < dropdownLinks it →
  activeElement s = Some (MenuLink i j) →
  (S j < dropdownLinks it →
   step (KeyDown (MenuLink i j) ArrowDown shiftKey) s
   = focus (MenuLink i (S j)) s) ∧
  (S j = dropdownLinks it →
   step (KeyDown (MenuLink i j) ArrowDown shiftKey) s = s) ∧
  (0 < j →
   step (KeyDown (MenuLink i j) ArrowUp shiftKey) s
   = focus (MenuLink i (j - 1)) s) ∧
  (j = 0 →
   step (KeyDown (MenuLink i j) ArrowUp shiftKey) s
   = toggleDropdown i false (focus (TriggerLink i) s)) ∧
  (isOpen s = false →
   step (KeyDown (MenuLink i j) Escape shiftKey) s
   = toggleDropdown i false (focus (TriggerLink i) s)).
Proof.
  intros Hi Hj Ha.
  assert (Hidx : indexOf (menuLinks i it) (activeElement s) = Z.of_nat j).
  { rewrite Ha. unfold menuLinks. by apply (indexOf_menuLinks i 0 _ j). }
  rewrite !keydown_target_only by done.
  unfold dropdownKeydown. rewrite Hi, Hidx, length_menuLinks.
  rewrite !(bool_decide_eq_true_2 (ArrowDown = ArrowDown)) by done.
  rewrite !(bool_decide_eq_true_2 (ArrowUp = ArrowUp)) by done.
  rewrite !(bool_decide_eq_false_2 (ArrowDown = ArrowUp)) by done.
  rewrite !(bool_decide_eq_false_2 (ArrowDown = Escape)) by done.
  rewrite !(bool_decide_eq_false_2 (ArrowUp = ArrowDown)) by done.
  rewrite !(bool_decide_eq_false_2 (ArrowUp = Escape)) by done.
  cbn [andb].
  split; [| split; [| split; [| split]]].
  - intros Hn.
    destruct (Z.ltb_spec (Z.of_nat j) (Z.of_nat (dropdownLinks it) - 1)); [| lia].
    replace (Z.to_nat (Z.of_nat j + 1)) with (S j) by lia.
    by rewrite lookup_menuLinks.
  - intros Hn.
    by destruct (Z.ltb_spec (Z.of_nat j) (Z.of_nat (dropdownLinks it) - 1));
      [lia |].
  - intros H0. destruct (Z.ltb_spec 0 (Z.of_nat j)); [| lia].
    replace (Z.to_nat (Z.of_nat j - 1)) with (j - 1) by lia.
    by rewrite lookup_menuLinks by lia.
  - intros ->. by destruct (Z.ltb_spec 0 (Z.of_nat 0)); [lia |].
  - intros Ho. cbn [step]. unfold dropdownKeydown.
    rewrite Hi.
    rewrite !(bool_decide_eq_false_2 (Escape = ArrowDown)) by done.
    rewrite !(bool_decide_eq_false_2 (Escape = ArrowUp)) by done.
    rewrite !(bool_decide_eq_true_2 (Escape = Escape)) by done.
    cbn [andb]. change (isOpen (toggleDropdown i false (focus (TriggerLink i) s)))
      with (isOpen s).
    rewrite Ho. by apply tabTraps_closed.
Qed.

Lemma dropdown_arrow_keys_witness :
  step (KeyDown (MenuLink 0 1) ArrowDown false) in_dropdown
  = focus (MenuLink 0 2) in_dropdown.
Proof.
  destruct (dropdown_arrow_keys in_dropdown 0 1
              (default closedItem (navItems in_dropdown !! 0)) false)
    as (H & _).
  - by vm_compute.
  - vm_compute. lia.
  - by vm_compute.
  - apply H. vm_compute. lia.
Defined.

(** *** Submenus of the mobile nav *)

(** X20. A click on a submenu toggle of the mobile nav flips the submenu:
    afterwards aria-expanded is 'true' exactly when it was not before,
    and the submenu's display is 'block' exactly when aria-expanded is
    'true'; a second click brings the first expanded state back. *)
Theorem submenu_click_flips (t : submenuToggle) (display : string) :
  place t = Submenu display →
  ∃ t', submenuClick t = Some t' ∧
        submenuExpanded t' = negb (submenuExpanded t) ∧
        submenuShown t' = submenuExpanded t' ∧
        ∃ t'', submenuClick t' = Some t'' ∧
               submenuExpanded t'' = submenuExpanded t ∧
               submenuShown t'' = submenuExpanded t.
Proof.
  intros Hp. unfold submenuClick. rewrite Hp. eexists. split; [reflexivity |].
  assert (Hflip : ∀ a b,
            bool_decide ((<["aria-expanded" := bool_to_string b]> a : gmap string string)
                         !! "aria-expanded" = Some "true") = b).
  { intros a b. rewrite lookup_insert_eq.
    destruct b; [by apply bool_decide_eq_true_2
                | by apply bool_decide_eq_false_2]. }
  unfold submenuExpanded, submenuShown. cbn [submenuAttrs place].
  rewrite !Hflip.
  destruct (bool_decide (submenuAttrs t !! "aria-expanded" = Some "true")).
  - split; [done |]. split; [by vm_compute |].
    eexists. split; [reflexivity |]. cbn [submenuAttrs place].
    rewrite !Hflip. by vm_compute.
  - split; [done |]. split; [by vm_compute |].
    eexists. split; [reflexivity |]. cbn [submenuAttrs place].
    rewrite !Hflip. by vm_compute.
Qed.

Lemma submenu_click_flips_witness :
  ∃ t', submenuClick fresh_submenu = Some t' ∧
        submenuExpanded t' = negb (submenuExpanded fresh_submenu) ∧
        submenuShown t' = submenuExpanded t' ∧
        ∃ t'', submenuClick t' = Some t'' ∧
               submenuExpanded t'' = submenuExpanded fresh_submenu ∧
               submenuShown t'' = submenuExpanded fresh_submenu.
Proof. by apply (submenu_click_flips fresh_submenu ""). Defined.

End NavMore.

(* ===================================================================== *)
(** ** LanguageSwitcher: requests, navigation, initialisation *)
(* ===================================================================== *)

Module LanguageSwitcherMore.
Import LanguageSwitcher LanguageSwitcherSpec.

Lemma storePreference_ok c s :
  ∃ s', storePreference c s = Ok s' ∧
        pathname s' = pathname s ∧ navigation s' = navigation s ∧
        currentLanguage s' = currentLanguage s ∧
        (raises_nothing (localStorage s) →
         stored s' = Some c ∧ mode (localStorage s') = Working).
Proof.
  unfold storePreference, setItem, raises_nothing, stored.
  destruct (mode (localStorage s)) eqn:E; cbn; eexists;
    (split; [reflexivity |]); cbn; repeat split; try done.
  by rewrite lookup_insert_eq.
Qed.

Lemma known_own l :
  known l →
  ∃ c, languages_get l = Own c ∧ path c = language_page l "" ∧
       ∀ rest, path c +:+ rest = language_page l rest.
Proof. intros [->|[->| ->]]; eexists; by repeat split. Qed.

Lemma matchLangPrefix_language_page l rest :
  known l → matchLangPrefix (language_page l rest) = Some l.
Proof. by intros [->|[->| ->]]. Qed.

Lemma matchLangPath_language_page l rest :
  known l → dot_star rest = true →
  matchLangPath (language_page l rest) = Some (l, Some ("/" +:+ rest)).
Proof.
  intros Hk Hd. unfold matchLangPath, language_page.
  destruct Hk as [->|[->| ->]]; cbv [String.append]; cbn; by rewrite Hd.
Qed.

(** X21. A language change request never throws, and the only thing it
    can make the browser navigate to is a page of the English tree: if
    window.location is assigned at all, the requested code is 'en', the
    current language is another one, and the new location starts with
    '/en/'. The current language recorded in the object is not changed
    by the request. *)
Theorem handleLanguageChange_safe (langCode : string) (s : state) :
  ∃ s', handleLanguageChange langCode s = Ok s' ∧
        currentLanguage s' = currentLanguage s ∧
        pathname s' = pathname s ∧
        (navigation s' ≠ navigation s →
         langCode = "en" ∧ currentLanguage s ≠ "en" ∧
         ∃ p, navigation s' = Some p ∧ starts_with "/en/" p = true).
Proof.
  unfold handleLanguageChange.
  destruct (truthy (languages_get langCode)) eqn:Et; cbn [negb].
  2: { eexists. split; [reflexivity |]. by repeat split. }
  destruct (get_enabled (languages_get langCode)) eqn:Ee; cbn [negb].
  2: { unfold showComingSoonMessage.
       destruct (languages_get langCode); [| | done];
         eexists; (split; [reflexivity |]); by repeat split. }
  apply get_enabled_en in Ee as ->.
  case_bool_decide as Hc.
  { eexists. split; [reflexivity |]. by repeat split. }
  unfold switchLanguage.
  destruct (storePreference_ok "en" s) as (s1 & -> & Hp & Hn & Hl & _).
  cbn [mbind result_bind]. rewrite Hp.
  destruct (matchLangPath (pathname s)) as [[l g]|]; cbn;
    eexists; (split; [reflexivity |]); cbn;
    (split; [done |]); (split; [done |]); intros _;
    (split; [done |]); (split; [congruence |]); eexists; by split.
Qed.

Lemma detect_on_language_page s l rest :
  known l → pathname s = language_page l rest →
  detectCurrentLanguage s = Ok l.
Proof.
  intros Hk Hp. unfold detectCurrentLanguage.
  rewrite Hp, (matchLangPrefix_language_page l rest Hk). cbn [mbind option_bind].
  by rewrite (known_truthy l Hk).
Qed.

(** X22. [switchLanguage] to one of the three configured languages stores
    the code (when the storage works) and sends the browser to a page of
    that language's tree: the same page when the current path is inside
    a language tree (/en/about.html becomes /fr/about.html), the root of
    the tree otherwise. On the page it navigates to,
    [detectCurrentLanguage] returns the language switched to. *)
Theorem switchLanguage_target (l : string) (s : state) :
  known l →
  ∃ s' rest,
    switchLanguage l s = Normal s' ∧
    navigation s' = Some (language_page l rest) ∧
    (∀ l0 rest0, known l0 → dot_star rest0 = true →
                 pathname s = language_page l0 rest0 → rest = rest0) ∧
    (matchLangPath (pathname s) = None → rest = "") ∧
    (raises_nothing (localStorage s) → stored s' = Some l) ∧
    (∀ s2, pathname s2 = language_page l rest →
           detectCurrentLanguage s2 = Ok l).
Proof.
  intros Hk. destruct (known_own l Hk) as (c & Hc & Hpath & Happ).
  unfold switchLanguage. rewrite Hc.
  destruct (storePreference_ok l s) as (s1 & -> & Hp & Hn & Hl & Hst).
  cbn [mbind result_bind]. rewrite Hp.
  destruct (matchLangPath (pathname s)) as [[l1 g]|] eqn:Em;
    cbn [get_text mbind result_bind].
  - exists (set_navigation (path c +:+ substring_from 1 (default "/" g)) s1),
      (substring_from 1 (default "/" g)).
    split; [done |]. split.
    { cbn. by rewrite Happ. }
    split.
    { intros l0 rest0 Hk0 Hd0 Hp0.
      rewrite Hp0, (matchLangPath_language_page l0 rest0 Hk0 Hd0) in Em.
      by injection Em as <- <-. }
    split; [done |]. split; [intros Hw; by apply Hst |].
    intros s2 H2. by apply (detect_on_language_page s2 l _ Hk H2).
  - exists (set_navigation (path c) s1), "".
    split; [done |]. split; [cbn; by rewrite Hpath |].
    split.
    { intros l0 rest0 Hk0 Hd0 Hp0.
      rewrite Hp0, (matchLangPath_language_page l0 rest0 Hk0 Hd0) in Em.
      discriminate. }
    split; [done |]. split; [intros Hw; by apply Hst |].
    intros s2 H2. by apply (detect_on_language_page s2 l _ Hk H2).
Qed.

Lemma switchLanguage_target_witness :
  ∃ s' rest,
    switchLanguage "fr" french_browser = Normal s' ∧
    navigation s' = Some (language_page "fr" rest) ∧
    (∀ l0 rest0, known l0 → dot_star rest0 = true →
                 pathname french_browser = language_page l0 rest0 →
                 rest = rest0) ∧
    (matchLangPath (pathname french_browser) = None → rest = "") ∧
    (raises_nothing (localStorage french_browser) → stored s' = Some "fr") ∧
    (∀ s2, pathname s2 = language_page "fr" rest →
           detectCurrentLanguage s2 = Ok "fr").
Proof.
  apply (switchLanguage_target "fr" french_browser).
  right; right; reflexivity.
Defined.

Example switchLanguage_keeps_page :
  (s' ← completed (switchLanguage "fr" french_browser); Ok (navigation s'))
  = Ok (Some "/fr/about.html").
Proof. reflexivity. Qed.

(** X29. [switchLanguage] called with a code that has no configuration
    throws a TypeError (it reads [path] off undefined), and it does so
    after [storePreference] has run: nothing is assigned to
    window.location, but with a working storage the unconfigured code is
    stored under the key by then. Only the guards of
    [handleLanguageChange] keep that from happening on a click: for such
    a code it returns normally, the console has one more entry, the
    warning that the language was not found, and nothing else of the
    page has changed (storage, location, toasts and timers included). *)
Theorem switchLanguage_unknown_throws (langCode : string) (s : state) :
  languages_get langCode = Undefined →
  (∃ s1, switchLanguage langCode s = Abrupt TypeError s1 ∧
         storePreference langCode s = Ok s1 ∧
         navigation s1 = navigation s ∧
         (raises_nothing (localStorage s) →
          stored s1 = Some langCode ∧
          written_since s s1 [(storageKey, langCode)])) ∧
  ∃ s', handleLanguageChange langCode s = Ok s' ∧
        console s' = console s ++
          [Warn ("Language " +:+ dquote +:+ langCode +:+ dquote
                 +:+ " not found")] ∧
        same_but_console s s'.
Proof.
  intros Hu. split.
  - destruct (storePreference_ok langCode s) as (s1 & E & _ & Hn & _ & Hst).
    exists s1. split; [| split; [done | split; [done |]]].
    + unfold switchLanguage. rewrite Hu, E.
      by destruct (matchLangPath (pathname s1)) as [[l g]|].
    + intros Hw. split; [by apply Hst |].
      revert E. unfold storePreference, setItem, written_since.
      rewrite Hw. cbn. by intros [= <-].
  - unfold handleLanguageChange. rewrite Hu. cbn [truthy negb].
    eexists. split; [reflexivity |]. by repeat split.
Qed.

Lemma switchLanguage_unknown_throws_witness :
  (∃ s1, switchLanguage "de" french_browser = Abrupt TypeError s1 ∧
         storePreference "de" french_browser = Ok s1 ∧
         navigation s1 = navigation french_browser ∧
         (raises_nothing (localStorage french_browser) →
          stored s1 = Some "de" ∧
          written_since french_browser s1 [(storageKey, "de")])) ∧
  ∃ s', handleLanguageChange "de" french_browser = Ok s' ∧
        console s' = console french_browser ++
          [Warn ("Language " +:+ dquote +:+ "de" +:+ dquote
                 +:+ " not found")] ∧
        same_but_console french_browser s'.
Proof. by apply (switchLanguage_unknown_throws "de" french_browser). Defined.

(** *** Initialisation *)

Lemma detect_throws_iff s e :
  detectCurrentLanguage s = Throw e ↔
  e = SecurityError ∧ mode (localStorage s) = Denied ∧
  matchLangPrefix (pathname s) = None.
Proof.
  unfold detectCurrentLanguage.
  destruct (matchLangPrefix (pathname s)) as [l0|] eqn:Ep;
    cbn [mbind option_bind].
  - rewrite (known_truthy _ (matchLangPrefix_known _ _ Ep)).
    split; [done | by intros (_ & _ & ?)].
  - unfold getItem. destruct (mode (localStorage s)) eqn:Em;
      cbn [mbind result_bind].
    1,2: split; [| by intros (_ & ? & _)];
      destruct (items (localStorage s) !! storageKey) as [v|]; [| done];
      by destruct (nonempty v && truthy (languages_get v)).
    split; [by intros [= <-] | by intros (-> & _)].
Qed.

Lemma init_shape s s' :
  init s = Ok s' →
  ∃ l s1, detectCurrentLanguage s = Ok l ∧
          storePreference l (setupButtons (set_currentLanguage l s)) = Ok s1 ∧
          currentLanguage s' = l ∧
          localStorage s' = localStorage s1 ∧
          navigation s' = navigation s ∧
          pathname s' = pathname s.
Proof.
  unfold init. destruct (detectCurrentLanguage s) as [l|e]; [| done].
  cbn [mbind result_bind].
  destruct (storePreference_ok (currentLanguage (setupButtons (set_currentLanguage l s)))
              (setupButtons (set_currentLanguage l s)))
    as (s1 & E1 & Hp & Hn & Hl & _).
  rewrite E1. cbn [mbind result_bind]. intros [= <-].
  exists l, s1. split; [done |]. split; [exact E1 |].
  unfold updateDocumentLanguage.
  destruct (languages_get (currentLanguage s1)); cbn; by rewrite ?Hl, ?Hn, ?Hp.
Qed.

(** X23. [init] fails in exactly one situation: the page is outside the
    three language trees and the browser denies access to the storage,
    in which case the SecurityError of the unguarded
    [localStorage.getItem] in [detectCurrentLanguage] comes out of
    [init]. In every other situation [init] completes, the current
    language is the detected one and no navigation is started. *)
Theorem init_throws_iff (s : state) :
  (∀ e, init s = Throw e ↔
        e = SecurityError ∧ mode (localStorage s) = Denied ∧
        matchLangPrefix (pathname s) = None) ∧
  (∀ s', init s = Ok s' →
         detectCurrentLanguage s = Ok (currentLanguage s') ∧
         navigation s' = navigation s).
Proof.
  split.
  - intros e. rewrite <- detect_throws_iff. unfold init.
    destruct (detectCurrentLanguage s) as [l|e0]; cbn [mbind result_bind];
      [| by split; intros [= ->]].
    destruct (storePreference_ok
                (currentLanguage (setupButtons (set_currentLanguage l s)))
                (setupButtons (set_currentLanguage l s))) as (s1 & -> & _).
    cbn [mbind result_bind]. split; discriminate.
  - intros s' Hi. apply init_shape in Hi as (l & s1 & Hd & _ & <- & _ & Hn & _).
    by split.
Qed.

(** X24. While Haitian Creole and French are switched off, the browser's
    language list cannot select anything but English:
    [detectBrowserLanguage] returns 'en' for every value of
    navigator.languages, the empty list included. *)
Theorem browser_language_is_english (s : state) :
  detectBrowserLanguage s = "en".
Proof.
  unfold detectBrowserLanguage. generalize (browserLangs s).
  induction l as [|lang rest IH]; [done |].
  change (enabled ht) with false. rewrite andb_false_r.
  destruct (get_enabled (languages_get (toLowerCase (before_dash lang))))
    eqn:E; [| exact IH].
  unfold languages_get in E.
  destruct (languages !! toLowerCase (before_dash lang)) as [c|] eqn:El.
  - apply languages_lookup in El as [[-> ->]|[[_ ->]|[_ ->]]];
      [done | discriminate | discriminate].
  - by case_bool_decide.
Qed.

(** X25. The order of detection, for a storage that can be read and
    holds no name of a member of Object.prototype: the language of the
    URL (/en/, /ht/ or /fr/ at the start of the path) comes first, also
    when that language is switched off; then the stored code, if it is
    one of the three; then the browser's languages. *)
Theorem detection_order (s : state) (v : option string) :
  getItem (localStorage s) storageKey = Ok v →
  (∀ l, v = Some l → l ∉ Object_prototype) →
  detectCurrentLanguage s =
    Ok match matchLangPrefix (pathname s), v with
       | Some l, _ => l
       | None, Some l =>
           if bool_decide (known l) then l else detectBrowserLanguage s
       | None, None => detectBrowserLanguage s
       end.
Proof.
  intros Hv Hni. unfold detectCurrentLanguage.
  destruct (matchLangPrefix (pathname s)) as [l0|] eqn:Ep;
    cbn [mbind option_bind].
  - by rewrite (known_truthy _ (matchLangPrefix_known _ _ Ep)).
  - rewrite Hv. cbn [mbind result_bind]. destruct v as [l|]; [| done].
    destruct (decide (known l)) as [Hk|Hk].
    + rewrite (bool_decide_eq_true_2 _ Hk), (known_truthy _ Hk).
      by destruct Hk as [->|[->| ->]].
    + rewrite (bool_decide_eq_false_2 _ Hk).
      assert (Hu : languages_get l = Undefined).
      { unfold languages_get.
        destruct (languages !! l) as [c|] eqn:El.
        - destruct Hk.
          apply languages_lookup in El as [[-> _]|[[-> _]|[-> _]]];
            unfold known; auto.
        - by rewrite bool_decide_eq_false_2 by (by apply Hni). }
      rewrite Hu. cbn [truthy]. by rewrite andb_false_r.
Qed.

Lemma detection_order_witness :
  detectCurrentLanguage (visit "/index.html" french_storage) = Ok "fr".
Proof.
  rewrite (detection_order (visit "/index.html" french_storage) (Some "fr")).
  - reflexivity.
  - reflexivity.
  - intros l [= <-]. apply known_not_inherited. by right; right.
Defined.

(** X26. When the stored string is not the name of a member of
    Object.prototype, everything [init] and [handleLanguageChange] write
    to the storage goes under the key 'delmar-preferred-language' and is
    one of 'en', 'ht', 'fr'; each of them writes at most once. *)
Theorem module_writes_known_codes (s s' : state) (langCode : string) :
  (∀ l, stored s = Some l → l ∉ Object_prototype) →
  init s = Ok s' ∨ handleLanguageChange langCode s = Ok s' →
  ∃ new, written_since s s' new ∧ length new ≤ 1 ∧
         Forall (λ kv, kv.1 = storageKey ∧ known kv.2) new.
Proof.
  intros Hni [Hi|Hh].
  - apply init_writes in Hi as (l & Hl & [Hs|Hs]).
    + exists []. unfold written_since. rewrite app_nil_r.
      split; [done |]. split; [cbn; lia | constructor].
    + exists [(storageKey, l)]. split; [done |]. split; [cbn; lia |].
      constructor; [| constructor]. split; [done |]. cbn.
      apply detectCurrentLanguage_result in Hl as [Hk|[Hst Hin]]; [done |].
      by destruct (Hni _ Hst).
  - apply handleLanguageChange_writes in Hh as [Hs|Hs].
    + exists []. unfold written_since. rewrite app_nil_r.
      split; [done |]. split; [cbn; lia | constructor].
    + exists [(storageKey, "en")]. split; [done |]. split; [cbn; lia |].
      constructor; [| constructor]. split; [done |]. by left.
Qed.

Lemma module_writes_known_codes_witness :
  ∃ s', init (visit "/ht/" empty_storage) = Ok s' ∧
  ∃ new, written_since (visit "/ht/" empty_storage) s' new ∧
         length new ≤ 1 ∧
         Forall (λ kv, kv.1 = storageKey ∧ known kv.2) new.
Proof.
  destruct (init (visit "/ht/" empty_storage)) as [s'|e] eqn:E;
    [| by vm_compute in E].
  exists s'. split; [done |].
  apply (module_writes_known_codes (visit "/ht/" empty_storage) s' "").
  - intros l H. by vm_compute in H.
  - by left.
Defined.

Lemma detect_truthy s l :
  detectCurrentLanguage s = Ok l →
  nonempty l = true ∧ truthy (languages_get l) = true.
Proof.
  intros H. apply detectCurrentLanguage_result in H as [Hk|[_ Hin]].
  - split; [by destruct Hk as [->|[->| ->]] | by apply known_truthy].
  - apply list_elem_of_In in Hin. simpl in Hin.
    repeat (destruct Hin as [<-|Hin]; [by split |]). done.
Qed.

(** X27. The preference survives the visit: when the storage works, the
    language that [init] has settled on is the one that
    [detectCurrentLanguage] returns on a later page outside the language
    trees, as long as the storage is as [init] left it. *)
Theorem preference_found_on_next_visit (s s' s2 : state) :
  init s = Ok s' →
  raises_nothing (localStorage s) →
  localStorage s2 = localStorage s' →
  matchLangPrefix (pathname s2) = None →
  detectCurrentLanguage s2 = Ok (currentLanguage s').
Proof.
  intros Hi Hw H2 Hp.
  apply init_shape in Hi as (l & s1 & Hd & E1 & Hcur & Hls & _).
  rewrite Hcur.
  destruct (storePreference_ok l (setupButtons (set_currentLanguage l s)))
    as (s1' & E1' & _ & _ & _ & Hst).
  rewrite E1 in E1'. injection E1' as <-.
  destruct (Hst Hw) as [Hstored Hmode].
  destruct (detect_truthy s l Hd) as [Hne Htr].
  unfold detectCurrentLanguage. rewrite Hp. cbn [mbind option_bind].
  unfold getItem. rewrite H2, Hls, Hmode. cbn [mbind result_bind].
  unfold stored in Hstored. rewrite Hstored.
  by rewrite Hne, Htr.
Qed.

Lemma preference_found_on_next_visit_witness :
  ∃ s', init (visit "/fr/histoire.html" empty_storage) = Ok s' ∧
        detectCurrentLanguage (visit "/" (localStorage s'))
        = Ok (currentLanguage s').
Proof.
  destruct (init (visit "/fr/histoire.html" empty_storage)) as [s'|e] eqn:E;
    [| by vm_compute in E].
  exists s'. split; [done |].
  by apply (preference_found_on_next_visit
              (visit "/fr/histoire.html" empty_storage) s'
              (visit "/" (localStorage s'))).
Defined.

(** X30. [isLanguageEnabled] answers true for 'en' and for nothing else:
    false for 'ht' and 'fr', and false, not an error, for a code without
    configuration and for the name of a member of Object.prototype. A
    language change request can only navigate for a code for which it
    answers true. *)
Theorem isLanguageEnabled_only_english (langCode : string) (s : state) :
  (isLanguageEnabled langCode = true ↔ langCode = "en") ∧
  (∀ s', handleLanguageChange langCode s = Ok s' →
         navigation s' ≠ navigation s → isLanguageEnabled langCode = true).
Proof.
  split.
  - split; [apply get_enabled_en | by intros ->].
  - intros s' Hh Hn. unfold isLanguageEnabled.
    destruct (get_enabled (languages_get langCode)) eqn:Ee; [done |].
    exfalso. apply Hn. revert Hh. unfold handleLanguageChange. rewrite Ee.
    destruct (truthy (languages_get langCode)); cbn [negb];
      [| by intros [= <-]].
    unfold showComingSoonMessage.
    destruct (languages_get langCode); cbn; [| | done]; by intros [= <-].
Qed.

(** *** Buttons *)

Ltac classes :=
  repeat first [rewrite elem_of_union | rewrite elem_of_difference
               | rewrite elem_of_singleton].

Ltac attributes :=
  repeat first [rewrite lookup_insert_eq | rewrite lookup_insert_ne by done
               | rewrite lookup_delete_eq | rewrite lookup_delete_ne by done].

(** X28. What [setupButtons] does to the button of one of the three
    languages: it is marked active (class 'active', aria-current='true')
    exactly when its language is the current one, it is marked disabled
    (class 'disabled', aria-disabled='true') exactly when its language
    is not English, whatever marks it had before, and it gets the click
    listener for its language. *)
Theorem setupButton_marks (current l : string) (b : button) :
  dataLang b = Some l → known l →
  ("active" ∈ btnClassList (setupButton current b) ↔ l = current) ∧
  (btnAttrs (setupButton current b) !! "aria-current" = Some "true"
   ↔ l = current) ∧
  ("disabled" ∈ btnClassList (setupButton current b) ↔ l ≠ "en") ∧
  (btnAttrs (setupButton current b) !! "aria-disabled" = Some "true"
   ↔ l ≠ "en") ∧
  onClick (setupButton current b) = Some l.
Proof.
  intros Hd Hk. unfold setupButton. rewrite Hd.
  destruct Hk as [->|[->| ->]]; cbn [nonempty negb].
  - change (languages_get "en") with (Own en).
    cbn [truthy get_enabled enabled en negb].
    case_bool_decide as Hc;
      cbn [btnClassList btnAttrs onClick]; classes; attributes;
      intuition (try done; try congruence).
  - change (languages_get "ht") with (Own ht).
    cbn [truthy get_enabled enabled ht negb].
    case_bool_decide as Hc;
      cbn [btnClassList btnAttrs onClick]; classes; attributes;
      intuition (try done; try congruence).
  - change (languages_get "fr") with (Own fr).
    cbn [truthy get_enabled enabled fr negb].
    case_bool_decide as Hc;
      cbn [btnClassList btnAttrs onClick]; classes; attributes;
      intuition (try done; try congruence).
Qed.

Lemma setupButton_marks_witness :
  ("active" ∈ btnClassList (setupButton "en" (lang_button "ht")) ↔ "ht" = "en") ∧
  (btnAttrs (setupButton "en" (lang_button "ht")) !! "aria-current"
   = Some "true" ↔ "ht" = "en") ∧
  ("disabled" ∈ btnClassList (setupButton "en" (lang_button "ht"))
   ↔ "ht" ≠ "en") ∧
  (btnAttrs (setupButton "en" (lang_button "ht")) !! "aria-disabled"
   = Some "true" ↔ "ht" ≠ "en") ∧
  onClick (setupButton "en" (lang_button "ht")) = Some "ht".
Proof.
  apply (setupButton_marks "en" "ht" (lang_button "ht")).
  - reflexivity.
  - right; left; reflexivity.
Defined.

End LanguageSwitcherMore.
